(** * The franchise-profitability model of [steamlitstuff.py]

    The script reads nine slider values, evaluates three profit curves over
    a 200-point grid of franchise ratios and derives padded y-axis limits
    from them.  The program text is embedded once, over an abstract number
    type, and read twice: in exact real arithmetic, the model the curves are
    meant to follow, and in IEEE binary64, the arithmetic the script runs
    in, where [np.exp] and the float power stay parameters.  The
    properties of the curves are proved in the exact reading and, for slider
    values in the declared ranges, in binary64 from the [SpecFloat]
    semantics of the primitive floats: the shape of the grid, finiteness of
    every value, the endpoint values, and the order between the curves and
    the limits.  A run of the script in binary64 adds what Python, NumPy
    and matplotlib refuse on the way: an [int] too large for a float, a
    float power that overflows, a limit that is NaN or infinite.  The last
    part shows that the binary64 operations are monotone, being roundings to
    the nearest float, and adds which sliders a curve reads, in which
    direction a slider moves a curve in both readings, and what a pass
    computes in binary64 when [N = 0]. *)

From Stdlib Require Import ZArith List Bool Lia.
From Stdlib Require Import Reals Lra.
From Stdlib Require Import Floats.
Import ListNotations.

Set Implicit Arguments.

(** ** Numbers as the script uses them *)

(** The operations [steamlitstuff.py] applies to Python floats and to
    float64 arrays.  [of_int] is the conversion of a Python [int] that takes
    part in float arithmetic; [half] and [tenth] are the literals [0.5] and
    [0.1]; [fmin] and [fmax] are what [ndarray.min] and [ndarray.max] fold
    with. *)
Class Arith (T : Type) : Type := {
  of_int : Z -> T;
  half : T;
  tenth : T;
  add : T -> T -> T;
  sub : T -> T -> T;
  mul : T -> T -> T;
  div : T -> T -> T;
  neg : T -> T;
  fmin : T -> T -> T;
  fmax : T -> T -> T
}.

(** The two calls that leave the arithmetic: [np.exp] and the float power
    [a**2]. *)
Class Libm (T : Type) : Type := {
  np_exp : T -> T;
  pow2 : T -> T
}.

Declare Scope num_scope.
Delimit Scope num_scope with num.
Infix "+" := add : num_scope.
Infix "-" := sub : num_scope.
Infix "*" := mul : num_scope.
Infix "/" := div : num_scope.
Notation "- x" := (neg x) : num_scope.

(** ** The slider values (lines 14-31) *)

(** [N] comes from an integer slider, everything else from float sliders. *)
Record ParameterSet (T : Type) : Type := {
  pi : T;
  C_op : T;
  H : T;
  v : T;
  N : Z;
  a_star : T;
  beta : T;
  kappa : T;
  delta : T
}.

(** What the script can end with.  [ValueError] is what [ndarray.min] raises
    on an empty array and what [ax.set_ylim] raises on a limit that is NaN or
    infinite.  [OverflowError] is what Python raises when an [int] too large
    for a float enters float arithmetic and when a float power overflows.
    [DomainError] is the error the specification names; no statement of the
    script raises it. *)
Inductive exn : Type := ValueError | OverflowError | DomainError.

Inductive outcome (A : Type) : Type :=
| Returned (x : A)
| Raised (e : exn).
Arguments Raised {A} e.

Definition bind {A B : Type} (m : outcome A) (k : A -> outcome B) : outcome B :=
  match m with
  | Returned x => k x
  | Raised e => Raised e
  end.

Notation "x <- m ;; k" := (bind m (fun x => k))
  (at level 61, m at next level, right associativity).

(** What one pass of the script hands to the plot. *)
Record Evaluation (T : Type) : Type := {
  grid : list T;
  base : list T;
  endh : list T;
  dup : list T;
  ylim : T * T
}.

(** ** List helpers for the array operations *)

(** [y[-1] = x] *)
Definition set_last {A : Type} (l : list A) (x : A) : list A :=
  match l with
  | [] => []
  | _ :: _ => removelast l ++ [x]
  end.

(** Elementwise combination of two arrays of the same shape. *)
Fixpoint map2 {A B C : Type} (f : A -> B -> C) (l : list A) (m : list B) : list C :=
  match l, m with
  | a :: l', b :: m' => f a b :: map2 f l' m'
  | _, _ => []
  end.

Section Program.

Context {T : Type} {AT : Arith T}.
Local Open Scope num_scope.

(** [np.arange(0, num)] as floats. *)
Definition arange (num : nat) : list T :=
  map (fun k => of_int (Z.of_nat k)) (seq 0 num).

(** [np.linspace(start, stop, num)] with the default [endpoint=True]:
    [arange(0, num) * step + start] with [step = (stop - start) / (num - 1)],
    and the last entry overwritten with [stop]. *)
Definition linspace (start stop : T) (num : nat) : list T :=
  let dv := (num - 1)%nat in
  let dlt := stop - start in
  let y :=
    if (0 <? dv)%nat
    then map (fun k => k * (dlt / of_int (Z.of_nat dv))) (arange num)
    else map (fun k => k * dlt) (arange num) in
  let y := map (fun k => k + start) y in
  if (1 <? num)%nat then set_last y stop else y.

(** Line 42: [F = np.linspace(0, 1, 200)]. *)
Definition F : list T := linspace (of_int 0) (of_int 1) 200.

(** [ndarray.min()] and [ndarray.max()]. *)
Definition array_min (l : list T) : outcome T :=
  match l with
  | [] => Raised ValueError
  | x :: l' => Returned (fold_left fmin l' x)
  end.

Definition array_max (l : list T) : outcome T :=
  match l with
  | [] => Raised ValueError
  | x :: l' => Returned (fold_left fmax l' x)
  end.

Context {LT : Libm T}.
Variable ps : ParameterSet T.

(** Lines 37-39: the three lambdas. *)
Definition c (a : T) : T := half * kappa ps * pow2 a.
Definition p (a : T) : T := of_int 1 - np_exp (- beta ps * a).
Definition C_op_F (f : T) : T := H ps + v ps * (of_int 1 - f) * of_int (N ps).

(** Lines 46-47 at one entry [f] of [F]. *)
Definition P_base_at (f : T) : T :=
  (of_int 1 - f) * (pi ps - C_op ps) + f * (p (a_star ps) * pi ps - c (a_star ps)).

Definition P_endh_at (f : T) : T :=
  (of_int 1 - f) * (pi ps - C_op_F f / of_int (N ps))
  + f * (p (a_star ps) * pi ps - c (a_star ps)).

(** Lines 46-48: the three arrays. *)
Definition P_base : list T := map P_base_at F.
Definition P_endh : list T := map P_endh_at F.
Definition P_dup : list T :=
  map2 (fun e f => e - delta ps * f * (of_int 1 - f)) P_endh F.

(** Lines 75-78: the limits the script computes and hands to [ax.set_ylim].
    What the call does with them is [ax_set_ylim] below. *)
Definition all_p_values : list T := P_base ++ P_endh ++ P_dup.

Definition padding (p_min p_max : T) : T := (p_max - p_min) * tenth.

Definition set_ylim : outcome (T * T) :=
  p_min <- array_min all_p_values ;;
  p_max <- array_max all_p_values ;;
  Returned (p_min - padding p_min p_max, p_max + padding p_min p_max).

(** The values of one pass: the grid, the three curves and the limits.  What
    the interpreter and the libraries refuse on the way is [steamlitstuff]
    below. *)
Definition evaluate : outcome (Evaluation T) :=
  lim <- set_ylim ;;
  Returned {| grid := F; base := P_base; endh := P_endh; dup := P_dup;
              ylim := lim |}.

End Program.

Arguments F : simpl never.

(** ** Exact real arithmetic *)

#[export] Instance R_arith : Arith R := {|
  of_int := IZR;
  half := 0.5%R;
  tenth := 0.1%R;
  add := Rplus;
  sub := Rminus;
  mul := Rmult;
  div := Rdiv;
  neg := Ropp;
  fmin := Rmin;
  fmax := Rmax
|}.

#[export] Instance R_libm : Libm R := {|
  np_exp := exp;
  pow2 := fun a => (a ^ 2)%R
|}.

(** ** IEEE binary64 *)

(** A Python [int] converted for float arithmetic: the nearest binary64
    value, ties to even, whatever the size of the integer (exact below
    [2^53]); an infinity stands for an integer beyond the largest float, which
    Python refuses ([int_to_float] below). *)
Definition float_of_int (z : Z) : float :=
  SF2Prim (binary_normalize prec emax z 0 false).

(** The reductions [np.min] and [np.max] use: a NaN accumulator stays. *)
Definition float_min (a b : float) : float :=
  if PrimFloat.ltb a b || PrimFloat.is_nan a then a else b.

(** [np.max] likewise. *)
Definition float_max (a b : float) : float :=
  if PrimFloat.ltb b a || PrimFloat.is_nan a then a else b.

#[export] Instance float_arith : Arith float := {|
  of_int := float_of_int;
  half := 0.5%float;
  tenth := 0x1.999999999999ap-4%float;
  add := PrimFloat.add;
  sub := PrimFloat.sub;
  mul := PrimFloat.mul;
  div := PrimFloat.div;
  neg := PrimFloat.opp;
  fmin := float_min;
  fmax := float_max
|}.

(** The franchised-outlet profit [p(a_star) * pi - c(a_star)] that lines 46
    and 47 both compute. *)
Definition franchised_profit {T : Type} {AT : Arith T} {LT : Libm T}
           (ps : ParameterSet T) : T :=
  sub (mul (p ps (a_star ps)) (pi ps)) (c ps (a_star ps)).

(** ** One run of the script in binary64 *)

(** [a**2] on a Python float (line 37): the interpreter raises
    [OverflowError] when the power of a finite number overflows. *)
Definition float_pow2 {LT : Libm float} (a : float) : outcome float :=
  if PrimFloat.is_infinity (pow2 a) && negb (PrimFloat.is_infinity a)
  then Raised OverflowError
  else Returned (pow2 a).

(** The [int] [N] entering float64 arithmetic (lines 39 and 47): Python
    raises [OverflowError] when it is too large for a float. *)
Definition int_to_float (z : Z) : outcome float :=
  if PrimFloat.is_infinity (float_of_int z)
  then Raised OverflowError
  else Returned (float_of_int z).

(** [ax.set_ylim(bottom, top)] (line 78): matplotlib raises [ValueError] on a
    limit that is NaN or infinite, and takes finite limits as they are. *)
Definition ax_set_ylim (lim : float * float) : outcome (float * float) :=
  if PrimFloat.is_finite (fst lim) && PrimFloat.is_finite (snd lim)
  then Returned lim
  else Raised ValueError.

(** One run of the script from the slider values to the plot, with what the
    interpreter and the libraries refuse on the way: line 46 evaluates
    [c(a_star)], line 47 brings [N] into float arithmetic, lines 75-77
    compute the limits from the curves, line 78 sets them.  The other
    statements raise nothing: a division by zero, an overflow in [np.exp] and
    a NaN in an array only warn. *)
Definition steamlitstuff {LT : Libm float} (ps : ParameterSet float) :
  outcome (Evaluation float) :=
  effort <- float_pow2 (a_star ps) ;;
  outlets <- int_to_float (N ps) ;;
  lim <- set_ylim ps ;;
  lim <- ax_set_ylim lim ;;
  Returned {| grid := F; base := P_base ps; endh := P_endh ps; dup := P_dup ps;
              ylim := lim |}.

(** ** The declared domains *)

(** The declared slider ranges (lines 14-31), read in exact arithmetic. *)
Definition valid (ps : ParameterSet R) : Prop :=
  (0 <= pi ps <= 1 /\ 0 <= C_op ps <= 1 /\ 0 <= H ps <= 50000000
   /\ 0 <= v ps <= 50000)%R
  /\ (1 <= N ps <= 10000)%Z
  /\ (0 <= a_star ps <= 10 /\ 0.1 <= beta ps <= 10 /\ 0.1 <= kappa ps <= 10
      /\ 0 <= delta ps <= 1)%R.

(** [lo <= x <= hi], as the float comparisons decide it. *)
Definition between (lo hi x : float) : Prop :=
  PrimFloat.leb lo x = true /\ PrimFloat.leb x hi = true.

(** The same slider ranges on binary64 values ([0.1] is the nearest
    double). *)
Definition float_valid (ps : ParameterSet float) : Prop :=
  between 0 1 (pi ps) /\ between 0 1 (C_op ps)
  /\ between 0 5e7 (H ps) /\ between 0 5e4 (v ps)
  /\ (1 <= N ps <= 10000)%Z
  /\ between 0 10 (a_star ps)
  /\ between 0x1.999999999999ap-4 10 (beta ps)
  /\ between 0x1.999999999999ap-4 10 (kappa ps)
  /\ between 0 1 (delta ps).

(** ** The slider defaults and the parameter sets used as examples *)

(** The third argument of each slider call (lines 14-31). *)
Definition defaults : ParameterSet R := {|
  pi := 0.23%R; C_op := 0.20%R; H := 10000000%R; v := 5000%R; N := 500%Z;
  a_star := 1%R; beta := 1%R; kappa := 1%R; delta := 0.10%R
|}.

(** The same defaults as binary64 values ([0.23], [0.20] and [0.10] are the
    nearest doubles). *)
Definition float_defaults : ParameterSet float := {|
  pi := 0x1.d70a3d70a3d71p-3%float; C_op := 0x1.999999999999ap-3%float;
  H := 1e7%float; v := 5e3%float; N := 500%Z;
  a_star := 1%float; beta := 1%float; kappa := 1%float;
  delta := 0x1.999999999999ap-4%float
|}.

(** What [libm] returns for the two calls a pass with the defaults makes:
    [exp(-1.0)] and [1.0 ** 2]. *)
Definition libm_at_defaults : Libm float := {|
  np_exp := fun _ => 0x1.78b56362cef38p-2%float;
  pow2 := fun a => PrimFloat.mul a a
|}.

(** A parameter set with the outlet count replaced. *)
Definition with_N {T : Type} (ps : ParameterSet T) (n : Z) : ParameterSet T := {|
  pi := pi ps; C_op := C_op ps; H := H ps; v := v ps; N := n;
  a_star := a_star ps; beta := beta ps; kappa := kappa ps; delta := delta ps
|}.

(** A parameter set with other overhead terms. *)
Definition with_overheads {T : Type} (ps : ParameterSet T) (c_op h w : T) : ParameterSet T := {|
  pi := pi ps; C_op := c_op; H := h; v := w; N := N ps;
  a_star := a_star ps; beta := beta ps; kappa := kappa ps; delta := delta ps
|}.

(** A parameter set with another duplication penalty. *)
Definition with_delta {T : Type} (ps : ParameterSet T) (dl : T) : ParameterSet T := {|
  pi := pi ps; C_op := C_op ps; H := H ps; v := v ps; N := N ps;
  a_star := a_star ps; beta := beta ps; kappa := kappa ps; delta := dl
|}.

(** A parameter set with another potential profit. *)
Definition with_pi {T : Type} (ps : ParameterSet T) (x : T) : ParameterSet T := {|
  pi := x; C_op := C_op ps; H := H ps; v := v ps; N := N ps;
  a_star := a_star ps; beta := beta ps; kappa := kappa ps; delta := delta ps
|}.

(** The degenerate input of the specification: no profit, no cost, no
    effort. *)
Definition degenerate (ps : ParameterSet R) : Prop :=
  (pi ps = 0 /\ C_op ps = 0 /\ H ps = 0 /\ v ps = 0 /\ a_star ps = 0)%R.

(** A degenerate input with duplication penalty [dl]. *)
Definition degenerate_ps (dl : R) : ParameterSet R := {|
  pi := 0%R; C_op := 0%R; H := 0%R; v := 0%R; N := 500%Z;
  a_star := 0%R; beta := 1%R; kappa := 1%R; delta := dl
|}.

(** ** Predicates the statements use *)

(** [m] is the least entry of [l]. *)
Definition is_min (m : R) (l : list R) : Prop :=
  In m l /\ forall y, In y l -> (m <= y)%R.

(** [m] is the greatest entry of [l]. *)
Definition is_max (m : R) (l : list R) : Prop :=
  In m l /\ forall y, In y l -> (y <= m)%R.

(** Every entry of a float array is below all later ones. *)
Fixpoint increasing (l : list float) : bool :=
  match l with
  | [] => true
  | x :: l' => forallb (PrimFloat.ltb x) l' && increasing l'
  end.

(** The magnitude of a binary64 value [m * 2^e] is the number of bits of
    [m] plus [e]: the value is below [2^K] in absolute value when its
    magnitude is at most [K]. *)
Definition mag_le (K : Z) (x : spec_float) : Prop :=
  match x with
  | S754_zero _ => True
  | S754_finite _ m e => (Zpos (digits2_pos m) + e <= K)%Z
  | _ => False
  end.

(** A finite nonzero value of magnitude at least [L], so at least [2^(L-1)]
    in absolute value. *)
Definition mag_ge (L : Z) (x : spec_float) : Prop :=
  match x with
  | S754_finite _ m e => (L <= Zpos (digits2_pos m) + e)%Z
  | _ => False
  end.

(** Finite binary64 values below [2^K] in absolute value. *)
Definition fin (K : Z) (x : float) : Prop := mag_le K (Prim2SF x).

(** [fin], decided. *)
Definition finb (K : Z) (x : float) : bool :=
  match Prim2SF x with
  | S754_zero _ => true
  | S754_finite _ m e => (Zpos (digits2_pos m) + e <=? K)%Z
  | _ => false
  end.

(** Zero or a positive finite value. *)
Definition sf_nonneg (s : spec_float) : bool :=
  match s with
  | S754_zero _ | S754_finite false _ _ => true
  | _ => false
  end.

(** [+0.0] or [-0.0]. *)
Definition zero_float (z : float) : Prop :=
  match Prim2SF z with S754_zero _ => True | _ => False end.

(** The degenerate input as binary64 values. *)
Definition float_degenerate (ps : ParameterSet float) : Prop :=
  pi ps = 0%float /\ C_op ps = 0%float /\ H ps = 0%float /\ v ps = 0%float
  /\ a_star ps = 0%float.

(** The value of a finite binary64 number, in units of [2^-1074]. *)
Definition Zval (x : spec_float) : Z :=
  match x with
  | S754_finite s m e => cond_Zopp s (Zpos m * 2 ^ (e + 1074))%Z
  | _ => 0%Z
  end.

(** Zero or finite. *)
Definition sf_finite (x : spec_float) : bool :=
  match x with
  | S754_zero _ | S754_finite _ _ _ => true
  | _ => false
  end.

(** The sign a rounding was asked for. *)
Definition sf_signed (sx : bool) (x : spec_float) : Prop :=
  match x with
  | S754_zero s | S754_finite s _ _ => s = sx
  | _ => False
  end.

(** Zero or positive. *)
Definition nonneg (x : float) : Prop := sf_nonneg (Prim2SF x) = true.

(** The float limits enclose [x]. *)
Definition encloses (lim : float * float) (x : float) : Prop :=
  PrimFloat.leb (fst lim) x = true /\ PrimFloat.leb x (snd lim) = true.

(** An infinity or a NaN. *)
Definition not_finite (x : float) : Prop :=
  match Prim2SF x with
  | S754_infinity _ | S754_nan => True
  | _ => False
  end.

(** A NaN. *)
Definition nan_float (x : float) : Prop := Prim2SF x = S754_nan.

(** Two finite values in order. *)
Definition ordered (K : Z) (a a' : float) : Prop :=
  fin K a /\ fin K a' /\ PrimFloat.leb a a' = true.

(** ** Rounding to the nearest, on integers *)

(** Where [A / W] lies between two integers. *)
Definition loc_of (A W : Z) : location :=
  if (A mod W =? 0)%Z then loc_Exact else loc_Inexact (2 * (A mod W) ?= W)%Z.

(** [A / W] rounded to the nearest integer, ties to even. *)
Definition rne (A W : Z) : Z := round_nearest_even (A / W) (loc_of A W).

(** The binary64 rounding of [A / W] units of [2^(-1074-c)], in units of
    [2^-1074]. *)
Definition round_units (A W c : Z) : Z :=
  let n := Z.max (Zdigits2 (A / W) - 53) c in
  (rne A (W * 2 ^ n) * 2 ^ (n - c))%Z.

(** The same for a signed numerator. *)
Definition round_signed (W c X : Z) : Z :=
  if (X <? 0)%Z then (- round_units (- X) W c)%Z else round_units X W c.

(** A shift record that stands for [A / W]. *)
Definition represents (mrs : shr_record) (A W : Z) : Prop :=
  shr_m mrs = (A / W)%Z /\ loc_of_shr_record mrs = loc_of A W.

(** ** Shape of the arrays *)

Section Shape.

Context {T : Type} {AT : Arith T}.

Lemma removelast_len (l : list T) : length (removelast l) = (length l - 1)%nat.
Proof.
  induction l as [|a [|b l] IH]; try reflexivity.
  change (S (length (removelast (b :: l))) = (length (a :: b :: l) - 1)%nat).
  rewrite IH. simpl. lia.
Qed.

Lemma removelast_nth (l : list T) (d : T) (i : nat) :
  (i < length l - 1)%nat -> nth i (removelast l) d = nth i l d.
Proof.
  revert i. induction l as [|a [|b l] IH]; intros i Hi; simpl in Hi; try lia.
  destruct i as [|i]; [reflexivity|].
  change (nth i (removelast (b :: l)) d = nth i (b :: l) d).
  apply IH. simpl. lia.
Qed.

Lemma set_last_length (l : list T) (x : T) : length (set_last l x) = length l.
Proof.
  destruct l as [|a l]; [reflexivity|].
  unfold set_last. rewrite length_app, removelast_len. simpl. lia.
Qed.

Lemma set_last_nth (l : list T) (x d : T) (i : nat) :
  (i < length l)%nat ->
  nth i (set_last l x) d = if (i =? length l - 1)%nat then x else nth i l d.
Proof.
  intros Hi. destruct l as [|a l]; [simpl in Hi; lia|].
  unfold set_last.
  pose proof (removelast_len (a :: l)) as Hl.
  destruct (Nat.eqb_spec i (length (a :: l) - 1)) as [->|Hne].
  - rewrite app_nth2 by lia. rewrite Hl, Nat.sub_diag. reflexivity.
  - rewrite app_nth1 by lia. apply removelast_nth. lia.
Qed.

Lemma arange_length (n : nat) : length (arange n) = n.
Proof. unfold arange. now rewrite length_map, length_seq. Qed.

Lemma arange_nth (n i : nat) (d : T) :
  (i < n)%nat -> nth i (arange n) d = of_int (Z.of_nat i).
Proof.
  intros Hi. unfold arange.
  rewrite (nth_indep _ d (of_int (Z.of_nat 0))) by now rewrite length_map, length_seq.
  rewrite (map_nth (fun k => of_int (Z.of_nat k))), seq_nth by assumption.
  reflexivity.
Qed.

Lemma linspace_length (a b : T) (n : nat) : length (linspace a b n) = n.
Proof.
  unfold linspace.
  destruct (1 <? n)%nat; [rewrite set_last_length|];
    destruct (0 <? n - 1)%nat; now rewrite !length_map, arange_length.
Qed.

Lemma linspace_nth (a b d : T) (n i : nat) :
  (1 < n)%nat -> (i < n)%nat ->
  nth i (linspace a b n) d =
  if (i =? n - 1)%nat then b
  else add (mul (of_int (Z.of_nat i)) (div (sub b a) (of_int (Z.of_nat (n - 1))))) a.
Proof.
  intros Hn Hi. unfold linspace.
  destruct (Nat.ltb_spec 1 n) as [_|]; [|lia].
  destruct (Nat.ltb_spec 0 (n - 1)) as [_|]; [|lia].
  rewrite set_last_nth by now rewrite !length_map, arange_length.
  rewrite !length_map, arange_length.
  destruct (i =? n - 1)%nat; [reflexivity|].
  set (g := fun k : T => add k a).
  set (h := fun k : T => mul k (div (sub b a) (of_int (Z.of_nat (n - 1))))).
  rewrite (nth_indep _ d (g (h d))) by now rewrite !length_map, arange_length.
  rewrite (map_nth g), (map_nth h), arange_nth by assumption.
  reflexivity.
Qed.

Lemma F_length : length (F (T := T)) = 200%nat.
Proof. apply linspace_length. Qed.

Lemma map2_length {A B C : Type} (f : A -> B -> C) (l : list A) (m : list B) :
  length l = length m -> length (map2 f l m) = length l.
Proof.
  revert m. induction l as [|x l IH]; intros [|y m] Hlen; simpl in *;
    try reflexivity; try discriminate.
  f_equal. apply IH. now injection Hlen.
Qed.

Lemma map2_nth {A B C : Type} (f : A -> B -> C) (l : list A) (m : list B)
      (i : nat) (da : A) (db : B) (dc : C) :
  (i < length l)%nat -> length l = length m ->
  nth i (map2 f l m) dc = f (nth i l da) (nth i m db).
Proof.
  revert m i. induction l as [|x l IH]; intros [|y m] [|i] Hi Hlen;
    simpl in *; try lia; try discriminate; try reflexivity.
  apply IH; [lia | now injection Hlen].
Qed.

Context {LT : Libm T}.
Variable ps : ParameterSet T.

Lemma P_base_length : length (P_base ps) = 200%nat.
Proof. unfold P_base. now rewrite length_map, F_length. Qed.

Lemma P_endh_length : length (P_endh ps) = 200%nat.
Proof. unfold P_endh. now rewrite length_map, F_length. Qed.

Lemma P_dup_length : length (P_dup ps) = 200%nat.
Proof.
  unfold P_dup. rewrite map2_length; rewrite P_endh_length; [reflexivity|].
  now rewrite F_length.
Qed.

Lemma P_base_nth (i : nat) (d : T) :
  (i < 200)%nat -> nth i (P_base ps) d = P_base_at ps (nth i F d).
Proof.
  intros Hi. unfold P_base.
  rewrite (nth_indep _ d (P_base_at ps d)) by now rewrite length_map, F_length.
  apply map_nth.
Qed.

Lemma P_endh_nth (i : nat) (d : T) :
  (i < 200)%nat -> nth i (P_endh ps) d = P_endh_at ps (nth i F d).
Proof.
  intros Hi. unfold P_endh.
  rewrite (nth_indep _ d (P_endh_at ps d)) by now rewrite length_map, F_length.
  apply map_nth.
Qed.

Lemma P_dup_nth (i : nat) (d : T) :
  (i < 200)%nat ->
  nth i (P_dup ps) d =
  sub (nth i (P_endh ps) d)
      (mul (mul (delta ps) (nth i F d)) (sub (of_int 1) (nth i F d))).
Proof.
  intros Hi. unfold P_dup.
  apply (map2_nth (fun e f => sub e (mul (mul (delta ps) f) (sub (of_int 1) f)))).
  - now rewrite P_endh_length.
  - now rewrite P_endh_length, F_length.
Qed.

End Shape.

(** ** The arrays are never empty: the limits are always computed *)

Section Returns.

Context {T : Type} {AT : Arith T} {LT : Libm T}.
Variable ps : ParameterSet T.

Lemma all_p_values_length : length (all_p_values ps) = 600%nat.
Proof.
  unfold all_p_values.
  now rewrite !length_app, P_base_length, P_endh_length, P_dup_length.
Qed.

Lemma set_ylim_Returned :
  exists p_min p_max,
    array_min (all_p_values ps) = Returned p_min
    /\ array_max (all_p_values ps) = Returned p_max
    /\ set_ylim ps =
       Returned (sub p_min (padding p_min p_max), add p_max (padding p_min p_max)).
Proof.
  unfold set_ylim. pose proof all_p_values_length as Hlen.
  destruct (all_p_values ps) as [|x l]; [discriminate Hlen|].
  exists (fold_left fmin l x), (fold_left fmax l x). repeat split.
Qed.

Lemma evaluate_Returned :
  exists lim,
    set_ylim ps = Returned lim
    /\ evaluate ps =
       Returned {| grid := F; base := P_base ps; endh := P_endh ps;
                   dup := P_dup ps; ylim := lim |}.
Proof.
  destruct set_ylim_Returned as (lo & hi & _ & _ & Hlim).
  eexists. split; [exact Hlim|]. unfold evaluate. now rewrite Hlim.
Qed.

End Returns.

(** ** Facts of the exact-arithmetic reading *)

Section Exact.

Local Open Scope R_scope.

Lemma F_nth_R (i : nat) :
  (i < 200)%nat -> nth i (F (T := R)) 0 = IZR (Z.of_nat i) / 199.
Proof.
  intros Hi. unfold F. rewrite linspace_nth by lia.
  change (200 - 1)%nat with 199%nat.
  destruct (Nat.eqb_spec i 199) as [->|_]; cbn [add mul div sub of_int R_arith].
  - change (Z.of_nat 199) with 199%Z. lra.
  - change (Z.of_nat 199) with 199%Z. lra.
Qed.

Lemma F_nth_bounds (i : nat) :
  (i < 200)%nat -> 0 <= nth i (F (T := R)) 0 <= 1.
Proof.
  intros Hi. rewrite F_nth_R by assumption.
  assert (0 <= IZR (Z.of_nat i) <= 199) by (split; apply IZR_le; lia).
  lra.
Qed.

Lemma F_nth_interior (i : nat) :
  (0 < i < 199)%nat -> 0 < nth i (F (T := R)) 0 < 1.
Proof.
  intros Hi. rewrite F_nth_R by lia.
  assert (0 < IZR (Z.of_nat i) < 199) by (split; apply IZR_lt; lia).
  lra.
Qed.

Lemma F_nth_lt (i j : nat) :
  (i < j < 200)%nat -> nth i (F (T := R)) 0 < nth j (F (T := R)) 0.
Proof.
  intros Hij. rewrite !F_nth_R by lia.
  assert (IZR (Z.of_nat i) < IZR (Z.of_nat j)) by (apply IZR_lt; lia).
  lra.
Qed.

(** [min()] and [max()] return an entry that bounds every entry. *)
Lemma fold_min_le (l : list R) (x : R) :
  fold_left Rmin l x <= x /\ forall y, In y l -> fold_left Rmin l x <= y.
Proof.
  revert x. induction l as [|a l IH]; intros x; simpl.
  - split; [lra | contradiction].
  - destruct (IH (Rmin x a)) as [H1 H2].
    pose proof (Rmin_l x a). pose proof (Rmin_r x a).
    split; [lra|]. intros y [<-|Hy]; [lra | now apply H2].
Qed.

Lemma fold_max_ge (l : list R) (x : R) :
  x <= fold_left Rmax l x /\ forall y, In y l -> y <= fold_left Rmax l x.
Proof.
  revert x. induction l as [|a l IH]; intros x; simpl.
  - split; [lra | contradiction].
  - destruct (IH (Rmax x a)) as [H1 H2].
    pose proof (Rmax_l x a). pose proof (Rmax_r x a).
    split; [lra|]. intros y [<-|Hy]; [lra | now apply H2].
Qed.

Lemma fold_min_In (l : list R) (x : R) : In (fold_left Rmin l x) (x :: l).
Proof.
  revert x. induction l as [|a l IH]; intros x; simpl; [now left|].
  destruct (IH (Rmin x a)) as [Heq|Hin]; [|now right; right].
  rewrite <- Heq. unfold Rmin. destruct (Rle_dec x a); [now left | now right; left].
Qed.

Lemma fold_max_In (l : list R) (x : R) : In (fold_left Rmax l x) (x :: l).
Proof.
  revert x. induction l as [|a l IH]; intros x; simpl; [now left|].
  destruct (IH (Rmax x a)) as [Heq|Hin]; [|now right; right].
  rewrite <- Heq. unfold Rmax. destruct (Rle_dec x a); [now right; left | now left].
Qed.

Lemma array_min_is_min (l : list R) (m : R) :
  array_min l = Returned m -> is_min m l.
Proof.
  destruct l as [|x l]; simpl; intros Hm; [discriminate|].
  injection Hm as <-. split; [apply fold_min_In|].
  destruct (fold_min_le l x) as [H1 H2].
  intros y [<-|Hy]; [exact H1 | now apply H2].
Qed.

Lemma array_max_is_max (l : list R) (m : R) :
  array_max l = Returned m -> is_max m l.
Proof.
  destruct l as [|x l]; simpl; intros Hm; [discriminate|].
  injection Hm as <-. split; [apply fold_max_In|].
  destruct (fold_max_ge l x) as [H1 H2].
  intros y [<-|Hy]; [exact H1 | now apply H2].
Qed.

End Exact.

Lemma defaults_valid : valid defaults.
Proof. unfold valid; cbn; repeat split; try lra; lia. Qed.

Lemma degenerate_ps_valid (dl : R) : (0 <= dl <= 1)%R -> valid (degenerate_ps dl).
Proof. intros Hd. unfold valid; cbn; repeat split; try lra; lia. Qed.

Lemma degenerate_ps_degenerate (dl : R) : degenerate (degenerate_ps dl).
Proof. unfold degenerate; cbn; repeat split. Qed.

Lemma with_delta_valid (ps : ParameterSet R) (dl : R) :
  valid ps -> (0 <= dl <= 1)%R -> valid (with_delta ps dl).
Proof.
  unfold valid. cbn [with_delta pi C_op H v N a_star beta kappa delta].
  intros (Hr & Hn & Ha & Hb & Hk & _) Hd. repeat split; tauto.
Qed.

(** ** Closed forms in exact arithmetic *)

Section ClosedForms.

Local Open Scope R_scope.
Variable ps : ParameterSet R.

Lemma franchised_profit_eq :
  franchised_profit ps
  = (1 - exp (- beta ps * a_star ps)) * pi ps - 0.5 * kappa ps * a_star ps ^ 2.
Proof. reflexivity. Qed.

Lemma P_base_closed (i : nat) :
  (i < 200)%nat ->
  nth i (P_base ps) 0 =
  (1 - nth i F 0) * (pi ps - C_op ps) + nth i F 0 * franchised_profit ps.
Proof. intros Hi. now rewrite P_base_nth. Qed.

Lemma P_endh_closed (i : nat) :
  (i < 200)%nat ->
  nth i (P_endh ps) 0 =
  (1 - nth i F 0)
  * (pi ps - (H ps + v ps * (1 - nth i F 0) * IZR (N ps)) / IZR (N ps))
  + nth i F 0 * franchised_profit ps.
Proof. intros Hi. now rewrite P_endh_nth. Qed.

Lemma P_dup_closed (i : nat) :
  (i < 200)%nat ->
  nth i (P_dup ps) 0 =
  (1 - nth i F 0)
  * (pi ps - (H ps + v ps * (1 - nth i F 0) * IZR (N ps)) / IZR (N ps))
  + nth i F 0 * franchised_profit ps
  - delta ps * nth i F 0 * (1 - nth i F 0).
Proof. intros Hi. rewrite P_dup_nth by assumption. now rewrite P_endh_closed. Qed.

Lemma P_base_first : nth 0 (P_base ps) 0 = pi ps - C_op ps.
Proof. rewrite P_base_closed, F_nth_R by lia. cbn. lra. Qed.

Lemma P_endh_first :
  nth 0 (P_endh ps) 0 = pi ps - (H ps + v ps * IZR (N ps)) / IZR (N ps).
Proof.
  rewrite P_endh_closed, F_nth_R by lia.
  change (IZR (Z.of_nat 0)) with 0. unfold Rdiv. ring.
Qed.

Lemma P_base_last : nth 199 (P_base ps) 0 = franchised_profit ps.
Proof.
  rewrite P_base_closed, F_nth_R by lia.
  change (IZR (Z.of_nat 199)) with 199. lra.
Qed.

Lemma P_endh_last : nth 199 (P_endh ps) 0 = franchised_profit ps.
Proof.
  rewrite P_endh_closed, F_nth_R by lia.
  change (IZR (Z.of_nat 199)) with 199.
  replace (199 / 199) with 1 by lra. ring.
Qed.

End ClosedForms.

(** ** The penalty term on the grid *)

Lemma penalty_nonneg (dl : R) (i : nat) :
  (0 <= dl)%R -> (i < 200)%nat ->
  (0 <= dl * nth i F 0 * (1 - nth i F 0))%R.
Proof.
  intros Hd Hi. pose proof (F_nth_bounds Hi) as [H0 H1].
  rewrite Rmult_assoc. apply Rmult_le_pos; [exact Hd|].
  apply Rmult_le_pos; lra.
Qed.

Lemma penalty_pos (dl : R) (i : nat) :
  (0 < dl)%R -> (0 < i < 199)%nat ->
  (0 < dl * nth i F 0 * (1 - nth i F 0))%R.
Proof.
  intros Hd Hi. pose proof (F_nth_interior Hi) as [H0 H1].
  rewrite Rmult_assoc. apply Rmult_lt_0_compat; [exact Hd|].
  apply Rmult_lt_0_compat; lra.
Qed.

Lemma penalty_endpoints (dl : R) (i : nat) :
  i = 0%nat \/ i = 199%nat -> (dl * nth i F 0 * (1 - nth i F 0) = 0)%R.
Proof.
  intros [-> | ->]; rewrite F_nth_R by lia.
  - change (IZR (Z.of_nat 0)) with 0%R. lra.
  - change (IZR (Z.of_nat 199)) with 199%R. lra.
Qed.

(** ** Entries of the concatenated curves *)

Lemma curve_values_In {T : Type} {AT : Arith T} {LT : Libm T}
      (ps : ParameterSet T) (i : nat) (d : T) :
  (i < 200)%nat ->
  In (nth i (P_base ps) d) (all_p_values ps)
  /\ In (nth i (P_endh ps) d) (all_p_values ps)
  /\ In (nth i (P_dup ps) d) (all_p_values ps).
Proof.
  intros Hi. unfold all_p_values. rewrite !in_app_iff.
  split; [left; apply nth_In; now rewrite P_base_length|].
  split; right; [left; apply nth_In; now rewrite P_endh_length|].
  right; apply nth_In; now rewrite P_dup_length.
Qed.

Lemma In_all_p_values (ps : ParameterSet R) (x : R) :
  In x (all_p_values ps) ->
  exists i : nat, (i < 200)%nat
    /\ (x = nth i (P_base ps) 0%R \/ x = nth i (P_endh ps) 0%R
        \/ x = nth i (P_dup ps) 0%R).
Proof.
  unfold all_p_values. rewrite !in_app_iff.
  intros [Hin | [Hin | Hin]];
    destruct (In_nth _ _ 0%R Hin) as (i & Hi & Hx); exists i.
  - rewrite P_base_length in Hi. split; [exact Hi | now left].
  - rewrite P_endh_length in Hi. split; [exact Hi | now right; left].
  - rewrite P_dup_length in Hi. split; [exact Hi | now right; right].
Qed.

Lemma degenerate_curves (ps : ParameterSet R) (i : nat) :
  degenerate ps -> (i < 200)%nat ->
  (nth i (P_base ps) 0 = 0
   /\ nth i (P_endh ps) 0 = 0
   /\ nth i (P_dup ps) 0 = - (delta ps * nth i F 0 * (1 - nth i F 0)))%R.
Proof.
  intros (Hpi & Hc & Hh & Hv & Ha) Hi.
  assert (Hf : franchised_profit ps = 0%R).
  { rewrite franchised_profit_eq, Hpi, Ha.
    replace (- beta ps * 0)%R with 0%R by ring. rewrite exp_0. ring. }
  assert (He : nth i (P_endh ps) 0%R = 0%R).
  { rewrite P_endh_closed by assumption. rewrite Hf, Hpi, Hh, Hv.
    unfold Rdiv. ring. }
  split; [rewrite P_base_closed by assumption; rewrite Hf, Hpi, Hc; ring|].
  split; [exact He|].
  rewrite P_dup_nth by assumption. rewrite He. cbn [sub mul of_int R_arith]. ring.
Qed.

(** ** Binary64: the grid and the zero penalty *)

Lemma increasing_nth (l : list float) :
  increasing l = true ->
  forall i j : nat, (i < j < length l)%nat ->
    PrimFloat.ltb (nth i l 0%float) (nth j l 0%float) = true.
Proof.
  induction l as [|x l IH]; intros Hinc i j Hij; [simpl in Hij; lia|].
  simpl in Hinc. apply andb_prop in Hinc as [Hx Hl].
  destruct j as [|j]; [lia|]. destruct i as [|i].
  - simpl. rewrite forallb_forall in Hx. apply Hx, nth_In. simpl in Hij. lia.
  - simpl. apply IH; [exact Hl | simpl in Hij; lia].
Qed.

Lemma float_sub_0_r (x : float) : PrimFloat.sub x 0%float = x.
Proof.
  apply Prim2SF_inj. rewrite sub_spec.
  change (Prim2SF 0%float) with (S754_zero false).
  destruct (Prim2SF x) as [[|]|[|]| |s m e]; reflexivity.
Qed.

(** With [delta = 0.0] the penalty [delta * F * (1 - F)] is [+0.0] at every
    entry of the binary64 grid. *)
Lemma float_penalty_0 :
  map (fun f : float => mul (mul 0%float f) (sub (of_int 1) f)) F
  = repeat 0%float 200.
Proof. vm_compute. reflexivity. Qed.

Lemma float_penalty_0_nth (i : nat) :
  (i < 200)%nat ->
  mul (mul 0%float (nth i F 0%float)) (sub (of_int 1) (nth i F 0%float)) = 0%float.
Proof.
  intros Hi.
  set (pen := fun f : float => mul (mul 0%float f) (sub (of_int 1) f)).
  change (pen (nth i F 0%float) = 0%float).
  rewrite <- (map_nth pen).
  rewrite (nth_indep _ (pen 0%float) 0%float) by now rewrite length_map, F_length.
  unfold pen. rewrite float_penalty_0. apply nth_repeat.
Qed.

Lemma P_dup_eq_P_endh {T : Type} {AT : Arith T} {LT : Libm T} (ps : ParameterSet T) :
  (forall (i : nat) (d : T), (i < 200)%nat ->
     sub (nth i (P_endh ps) d)
         (mul (mul (delta ps) (nth i F d)) (sub (of_int 1) (nth i F d)))
     = nth i (P_endh ps) d) ->
  P_dup ps = P_endh ps.
Proof.
  intros Hpen. apply nth_ext with (d := of_int 0) (d' := of_int 0).
  - now rewrite P_dup_length, P_endh_length.
  - intros i Hi. rewrite P_dup_length in Hi.
    rewrite P_dup_nth by assumption. now apply Hpen.
Qed.

(** Line 47 divides by [N] without looking at it: in binary64, with the
    default overheads and [N = 0], the per-outlet cost [C_op_F(F)/N] is
    [+inf] at every grid entry. *)
Lemma per_outlet_cost_at_N_0 :
  map (fun f : float =>
         div (C_op_F (with_N float_defaults 0) f) (of_int (N (with_N float_defaults 0))))
      F
  = repeat infinity 200.
Proof. vm_compute. reflexivity. Qed.

(** ** Binary64: rounding keeps magnitudes bounded

    The operations of [SpecFloat] round a mantissa [m] at exponent [e] by
    shifting it right; the lemmas below bound the magnitude of the result
    by that of the operands, which is all that finiteness needs. *)

Section Magnitude.

Local Open Scope Z_scope.

Lemma digits2_pos_size (q : positive) : digits2_pos q = Pos.size q.
Proof. induction q as [q IH|q IH|]; simpl; now rewrite ?IH. Qed.

Lemma Zdigits2_log2 (m : Z) : 0 < m -> Zdigits2 m = Z.log2 m + 1.
Proof.
  destruct m as [|q|q]; try lia. intros _. simpl Zdigits2.
  rewrite digits2_pos_size. destruct q; simpl; lia.
Qed.

Lemma Zdigits2_nonneg (m : Z) : 0 <= Zdigits2 m.
Proof. destruct m; simpl; lia. Qed.

Lemma shr_1_m (mrs : shr_record) :
  0 <= shr_m mrs -> shr_m (shr_1 mrs) = Z.div2 (shr_m mrs).
Proof. destruct mrs as [[|[q|q|]|q] r s]; simpl; try lia; reflexivity. Qed.

Lemma iter_shr_1_m (q : positive) :
  forall mrs : shr_record, 0 <= shr_m mrs ->
    shr_m (iter_pos shr_1 q mrs) = Z.shiftr (shr_m mrs) (Zpos q).
Proof.
  induction q as [q IH|q IH|]; intros mrs Hm; simpl iter_pos.
  - assert (H1 : 0 <= shr_m (shr_1 mrs))
      by (rewrite shr_1_m by assumption; apply Z.div2_nonneg; assumption).
    assert (H2 : 0 <= shr_m (iter_pos shr_1 q (shr_1 mrs)))
      by (rewrite IH by assumption; apply Z.shiftr_nonneg; assumption).
    rewrite IH, IH, shr_1_m by assumption.
    rewrite Z.div2_spec, !Z.shiftr_shiftr by lia. f_equal. lia.
  - assert (H2 : 0 <= shr_m (iter_pos shr_1 q mrs))
      by (rewrite IH by assumption; apply Z.shiftr_nonneg; assumption).
    rewrite IH, IH by assumption. rewrite Z.shiftr_shiftr by lia. f_equal. lia.
  - rewrite shr_1_m by assumption. apply Z.div2_spec.
Qed.

Lemma Zdigits2_shiftr (m n : Z) :
  0 <= m -> 0 <= n -> Zdigits2 (Z.shiftr m n) = Z.max 0 (Zdigits2 m - n).
Proof.
  intros Hm Hn. destruct (Z.eq_dec m 0) as [->|Hm0].
  - rewrite Z.shiftr_0_l. simpl. lia.
  - assert (Hpos : 0 < m) by lia.
    rewrite (Zdigits2_log2 Hpos).
    destruct (Z.eq_dec (Z.shiftr m n) 0) as [Hz|Hnz].
    + rewrite Hz. simpl. apply Z.shiftr_eq_0_iff in Hz. lia.
    + assert (Hs : 0 < Z.shiftr m n).
      { pose proof (proj2 (Z.shiftr_nonneg m n) Hm). lia. }
      rewrite (Zdigits2_log2 Hs), Z.log2_shiftr by assumption.
      assert (~ Z.log2 m < n).
      { intros Hlt. apply Hnz. apply Z.shiftr_eq_0_iff. right. lia. }
      lia.
Qed.

Lemma fexp64_eq (z : Z) : fexp prec emax z = Z.max (z - 53) (-1074).
Proof. reflexivity. Qed.

Lemma shr_record_of_loc_m (m : Z) (l : location) : shr_m (shr_record_of_loc m l) = m.
Proof. destruct l as [|[| |]]; reflexivity. Qed.

Lemma shr_fexp_spec (m e : Z) (l : location) :
  0 <= m ->
  let n := Z.max 0 (Z.max (Zdigits2 m + e - 53) (-1074) - e) in
  shr_m (fst (shr_fexp prec emax m e l)) = Z.shiftr m n
  /\ snd (shr_fexp prec emax m e l) = e + n.
Proof.
  intros Hm n. unfold shr_fexp. rewrite fexp64_eq. unfold shr.
  fold (Z.max (Zdigits2 m + e - 53) (-1074) - e) in *.
  subst n.
  destruct (Z.max (Zdigits2 m + e - 53) (-1074) - e) as [|q|q] eqn:En; cbn [fst snd].
  - rewrite shr_record_of_loc_m. change (Z.max 0 0) with 0. rewrite Z.shiftr_0_r. lia.
  - rewrite iter_shr_1_m by (rewrite shr_record_of_loc_m; exact Hm).
    rewrite shr_record_of_loc_m.
    replace (Z.max 0 (Z.pos q)) with (Z.pos q) by lia. split; reflexivity.
  - rewrite shr_record_of_loc_m. replace (Z.max 0 (Z.neg q)) with 0 by lia.
    rewrite Z.shiftr_0_r. lia.
Qed.

Lemma round_nearest_even_bounds (m : Z) (l : location) :
  m <= round_nearest_even m l <= m + 1.
Proof.
  destruct l as [|[| |]]; simpl; try lia. destruct (Z.even m); lia.
Qed.

Lemma Zdigits2_succ_le (a b : Z) :
  0 <= a -> a <= b <= a + 1 -> Zdigits2 b <= Zdigits2 a + 1.
Proof.
  intros Ha Hb. destruct (Z.eq_dec a 0) as [->|Ha0].
  - assert (b = 0 \/ b = 1) as [-> | ->] by lia; simpl; lia.
  - rewrite !Zdigits2_log2 by lia.
    assert (Z.log2 b <= Z.log2 (Z.succ a)) by (apply Z.log2_le_mono; lia).
    pose proof (Z.log2_succ_le a). lia.
Qed.

Lemma binary_round_aux_mag (sx : bool) (mx ex : Z) (lx : location) (K : Z) :
  0 <= mx -> Zdigits2 mx + ex <= K -> -1074 <= K <= 971 ->
  mag_le (K + 1) (binary_round_aux prec emax sx mx ex lx).
Proof.
  intros Hm HK HKr. unfold binary_round_aux.
  destruct (shr_fexp_spec ex lx Hm) as [Hm1 He1].
  destruct (shr_fexp prec emax mx ex lx) as [mrs1 e1]. cbn [fst snd] in Hm1, He1.
  set (m2 := round_nearest_even (shr_m mrs1) (loc_of_shr_record mrs1)).
  pose proof (round_nearest_even_bounds (shr_m mrs1) (loc_of_shr_record mrs1)) as Hrne.
  fold m2 in Hrne.
  pose proof (Zdigits2_nonneg mx) as Hd0.
  assert (Hm1nn : 0 <= shr_m mrs1) by (rewrite Hm1; apply Z.shiftr_nonneg; exact Hm).
  assert (Hm2nn : 0 <= m2) by lia.
  pose proof (Zdigits2_succ_le Hm1nn Hrne) as Hd2.
  rewrite Hm1 in Hd2. rewrite Zdigits2_shiftr in Hd2 by lia.
  destruct (shr_fexp_spec e1 loc_Exact Hm2nn) as [Hm3 He3].
  destruct (shr_fexp prec emax m2 e1 loc_Exact) as [mrs3 e3]. cbn [fst snd] in Hm3, He3.
  pose proof (Zdigits2_shiftr (m := m2)
                (n := Z.max 0 (Z.max (Zdigits2 m2 + e1 - 53) (-1074) - e1)) Hm2nn) as Hd3.
  rewrite <- Hm3 in Hd3.
  destruct (shr_m mrs3) as [|q|q] eqn:Eq3.
  - exact I.
  - simpl Zdigits2 in Hd3.
    replace (emax - prec) with 971 by reflexivity.
    destruct (Z.leb_spec e3 971) as [Hle|Hgt].
    + unfold mag_le. lia.
    + exfalso. lia.
  - exfalso.
    pose proof (proj2 (Z.shiftr_nonneg m2
                  (Z.max 0 (Z.max (Zdigits2 m2 + e1 - 53) (-1074) - e1))) Hm2nn).
    lia.
Qed.

Lemma Zdigits2_abs (m : Z) : Zdigits2 (Z.abs m) = Zdigits2 m.
Proof. destruct m; reflexivity. Qed.

Lemma Zdigits2_le (a b : Z) : 0 <= a <= b -> Zdigits2 a <= Zdigits2 b.
Proof.
  intros Hab. destruct (Z.eq_dec a 0) as [->|Ha].
  - apply Zdigits2_nonneg.
  - rewrite !Zdigits2_log2 by lia.
    assert (Z.log2 a <= Z.log2 b) by (apply Z.log2_le_mono; lia). lia.
Qed.

Lemma Zdigits2_mul_pow2 (m k : Z) :
  0 < m -> 0 <= k -> Zdigits2 (m * 2 ^ k) = Zdigits2 m + k.
Proof.
  intros Hm Hk.
  assert (0 < m * 2 ^ k) by (apply Z.mul_pos_pos; [lia | apply Z.pow_pos_nonneg; lia]).
  rewrite !Zdigits2_log2 by assumption.
  rewrite Z.log2_mul_pow2 by lia. lia.
Qed.

Lemma Zdigits2_add (a b : Z) :
  Zdigits2 (a + b) <= Z.max (Zdigits2 a) (Zdigits2 b) + 1.
Proof.
  rewrite <- (Zdigits2_abs (a + b)), <- (Zdigits2_abs a), <- (Zdigits2_abs b).
  set (c := Z.max (Z.abs a) (Z.abs b)).
  assert (Hc : Z.abs (a + b) <= c * 2 ^ 1) by (change (2 ^ 1) with 2; lia).
  destruct (Z.eq_dec c 0) as [Hc0|Hc0].
  - assert (a = 0) by lia. assert (b = 0) by lia. subst. simpl. lia.
  - assert (Hle : Zdigits2 (Z.abs (a + b)) <= Zdigits2 (c * 2 ^ 1))
      by (apply Zdigits2_le; lia).
    rewrite Zdigits2_mul_pow2 in Hle by lia.
    assert (Zdigits2 c = Z.max (Zdigits2 (Z.abs a)) (Zdigits2 (Z.abs b))).
    { subst c. destruct (Z.max_spec (Z.abs a) (Z.abs b)) as [[Hlt ->]|[Hlt ->]].
      - assert (Zdigits2 (Z.abs a) <= Zdigits2 (Z.abs b)) by (apply Zdigits2_le; lia). lia.
      - assert (Zdigits2 (Z.abs b) <= Zdigits2 (Z.abs a)) by (apply Zdigits2_le; lia). lia. }
    lia.
Qed.

Lemma Zdigits2_mul (a b : positive) :
  Zdigits2 (Zpos (a * b)) <= Zdigits2 (Zpos a) + Zdigits2 (Zpos b).
Proof.
  rewrite Pos2Z.inj_mul. rewrite !Zdigits2_log2 by lia.
  pose proof (Z.log2_mul_above (Zpos a) (Zpos b)). lia.
Qed.

Lemma iter_xO_pow2 (m d : positive) :
  Zpos (Pos.iter xO m d) = Zpos m * 2 ^ Zpos d.
Proof.
  induction d as [|d IH] using Pos.peano_ind.
  - simpl. lia.
  - rewrite Pos.iter_succ, Pos2Z.inj_xO, IH, Pos2Z.inj_succ, Z.pow_succ_r by lia. lia.
Qed.

Lemma shl_align_spec (mx : positive) (ex ez : Z) :
  snd (shl_align mx ex ez) = Z.min ex ez
  /\ Zpos (fst (shl_align mx ex ez)) = Zpos mx * 2 ^ (ex - Z.min ex ez).
Proof.
  unfold shl_align. destruct (ez - ex) as [|d|d] eqn:Ed; cbn [fst snd].
  - replace (Z.min ex ez) with ex by lia. rewrite Z.sub_diag. simpl. lia.
  - replace (Z.min ex ez) with ex by lia. rewrite Z.sub_diag. simpl. lia.
  - replace (Z.min ex ez) with ez by lia. rewrite iter_xO_pow2.
    split; [reflexivity|]. f_equal. f_equal. lia.
Qed.

Lemma shl_align_digits (mx : positive) (ex ez : Z) :
  Zdigits2 (Zpos (fst (shl_align mx ex ez))) + snd (shl_align mx ex ez)
  = Zdigits2 (Zpos mx) + ex.
Proof.
  destruct (shl_align_spec mx ex ez) as [-> ->].
  rewrite Zdigits2_mul_pow2 by lia. lia.
Qed.

Lemma binary_round_mag (sx : bool) (q : positive) (e K : Z) :
  Zdigits2 (Zpos q) + e <= K -> -1074 <= K <= 971 ->
  mag_le (K + 1) (binary_round prec emax sx q e).
Proof.
  intros HK HKr. unfold binary_round.
  pose proof (shl_align_digits q e (fexp prec emax (Zpos (digits2_pos q) + e))) as Hd.
  destruct (shl_align q e (fexp prec emax (Zpos (digits2_pos q) + e))) as [mz ez].
  cbn [fst snd] in Hd.
  apply binary_round_aux_mag; lia.
Qed.

Lemma binary_normalize_mag (m e : Z) (s : bool) (K : Z) :
  Zdigits2 m + e <= K -> -1074 <= K <= 971 ->
  mag_le (K + 1) (binary_normalize prec emax m e s).
Proof.
  intros HK HKr. destruct m as [|q|q]; simpl binary_normalize.
  - exact I.
  - now apply binary_round_mag.
  - now apply binary_round_mag.
Qed.

Lemma binary_round_aux_mag_ge (sx : bool) (mx ex : Z) (lx : location) (L : Z) :
  0 < mx -> L <= Zdigits2 mx + ex -> -1021 <= Zdigits2 mx + ex <= 970 ->
  mag_ge L (binary_round_aux prec emax sx mx ex lx).
Proof.
  intros Hm HL Hr. unfold binary_round_aux.
  assert (Hm0 : 0 <= mx) by lia.
  destruct (shr_fexp_spec ex lx Hm0) as [Hm1 He1].
  destruct (shr_fexp prec emax mx ex lx) as [mrs1 e1]. cbn [fst snd] in Hm1, He1.
  set (m2 := round_nearest_even (shr_m mrs1) (loc_of_shr_record mrs1)).
  pose proof (round_nearest_even_bounds (shr_m mrs1) (loc_of_shr_record mrs1)) as Hrne.
  fold m2 in Hrne.
  assert (Hd1 : 1 <= Zdigits2 mx)
    by (rewrite Zdigits2_log2 by lia; pose proof (Z.log2_nonneg mx); lia).
  assert (Hm1nn : 0 <= shr_m mrs1) by (rewrite Hm1; apply Z.shiftr_nonneg; exact Hm0).
  assert (Hm2nn : 0 <= m2) by lia.
  pose proof (Zdigits2_succ_le Hm1nn Hrne) as Hd2.
  assert (Hd2' : Zdigits2 (shr_m mrs1) <= Zdigits2 m2) by (apply Zdigits2_le; lia).
  rewrite Hm1 in Hd2, Hd2'. rewrite Zdigits2_shiftr in Hd2, Hd2' by lia.
  destruct (shr_fexp_spec e1 loc_Exact Hm2nn) as [Hm3 He3].
  destruct (shr_fexp prec emax m2 e1 loc_Exact) as [mrs3 e3]. cbn [fst snd] in Hm3, He3.
  pose proof (Zdigits2_shiftr (m := m2)
                (n := Z.max 0 (Z.max (Zdigits2 m2 + e1 - 53) (-1074) - e1)) Hm2nn) as Hd3.
  rewrite <- Hm3 in Hd3.
  destruct (shr_m mrs3) as [|q|q] eqn:Eq3.
  - exfalso. simpl Zdigits2 in Hd3. lia.
  - simpl Zdigits2 in Hd3.
    replace (emax - prec) with 971 by reflexivity.
    destruct (Z.leb_spec e3 971) as [Hle|Hgt].
    + unfold mag_ge. lia.
    + exfalso. lia.
  - exfalso.
    pose proof (proj2 (Z.shiftr_nonneg m2
                  (Z.max 0 (Z.max (Zdigits2 m2 + e1 - 53) (-1074) - e1))) Hm2nn).
    lia.
Qed.

Lemma binary_round_mag_ge (sx : bool) (q : positive) (e L : Z) :
  L <= Zdigits2 (Zpos q) + e -> -1021 <= Zdigits2 (Zpos q) + e <= 970 ->
  mag_ge L (binary_round prec emax sx q e).
Proof.
  intros HL Hr. unfold binary_round.
  pose proof (shl_align_digits q e (fexp prec emax (Zpos (digits2_pos q) + e))) as Hd.
  destruct (shl_align q e (fexp prec emax (Zpos (digits2_pos q) + e))) as [mz ez].
  cbn [fst snd] in Hd.
  apply binary_round_aux_mag_ge; lia.
Qed.

Lemma mag_le_weaken (x : spec_float) (K K' : Z) :
  mag_le K x -> K <= K' -> mag_le K' x.
Proof. destruct x; simpl; try tauto. lia. Qed.

Lemma SFmul_mag (x y : spec_float) (Ka Kb : Z) :
  mag_le Ka x -> mag_le Kb y -> -1074 <= Ka + Kb <= 971 ->
  mag_le (Ka + Kb + 1) (SF64mul x y).
Proof.
  intros Hx Hy HK.
  destruct x as [sx|sx| |sx mx ex], y as [sy|sy| |sy my ey];
    try contradiction; try exact I.
  unfold SF64mul, SFmul. unfold mag_le in Hx, Hy.
  apply binary_round_aux_mag; try lia.
  pose proof (Zdigits2_mul mx my). simpl Zdigits2 in *. lia.
Qed.

Lemma cond_Zopp_digits (s : bool) (m : Z) : Zdigits2 (cond_Zopp s m) = Zdigits2 m.
Proof. destruct s, m; reflexivity. Qed.

Lemma SFadd_mag (x y : spec_float) (Ka Kb : Z) :
  mag_le Ka x -> mag_le Kb y -> -1074 <= Z.max Ka Kb + 1 <= 971 ->
  mag_le (Z.max Ka Kb + 2) (SF64add x y).
Proof.
  intros Hx Hy HK.
  destruct x as [sx|sx| |sx mx ex], y as [sy|sy| |sy my ey];
    try contradiction.
  - destruct sx, sy; exact I.
  - simpl. simpl in Hy. lia.
  - simpl. simpl in Hx. lia.
  - unfold SF64add, SFadd. unfold mag_le in Hx, Hy.
    change IntDef.Z.min with Z.min.
    replace (Z.max Ka Kb + 2) with (Z.max Ka Kb + 1 + 1) by lia.
    apply binary_normalize_mag; [|lia].
    pose proof (shl_align_digits mx ex (Z.min ex ey)) as Hdx.
    pose proof (shl_align_digits my ey (Z.min ex ey)) as Hdy.
    destruct (shl_align_spec mx ex (Z.min ex ey)) as [Hex _].
    destruct (shl_align_spec my ey (Z.min ex ey)) as [Hey _].
    rewrite Hex in Hdx. rewrite Hey in Hdy.
    pose proof (Zdigits2_add (cond_Zopp sx (Zpos (fst (shl_align mx ex (Z.min ex ey)))))
                             (cond_Zopp sy (Zpos (fst (shl_align my ey (Z.min ex ey)))))) as Hs.
    rewrite !cond_Zopp_digits in Hs. simpl Zdigits2 in *. lia.
Qed.

Lemma SFsub_mag (x y : spec_float) (Ka Kb : Z) :
  mag_le Ka x -> mag_le Kb y -> -1074 <= Z.max Ka Kb + 1 <= 971 ->
  mag_le (Z.max Ka Kb + 2) (SF64sub x y).
Proof.
  intros Hx Hy HK.
  destruct x as [sx|sx| |sx mx ex], y as [sy|sy| |sy my ey];
    try contradiction.
  - destruct sx, sy; exact I.
  - simpl. simpl in Hy. lia.
  - simpl. simpl in Hx. lia.
  - unfold SF64sub, SFsub. unfold mag_le in Hx, Hy.
    change IntDef.Z.min with Z.min.
    replace (Z.max Ka Kb + 2) with (Z.max Ka Kb + 1 + 1) by lia.
    apply binary_normalize_mag; [|lia].
    pose proof (shl_align_digits mx ex (Z.min ex ey)) as Hdx.
    pose proof (shl_align_digits my ey (Z.min ex ey)) as Hdy.
    destruct (shl_align_spec mx ex (Z.min ex ey)) as [Hex _].
    destruct (shl_align_spec my ey (Z.min ex ey)) as [Hey _].
    rewrite Hex in Hdx. rewrite Hey in Hdy.
    pose proof (Zdigits2_add (cond_Zopp sx (Zpos (fst (shl_align mx ex (Z.min ex ey)))))
                             (- cond_Zopp sy (Zpos (fst (shl_align my ey (Z.min ex ey)))))) as Hs.
    rewrite <- (Zdigits2_abs (- _)), Z.abs_opp, Zdigits2_abs in Hs.
    rewrite !cond_Zopp_digits in Hs. simpl Zdigits2 in *.
    rewrite Z.add_opp_r in Hs. lia.
Qed.

Lemma SFdiv_core_mag (mx : positive) (ex : Z) (my : positive) (ey : Z) :
  let '(q, e', _) := SFdiv_core_binary prec emax (Zpos mx) ex (Zpos my) ey in
  0 <= q
  /\ Zdigits2 q + e'
     <= Z.max (Zdigits2 (Zpos mx) + ex - (Zdigits2 (Zpos my) + ey) + 1) (-1074).
Proof.
  unfold SFdiv_core_binary. rewrite fexp64_eq.
  change IntDef.Z.min with Z.min.
  set (d1 := Zdigits2 (Zpos mx)). set (d2 := Zdigits2 (Zpos my)).
  set (e' := Z.min (Z.max (d1 + ex - (d2 + ey) - 53) (-1074)) (ex - ey)).
  set (s := ex - ey - e').
  assert (Hs : 0 <= s) by (subst s e'; lia).
  set (m' := match s with Zpos _ => Z.shiftl (Zpos mx) s | Z0 => Zpos mx | Zneg _ => 0 end).
  assert (Hm' : m' = Zpos mx * 2 ^ s).
  { subst m'. destruct s as [|q|q] eqn:Es; try lia.
    now rewrite Z.shiftl_mul_pow2 by lia. }
  assert (Hm'pos : 0 < m')
    by (rewrite Hm'; apply Z.mul_pos_pos; [lia | apply Z.pow_pos_nonneg; lia]).
  assert (Hdm' : Zdigits2 m' = d1 + s)
    by (rewrite Hm'; apply Zdigits2_mul_pow2; lia).
  destruct (Z.div_eucl m' (Zpos my)) as [q r] eqn:Ediv.
  assert (Hq : q = m' / Zpos my) by (unfold Z.div; now rewrite Ediv).
  assert (Hq0 : 0 <= q) by (rewrite Hq; apply Z.div_pos; lia).
  split; [exact Hq0|].
  destruct (Z.eq_dec q 0) as [->|Hqn].
  - simpl Zdigits2. subst e'. lia.
  - assert (Hle : Zpos my * q <= m') by (rewrite Hq; apply Z.mul_div_le; lia).
    assert (Hlog : Z.log2 (Zpos my * q) <= Z.log2 m') by (apply Z.log2_le_mono; exact Hle).
    pose proof (Z.log2_mul_below (Zpos my) q) as Hbelow.
    rewrite (Zdigits2_log2 (m := q)) by lia.
    rewrite (Zdigits2_log2 Hm'pos) in Hdm'.
    assert (Hd2 : d2 = Z.log2 (Zpos my) + 1) by (subst d2; apply Zdigits2_log2; lia).
    subst s. lia.
Qed.

Lemma SFdiv_mag (x y : spec_float) (Ka Lb : Z) :
  mag_le Ka x -> mag_ge Lb y -> -1074 <= Ka - Lb + 1 <= 971 ->
  mag_le (Ka - Lb + 2) (SF64div x y).
Proof.
  intros Hx Hy HK.
  destruct x as [sx|sx| |sx mx ex], y as [sy|sy| |sy my ey];
    try contradiction; try exact I.
  unfold SF64div, SFdiv. unfold mag_le in Hx. unfold mag_ge in Hy.
  pose proof (SFdiv_core_mag mx ex my ey) as Hcore.
  destruct (SFdiv_core_binary prec emax (Zpos mx) ex (Zpos my) ey) as [[q e'] l].
  destruct Hcore as [Hq Hd].
  replace (Ka - Lb + 2) with (Ka - Lb + 1 + 1) by lia.
  apply binary_round_aux_mag; try lia.
  simpl Zdigits2 in Hd. lia.
Qed.

Lemma fin_weaken (x : float) (K K' : Z) : fin K x -> K <= K' -> fin K' x.
Proof. apply mag_le_weaken. Qed.

Lemma fin_mul (x y : float) (Ka Kb : Z) :
  fin Ka x -> fin Kb y -> -1074 <= Ka + Kb <= 971 ->
  fin (Ka + Kb + 1) (x * y)%float.
Proof. unfold fin. rewrite mul_spec. apply SFmul_mag. Qed.

Lemma fin_add (x y : float) (Ka Kb : Z) :
  fin Ka x -> fin Kb y -> -1074 <= Z.max Ka Kb + 1 <= 971 ->
  fin (Z.max Ka Kb + 2) (x + y)%float.
Proof. unfold fin. rewrite add_spec. apply SFadd_mag. Qed.

Lemma fin_sub (x y : float) (Ka Kb : Z) :
  fin Ka x -> fin Kb y -> -1074 <= Z.max Ka Kb + 1 <= 971 ->
  fin (Z.max Ka Kb + 2) (x - y)%float.
Proof. unfold fin. rewrite sub_spec. apply SFsub_mag. Qed.

Lemma fin_div (x y : float) (Ka Lb : Z) :
  fin Ka x -> mag_ge Lb (Prim2SF y) -> -1074 <= Ka - Lb + 1 <= 971 ->
  fin (Ka - Lb + 2) (x / y)%float.
Proof. unfold fin. rewrite div_spec. apply SFdiv_mag. Qed.

Lemma fin_opp (x : float) (K : Z) : fin K x -> fin K (- x)%float.
Proof. unfold fin. rewrite opp_spec. destruct (Prim2SF x); simpl; tauto. Qed.

Lemma fin_is_finite (x : float) (K : Z) : fin K x -> is_finite x = true.
Proof.
  unfold fin, is_finite, is_nan, is_infinity.
  rewrite !FloatAxioms.eqb_spec, abs_spec.
  change (Prim2SF infinity) with (S754_infinity false).
  destruct (Prim2SF x) as [s|s| |s m e]; try contradiction; intros _.
  - reflexivity.
  - unfold SFeqb, SFabs, SFcompare.
    rewrite Z.compare_refl, Pos.compare_cont_refl. destruct s; reflexivity.
Qed.

(** The divisor [float(n)] of line 47 is a finite float of magnitude 1 to 15. *)
Lemma float_of_int_spec (n : Z) :
  0 <= n < 2 ^ 63 ->
  Prim2SF (float_of_int n) = binary_normalize prec emax n 0 false.
Proof.
  intros Hn. unfold float_of_int.
  assert (Hw : Uint63.wB = 2 ^ 63) by reflexivity.
  rewrite <- (Z.mod_small n Uint63.wB) by (rewrite Hw; lia).
  rewrite <- Uint63.of_Z_spec, <- of_uint63_spec, SF2Prim_Prim2SF.
  reflexivity.
Qed.

Lemma divisor_mag (n : Z) :
  1 <= n <= 10000 ->
  fin 15 (float_of_int n) /\ mag_ge 1 (Prim2SF (float_of_int n)).
Proof.
  intros Hn. unfold fin. rewrite float_of_int_spec by lia.
  destruct n as [|q|q]; try lia.
  assert (Hlog : 0 <= Z.log2 (Zpos q) <= 13).
  { split; [apply Z.log2_nonneg|].
    change 13 with (Z.log2 10000). apply Z.log2_le_mono. lia. }
  assert (Hd : Zdigits2 (Zpos q) = Z.log2 (Zpos q) + 1) by (apply Zdigits2_log2; lia).
  cbn [binary_normalize]. split.
  - replace 15 with (14 + 1) by lia. apply binary_round_mag; lia.
  - apply binary_round_mag_ge; lia.
Qed.

End Magnitude.

(** ** Binary64: values in the slider ranges *)

Lemma finb_spec (K : Z) (x : float) : finb K x = true -> fin K x.
Proof.
  unfold finb, fin. destruct (Prim2SF x); simpl; try discriminate; try tauto.
  apply Z.leb_le.
Qed.

Lemma fin_between (lo hi x : float) (K : Z) :
  sf_nonneg (Prim2SF lo) = true ->
  (match Prim2SF hi with
   | S754_finite false _ e => (53 + e <=? K)%Z
   | _ => false
   end) = true ->
  between lo hi x -> fin K x.
Proof.
  intros Hlo Hhi [Hl Hh]. unfold fin.
  rewrite leb_spec in Hl, Hh.
  pose proof (Prim2SF_valid x) as Hv.
  destruct (Prim2SF hi) as [| | |[|] mc ec]; try discriminate.
  apply Z.leb_le in Hhi.
  destruct (Prim2SF x) as [s|s| |s m e]; cbn [mag_le].
  - exact I.
  - destruct s; [|discriminate]. destruct (Prim2SF lo) as [| | |[|] ? ?]; discriminate.
  - destruct (Prim2SF lo) as [| | |[|] ? ?]; discriminate.
  - destruct s; [destruct (Prim2SF lo) as [| | |[|] ? ?]; discriminate|].
    unfold SFleb, SFcompare in Hh.
    simpl in Hv. unfold bounded, canonical_mantissa in Hv.
    apply andb_prop in Hv as [Hcan _]. apply Z.eqb_eq in Hcan.
    rewrite fexp64_eq in Hcan.
    destruct (Z.compare_spec e ec); try discriminate; lia.
Qed.

Ltac by_range := eapply fin_between; [ | | eassumption]; vm_compute; reflexivity.

Lemma mag_ge_nonzero (x : float) (L : Z) :
  mag_ge L (Prim2SF x) -> PrimFloat.eqb x 0 = false.
Proof.
  rewrite FloatAxioms.eqb_spec. change (Prim2SF 0%float) with (S754_zero false).
  destruct (Prim2SF x) as [| | |[|] m e]; try contradiction; reflexivity.
Qed.

Lemma grid_checked :
  forallb (fun f => finb 1 f && finb 1 (sub (of_int 1) f)) (F (T := float)) = true.
Proof. vm_compute. reflexivity. Qed.

Lemma grid_fin (f : float) :
  In f F -> fin 1 f /\ fin 1 (sub (of_int 1) f).
Proof.
  intros Hin. pose proof grid_checked as Hall. rewrite forallb_forall in Hall.
  apply Hall, andb_prop in Hin as [H1 H2]. split; now apply finb_spec.
Qed.

Ltac fin_go :=
  first
    [ eassumption
    | lazymatch goal with
      | |- fin _ (PrimFloat.add _ _) => eapply fin_add; [fin_go | fin_go | lia]
      | |- fin _ (PrimFloat.sub _ _) => eapply fin_sub; [fin_go | fin_go | lia]
      | |- fin _ (PrimFloat.mul _ _) => eapply fin_mul; [fin_go | fin_go | lia]
      | |- fin _ (PrimFloat.div _ _) => eapply fin_div; [fin_go | eassumption | lia]
      | |- fin _ (PrimFloat.opp _) => eapply fin_opp; fin_go
      end ].

Ltac fin_auto :=
  cbn [add sub mul div neg of_int half tenth float_arith];
  eapply fin_weaken; [fin_go | lia].

(** ** Binary64: every value of a pass is finite *)

Section Finite.

Variable LT : Libm float.
Variable ps : ParameterSet float.
Hypothesis Hvalid : float_valid ps.
Hypothesis Hexp : between 0 2 (np_exp (mul (neg (beta ps)) (a_star ps))).
Hypothesis Hpow : between 0 128 (pow2 (a_star ps)).

Lemma fin_c : fin 14 (c ps (a_star ps)).
Proof.
  destruct Hvalid as (Hpi & Hc & Hh & Hv & Hn & Ha & Hb & Hk & Hd).
  assert (fin 0 0.5%float) by (apply finb_spec; vm_compute; reflexivity).
  assert (fin 4 (kappa ps)) by by_range.
  assert (fin 8 (pow2 (a_star ps))) by by_range.
  unfold c. fin_auto.
Qed.

Lemma fin_p : fin 4 (p ps (a_star ps)).
Proof.
  assert (fin 1 (float_of_int 1)) by (apply finb_spec; vm_compute; reflexivity).
  assert (fin 2 (np_exp (mul (neg (beta ps)) (a_star ps)))) by by_range.
  unfold p. fin_auto.
Qed.

Lemma fin_franchised : fin 16 (franchised_profit ps).
Proof.
  destruct Hvalid as (Hpi & _).
  pose proof fin_c. pose proof fin_p.
  assert (fin 1 (pi ps)) by by_range.
  unfold franchised_profit. fin_auto.
Qed.

Lemma fin_C_op_F (f : float) : In f F -> fin 36 (C_op_F ps f).
Proof.
  intros Hf. destruct (grid_fin Hf) as [Hf1 Hf2].
  destruct Hvalid as (Hpi & Hc & Hh & Hv & Hn & Ha & Hb & Hk & Hd).
  destruct (divisor_mag Hn) as [HN _].
  assert (fin 26 (H ps)) by by_range.
  assert (fin 16 (v ps)) by by_range.
  unfold C_op_F. cbn [add sub mul div neg of_int float_arith] in *. fin_auto.
Qed.

Lemma fin_per_outlet (f : float) :
  In f F -> fin 37 (div (C_op_F ps f) (of_int (N ps))).
Proof.
  intros Hf. pose proof (fin_C_op_F Hf).
  destruct Hvalid as (_ & _ & _ & _ & Hn & _).
  destruct (divisor_mag Hn) as [_ HN].
  cbn [add sub mul div neg of_int float_arith] in *. fin_auto.
Qed.

Lemma fin_P_base_at (f : float) : In f F -> fin 20 (P_base_at ps f).
Proof.
  intros Hf. destruct (grid_fin Hf) as [Hf1 Hf2].
  destruct Hvalid as (Hpi & Hc & _).
  pose proof fin_franchised as HX. unfold franchised_profit in HX.
  assert (fin 1 (pi ps)) by by_range.
  assert (fin 1 (C_op ps)) by by_range.
  unfold P_base_at. cbn [add sub mul div neg of_int float_arith] in *. fin_auto.
Qed.

Lemma fin_P_endh_at (f : float) : In f F -> fin 43 (P_endh_at ps f).
Proof.
  intros Hf. destruct (grid_fin Hf) as [Hf1 Hf2].
  destruct Hvalid as (Hpi & _).
  pose proof fin_franchised as HX. unfold franchised_profit in HX.
  pose proof (fin_per_outlet Hf) as Hcost.
  assert (fin 1 (pi ps)) by by_range.
  unfold P_endh_at. cbn [add sub mul div neg of_int float_arith] in *. fin_auto.
Qed.

Lemma fin_P_dup_nth (i : nat) : (i < 200)%nat -> fin 45 (nth i (P_dup ps) 0%float).
Proof.
  intros Hi. rewrite P_dup_nth, P_endh_nth by assumption.
  assert (Hf : In (nth i F 0%float) F) by (apply nth_In; now rewrite F_length).
  destruct (grid_fin Hf) as [Hf1 Hf2].
  pose proof (fin_P_endh_at Hf) as He.
  destruct Hvalid as (_ & _ & _ & _ & _ & _ & _ & _ & Hd).
  assert (fin 1 (delta ps)) by by_range.
  cbn [add sub mul div neg of_int float_arith] in *. fin_auto.
Qed.

Lemma fin_all_p_values (x : float) : In x (all_p_values ps) -> fin 45 x.
Proof.
  unfold all_p_values. rewrite !in_app_iff. intros [Hin | [Hin | Hin]].
  - unfold P_base in Hin. apply in_map_iff in Hin as (f & <- & Hf).
    eapply fin_weaken; [now apply fin_P_base_at | lia].
  - unfold P_endh in Hin. apply in_map_iff in Hin as (f & <- & Hf).
    eapply fin_weaken; [now apply fin_P_endh_at | lia].
  - destruct (In_nth _ _ 0%float Hin) as (i & Hi & <-).
    rewrite P_dup_length in Hi. now apply fin_P_dup_nth.
Qed.

End Finite.

Lemma fold_float_min_In (l : list float) (x : float) :
  In (fold_left float_min l x) (x :: l).
Proof.
  revert x. induction l as [|a l IH]; intros x; simpl; [now left|].
  destruct (IH (float_min x a)) as [Heq|Hin]; [|now right; right].
  rewrite <- Heq. unfold float_min.
  destruct (PrimFloat.ltb x a || PrimFloat.is_nan x); [now left | now right; left].
Qed.

Lemma fold_float_max_In (l : list float) (x : float) :
  In (fold_left float_max l x) (x :: l).
Proof.
  revert x. induction l as [|a l IH]; intros x; simpl; [now left|].
  destruct (IH (float_max x a)) as [Heq|Hin]; [|now right; right].
  rewrite <- Heq. unfold float_max.
  destruct (PrimFloat.ltb a x || PrimFloat.is_nan x); [now left | now right; left].
Qed.

Lemma array_min_In (l : list float) (m : float) :
  array_min l = Returned m -> In m l.
Proof.
  destruct l as [|x l]; simpl; intros Hm; [discriminate|].
  injection Hm as <-. apply fold_float_min_In.
Qed.

Lemma array_max_In (l : list float) (m : float) :
  array_max l = Returned m -> In m l.
Proof.
  destruct l as [|x l]; simpl; intros Hm; [discriminate|].
  injection Hm as <-. apply fold_float_max_In.
Qed.

(** ** Binary64: products with one and with zero

    Multiplying by [1.0] rounds a mantissa that is already canonical, which
    gives it back; a zero operand makes the operations of [SpecFloat] return
    without rounding. *)

Section Exactness.

Local Open Scope Z_scope.

Lemma shr_1_even (m : Z) :
  0 <= m -> Z.even m = true ->
  shr_1 {| shr_m := m; shr_r := false; shr_s := false |}
  = {| shr_m := Z.div2 m; shr_r := false; shr_s := false |}.
Proof. destruct m as [|[q|q|]|q]; simpl; intros; try lia; try discriminate; reflexivity. Qed.

Lemma iter_shr_1_exact (q : positive) :
  forall M k : Z, 0 <= M -> Zpos q <= k ->
    iter_pos shr_1 q {| shr_m := M * 2 ^ k; shr_r := false; shr_s := false |}
    = {| shr_m := M * 2 ^ (k - Zpos q); shr_r := false; shr_s := false |}.
Proof.
  assert (Hstep : forall M k : Z, 0 <= M -> 1 <= k ->
            shr_1 {| shr_m := M * 2 ^ k; shr_r := false; shr_s := false |}
            = {| shr_m := M * 2 ^ (k - 1); shr_r := false; shr_s := false |}).
  { intros M k HM Hk.
    replace k with (Z.succ (k - 1)) at 1 by lia.
    rewrite Z.pow_succ_r by lia.
    replace (M * (2 * 2 ^ (k - 1))) with (2 * (M * 2 ^ (k - 1))) by ring.
    rewrite shr_1_even.
    - now rewrite Z.div2_div, Z.mul_comm, Z.div_mul by lia.
    - apply Z.mul_nonneg_nonneg; [lia|]. apply Z.mul_nonneg_nonneg; [lia|].
      apply Z.pow_nonneg; lia.
    - rewrite Z.even_mul. reflexivity. }
  induction q as [q IH|q IH|]; intros M k HM Hk; cbn [iter_pos].
  - rewrite Pos2Z.inj_xI in *. rewrite Hstep by lia.
    rewrite (IH M (k - 1)) by lia. rewrite (IH M (k - 1 - Z.pos q)) by lia.
    do 3 f_equal. lia.
  - rewrite Pos2Z.inj_xO in *.
    rewrite (IH M k) by lia. rewrite (IH M (k - Z.pos q)) by lia.
    do 3 f_equal. lia.
  - now apply Hstep.
Qed.

(** Rounding a canonical mantissa scaled by a power of two gives it back. *)
Lemma binary_round_aux_exact (s : bool) (m : positive) (e k : Z) :
  bounded prec emax m e = true -> 0 <= k ->
  binary_round_aux prec emax s (Zpos m * 2 ^ k) (e - k) loc_Exact
  = S754_finite s m e.
Proof.
  intros Hb Hk. unfold bounded, canonical_mantissa in Hb.
  apply andb_prop in Hb as [Hcan He]. apply Z.eqb_eq in Hcan. apply Z.leb_le in He.
  rewrite fexp64_eq in Hcan. change (emax - prec) with 971 in He.
  unfold binary_round_aux, shr_fexp. rewrite !fexp64_eq.
  rewrite Zdigits2_mul_pow2 by lia.
  cbn [shr_record_of_loc]. simpl Zdigits2.
  replace (Z.max (Z.pos (digits2_pos m) + k + (e - k) - 53) (-1074) - (e - k))
    with k by lia.
  assert (Hshr : shr {| shr_m := Zpos m * 2 ^ k; shr_r := false; shr_s := false |} (e - k) k
                 = ({| shr_m := Zpos m; shr_r := false; shr_s := false |}, e)).
  { unfold shr. destruct k as [|q|q]; try lia.
    - rewrite Z.mul_1_r, Z.sub_0_r. reflexivity.
    - rewrite iter_shr_1_exact by lia. rewrite Z.sub_diag, Z.mul_1_r.
      f_equal. lia. }
  rewrite Hshr.
  cbn [shr_m loc_of_shr_record round_nearest_even shr_record_of_loc Zdigits2].
  rewrite ?fexp64_eq.
  replace (Z.max (Z.pos (digits2_pos m) + e - 53) (-1074) - e) with 0 by lia.
  cbn [shr shr_m]. change (emax - prec) with 971.
  destruct (Z.leb_spec e 971); [reflexivity | lia].
Qed.

Lemma float_mul_1_r (x : float) : PrimFloat.mul x 1%float = x.
Proof.
  apply Prim2SF_inj. rewrite mul_spec.
  change (Prim2SF 1%float) with (S754_finite false 4503599627370496 (-52)).
  pose proof (Prim2SF_valid x) as Hv.
  destruct (Prim2SF x) as [s|s| |s m e]; try (destruct s; reflexivity); [reflexivity|].
  unfold SF64mul, SFmul. simpl in Hv.
  rewrite Bool.xorb_false_r.
  replace (Z.pos (m * 4503599627370496)) with (Z.pos m * 2 ^ 52)
    by (rewrite Pos2Z.inj_mul; reflexivity).
  replace (e + -52) with (e - 52) by lia.
  apply binary_round_aux_exact; [exact Hv | lia].
Qed.

Lemma float_mul_1_l (x : float) : PrimFloat.mul 1%float x = x.
Proof.
  apply Prim2SF_inj. rewrite mul_spec.
  change (Prim2SF 1%float) with (S754_finite false 4503599627370496 (-52)).
  pose proof (Prim2SF_valid x) as Hv.
  destruct (Prim2SF x) as [s|s| |s m e]; try (destruct s; reflexivity); [reflexivity|].
  unfold SF64mul, SFmul. simpl in Hv.
  rewrite Bool.xorb_false_l.
  replace (Z.pos (4503599627370496 * m)) with (Z.pos m * 2 ^ 52)
    by (rewrite Pos2Z.inj_mul, Z.mul_comm; reflexivity).
  replace (-52 + e) with (e - 52) by lia.
  apply binary_round_aux_exact; [exact Hv | lia].
Qed.

Lemma zero_mul_l (x z : float) (K : Z) :
  fin K x -> zero_float z -> zero_float (PrimFloat.mul z x).
Proof.
  unfold fin, zero_float. rewrite mul_spec.
  destruct (Prim2SF x), (Prim2SF z); simpl; tauto.
Qed.

Lemma zero_mul_r (x z : float) (K : Z) :
  fin K x -> zero_float z -> zero_float (PrimFloat.mul x z).
Proof.
  unfold fin, zero_float. rewrite mul_spec.
  destruct (Prim2SF x), (Prim2SF z); simpl; tauto.
Qed.

Lemma SFeqb_refl_finite (x : spec_float) (K : Z) : mag_le K x -> SFeqb x x = true.
Proof.
  destruct x as [s|s| |s m e]; simpl; try tauto; intros _.
  unfold SFeqb, SFcompare. rewrite Z.compare_refl, Pos.compare_cont_refl.
  destruct s; reflexivity.
Qed.

Lemma eqb_add_zero_r (x z : float) (K : Z) :
  fin K x -> zero_float z -> PrimFloat.eqb (PrimFloat.add x z) x = true.
Proof.
  unfold fin, zero_float. rewrite FloatAxioms.eqb_spec, add_spec.
  destruct (Prim2SF z) as [sz| | |]; try tauto. intros Hx _.
  destruct (Prim2SF x) as [s|s| |s m e] eqn:Ex; try contradiction.
  - destruct s, sz; reflexivity.
  - unfold SF64add, SFadd. now apply SFeqb_refl_finite with (K := K).
Qed.

Lemma eqb_add_zero_l (x z : float) (K : Z) :
  fin K x -> zero_float z -> PrimFloat.eqb (PrimFloat.add z x) x = true.
Proof.
  unfold fin, zero_float. rewrite FloatAxioms.eqb_spec, add_spec.
  destruct (Prim2SF z) as [sz| | |]; try tauto. intros Hx _.
  destruct (Prim2SF x) as [s|s| |s m e] eqn:Ex; try contradiction.
  - destruct s, sz; reflexivity.
  - unfold SF64add, SFadd. now apply SFeqb_refl_finite with (K := K).
Qed.

Lemma F_first_float : nth 0 (F (T := float)) 0%float = 0%float.
Proof. vm_compute. reflexivity. Qed.

Lemma F_last_float : nth 199 (F (T := float)) 0%float = 1%float.
Proof. vm_compute. reflexivity. Qed.

Section Endpoints.

Variable LT : Libm float.
Variable ps : ParameterSet float.
Hypothesis Hvalid : float_valid ps.
Hypothesis Hexp : between 0 2 (np_exp (mul (neg (beta ps)) (a_star ps))).
Hypothesis Hpow : between 0 128 (pow2 (a_star ps)).

Lemma In_F_first : In 0%float (F (T := float)).
Proof. rewrite <- F_first_float. apply nth_In. rewrite F_length. lia. Qed.

Lemma In_F_last : In 1%float (F (T := float)).
Proof. rewrite <- F_last_float. apply nth_In. rewrite F_length. lia. Qed.

Lemma P_base_first_float :
  PrimFloat.eqb (nth 0 (P_base ps) 0%float) (sub (pi ps) (C_op ps)) = true.
Proof.
  rewrite P_base_nth, F_first_float by lia. unfold P_base_at.
  fold (franchised_profit ps).
  cbn [add sub mul of_int float_arith].
  change (PrimFloat.sub (float_of_int 1) 0) with 1%float.
  rewrite float_mul_1_l.
  destruct Hvalid as (Hpi & Hc & _).
  assert (fin 1 (pi ps)) by by_range.
  assert (fin 1 (C_op ps)) by by_range.
  eapply eqb_add_zero_r.
  - fin_go.
  - eapply zero_mul_l; [eapply fin_franchised; eassumption | exact I].
Qed.

Lemma P_endh_first_float :
  PrimFloat.eqb
    (nth 0 (P_endh ps) 0%float)
    (sub (pi ps)
         (div (add (H ps) (mul (v ps) (of_int (N ps)))) (of_int (N ps))))
  = true.
Proof.
  rewrite P_endh_nth, F_first_float by lia.
  pose proof (fin_per_outlet Hvalid In_F_first) as Hcost.
  unfold P_endh_at, C_op_F in *. fold (franchised_profit ps).
  cbn [add sub mul div of_int float_arith] in *.
  change (PrimFloat.sub (float_of_int 1) 0) with 1%float in *.
  rewrite float_mul_1_l. rewrite float_mul_1_r in *.
  destruct Hvalid as (Hpi & _).
  assert (fin 1 (pi ps)) by by_range.
  eapply eqb_add_zero_r.
  - fin_go.
  - eapply zero_mul_l; [eapply fin_franchised; eassumption | exact I].
Qed.

Lemma P_base_last_float :
  PrimFloat.eqb (nth 199 (P_base ps) 0%float) (franchised_profit ps) = true.
Proof.
  rewrite P_base_nth, F_last_float by lia. unfold P_base_at.
  fold (franchised_profit ps).
  cbn [add sub mul of_int float_arith].
  change (PrimFloat.sub (float_of_int 1) 1) with 0%float.
  rewrite float_mul_1_l.
  destruct Hvalid as (Hpi & Hc & _).
  assert (fin 1 (pi ps)) by by_range.
  assert (fin 1 (C_op ps)) by by_range.
  eapply eqb_add_zero_l.
  - eapply fin_franchised; eassumption.
  - eapply zero_mul_l; [fin_go | exact I].
Qed.

Lemma P_endh_last_float :
  PrimFloat.eqb (nth 199 (P_endh ps) 0%float) (franchised_profit ps) = true.
Proof.
  rewrite P_endh_nth, F_last_float by lia.
  pose proof (fin_per_outlet Hvalid In_F_last) as Hcost.
  unfold P_endh_at. fold (franchised_profit ps).
  cbn [add sub mul div of_int float_arith] in *.
  change (PrimFloat.sub (float_of_int 1) 1) with 0%float.
  rewrite float_mul_1_l.
  destruct Hvalid as (Hpi & _).
  assert (fin 1 (pi ps)) by by_range.
  eapply eqb_add_zero_l.
  - eapply fin_franchised; eassumption.
  - eapply zero_mul_l; [fin_go | exact I].
Qed.

End Endpoints.

Lemma zero_float_eqb (z : float) : zero_float z -> PrimFloat.eqb z 0 = true.
Proof.
  unfold zero_float. rewrite FloatAxioms.eqb_spec.
  change (Prim2SF 0%float) with (S754_zero false).
  destruct (Prim2SF z); simpl; tauto.
Qed.

Lemma zero_float_fin (z : float) (K : Z) : zero_float z -> fin K z.
Proof. unfold zero_float, fin. destruct (Prim2SF z); simpl; tauto. Qed.

Lemma zero_add (a b : float) :
  zero_float a -> zero_float b -> zero_float (PrimFloat.add a b).
Proof.
  unfold zero_float. rewrite add_spec.
  destruct (Prim2SF a) as [[|]| | |], (Prim2SF b) as [[|]| | |]; simpl; tauto.
Qed.

Lemma zero_sub (a b : float) :
  zero_float a -> zero_float b -> zero_float (PrimFloat.sub a b).
Proof.
  unfold zero_float. rewrite sub_spec.
  destruct (Prim2SF a) as [[|]| | |], (Prim2SF b) as [[|]| | |]; simpl; tauto.
Qed.

Lemma zero_div (z y : float) (L : Z) :
  zero_float z -> mag_ge L (Prim2SF y) -> zero_float (PrimFloat.div z y).
Proof.
  unfold zero_float. rewrite div_spec.
  destruct (Prim2SF z), (Prim2SF y); simpl; tauto.
Qed.

Lemma eqb_zero_sub (z y : float) (K : Z) :
  zero_float z -> fin K y ->
  PrimFloat.eqb (PrimFloat.sub z y) (PrimFloat.opp y) = true.
Proof.
  unfold zero_float, fin. rewrite FloatAxioms.eqb_spec, sub_spec, opp_spec.
  destruct (Prim2SF z) as [sz| | |]; try tauto. intros _.
  destruct (Prim2SF y) as [s|s| |s m e]; try contradiction; intros Hy.
  - destruct sz, s; reflexivity.
  - unfold SF64sub, SFsub, SFopp.
    apply SFeqb_refl_finite with (K := K). exact Hy.
Qed.

Section Degenerate.

Variable LT : Libm float.
Variable ps : ParameterSet float.
Hypothesis Hvalid : float_valid ps.
Hypothesis Hdeg : float_degenerate ps.
Hypothesis Hexp : np_exp (mul (neg (beta ps)) 0%float) = 1%float.
Hypothesis Hpow : pow2 0%float = 0%float.

Lemma zero_franchised : zero_float (franchised_profit ps).
Proof.
  destruct Hdeg as (Hpi & _ & _ & _ & Ha).
  destruct Hvalid as (_ & _ & _ & _ & _ & _ & _ & Hk & _).
  assert (Fk : fin 4 (kappa ps)) by by_range.
  assert (Fh : fin 0 0.5%float) by (apply finb_spec; vm_compute; reflexivity).
  unfold franchised_profit, p, c. rewrite Hpi, Ha, Hexp, Hpow.
  cbn [add sub mul of_int half float_arith].
  change (PrimFloat.sub (float_of_int 1) 1) with 0%float.
  apply zero_sub.
  - exact I.
  - eapply zero_mul_r; [fin_go | exact I].
Qed.

Lemma zero_P_base_at (f : float) : In f F -> zero_float (P_base_at ps f).
Proof.
  intros Hf. destruct (grid_fin Hf) as [Hf1 Hf2].
  pose proof zero_franchised as HX. unfold franchised_profit in HX.
  destruct Hdeg as (Hpi & Hc & _).
  unfold P_base_at. rewrite Hc. rewrite Hpi in *.
  cbn [add sub mul of_int float_arith] in *.
  apply zero_add.
  - eapply zero_mul_r; [exact Hf2 | exact I].
  - eapply zero_mul_r; [exact Hf1 | exact HX].
Qed.

Lemma zero_P_endh_at (f : float) : In f F -> zero_float (P_endh_at ps f).
Proof.
  intros Hf. destruct (grid_fin Hf) as [Hf1 Hf2].
  pose proof zero_franchised as HX. unfold franchised_profit in HX.
  destruct Hdeg as (Hpi & _ & Hh & Hv & _).
  destruct Hvalid as (_ & _ & _ & _ & Hn & _).
  destruct (divisor_mag Hn) as [HN1 HN2].
  unfold P_endh_at, C_op_F. rewrite Hh, Hv. rewrite Hpi in *.
  cbn [add sub mul div of_int float_arith] in *.
  apply zero_add.
  - eapply zero_mul_r; [exact Hf2|].
    apply zero_sub; [exact I|].
    eapply zero_div; [|exact HN2].
    apply zero_add; [exact I|].
    eapply zero_mul_l; [exact HN1|].
    eapply zero_mul_l; [exact Hf2 | exact I].
  - eapply zero_mul_r; [exact Hf1 | exact HX].
Qed.


Lemma float_degenerate_curves (i : nat) :
  (i < 200)%nat ->
  PrimFloat.eqb (nth i (P_base ps) 0%float) 0 = true
  /\ PrimFloat.eqb (nth i (P_endh ps) 0%float) 0 = true
  /\ PrimFloat.eqb
       (nth i (P_dup ps) 0%float)
       (neg (mul (mul (delta ps) (nth i F 0%float))
                 (sub (of_int 1) (nth i F 0%float))))
     = true.
Proof.
  intros Hi.
  assert (Hf : In (nth i F 0%float) F) by (apply nth_In; now rewrite F_length).
  destruct (grid_fin Hf) as [Hf1 Hf2].
  destruct Hvalid as (_ & _ & _ & _ & _ & _ & _ & _ & Hd).
  assert (Fd : fin 1 (delta ps)) by by_range.
  rewrite P_dup_nth, P_endh_nth, P_base_nth by assumption.
  split; [apply zero_float_eqb; now apply zero_P_base_at|].
  split; [apply zero_float_eqb; now apply zero_P_endh_at|].
  cbn [add sub mul neg of_int float_arith] in *.
  eapply eqb_zero_sub; [now apply zero_P_endh_at | fin_go].
Qed.

Lemma zero_all_p_values (x : float) :
  delta ps = 0%float -> In x (all_p_values ps) -> zero_float x.
Proof.
  intros Hd. unfold all_p_values. rewrite !in_app_iff. intros [Hin | [Hin | Hin]].
  - unfold P_base in Hin. apply in_map_iff in Hin as (f & <- & Hf).
    now apply zero_P_base_at.
  - unfold P_endh in Hin. apply in_map_iff in Hin as (f & <- & Hf).
    now apply zero_P_endh_at.
  - destruct (In_nth _ _ 0%float Hin) as (i & Hi & <-).
    rewrite P_dup_length in Hi.
    rewrite P_dup_nth, P_endh_nth, Hd, float_penalty_0_nth by assumption.
    apply zero_sub; [|exact I].
    apply zero_P_endh_at. apply nth_In. now rewrite F_length.
Qed.

Lemma float_degenerate_ylim :
  delta ps = 0%float ->
  exists lo hi : float,
    set_ylim ps = Returned (lo, hi)
    /\ PrimFloat.eqb lo 0 = true /\ PrimFloat.eqb hi 0 = true.
Proof.
  intros Hd.
  destruct (set_ylim_Returned ps) as (lo & hi & Hlo & Hhi & Hlim).
  apply array_min_In, (zero_all_p_values Hd) in Hlo.
  apply array_max_In, (zero_all_p_values Hd) in Hhi.
  assert (Ft : fin (-3) 0x1.999999999999ap-4%float)
    by (apply finb_spec; vm_compute; reflexivity).
  assert (Hpad : zero_float (padding lo hi)).
  { unfold padding. cbn [sub mul tenth float_arith].
    eapply zero_mul_l; [exact Ft|]. now apply zero_sub. }
  eexists _, _. split; [exact Hlim|].
  cbn [add sub float_arith].
  split; apply zero_float_eqb; [now apply zero_sub | now apply zero_add].
Qed.

End Degenerate.

End Exactness.

(** ** Binary64: order and monotone rounding

    A finite binary64 value is an integer number of units [2^-1074].  The
    float comparisons are the comparisons of these integers, and rounding a
    sum or a difference cannot cross a representable value, so subtracting a
    non-negative float never increases a value and adding one never
    decreases it. *)

Section FloatOrder.

Local Open Scope Z_scope.

Lemma Zdigits2_lt_pow2 (m : Z) : 0 <= m -> m < 2 ^ Zdigits2 m.
Proof.
  intros Hm. destruct (Z.eq_dec m 0) as [->|Hm0]; [simpl; lia|].
  rewrite Zdigits2_log2 by lia.
  pose proof (Z.log2_spec m). change (Z.log2 m + 1) with (Z.succ (Z.log2 m)). lia.
Qed.

Lemma Zdigits2_ge_pow2 (m : Z) : 0 < m -> 2 ^ (Zdigits2 m - 1) <= m.
Proof.
  intros Hm. rewrite Zdigits2_log2 by lia.
  pose proof (Z.log2_spec m). replace (Z.log2 m + 1 - 1) with (Z.log2 m) by lia. lia.
Qed.

(** What validity says of a mantissa and its exponent. *)
Lemma bounded_canonical (m : positive) (e : Z) :
  bounded prec emax m e = true ->
  -1074 <= e <= 971
  /\ Zdigits2 (Zpos m) <= 53
  /\ (-1074 < e -> Zdigits2 (Zpos m) = 53).
Proof.
  unfold bounded, canonical_mantissa. intros Hb.
  apply andb_prop in Hb as [Hcan He]. apply Z.eqb_eq in Hcan. apply Z.leb_le in He.
  rewrite fexp64_eq in Hcan. change (emax - prec) with 971 in He.
  simpl Zdigits2. lia.
Qed.

Lemma pow2_pos (k : Z) : 0 <= k -> 0 < 2 ^ k.
Proof. intros Hk. apply Z.pow_pos_nonneg; lia. Qed.

Lemma canonical_lt (m1 : positive) (e1 : Z) (m2 : positive) (e2 : Z) :
  bounded prec emax m1 e1 = true -> bounded prec emax m2 e2 = true ->
  e1 < e2 ->
  Zpos m1 * 2 ^ (e1 + 1074) < Zpos m2 * 2 ^ (e2 + 1074).
Proof.
  intros H1 H2 Hlt.
  destruct (bounded_canonical _ _ H1) as (He1 & Hd1 & _).
  destruct (bounded_canonical _ _ H2) as (He2 & _ & Hd2).
  specialize (Hd2 ltac:(lia)).
  assert (Hm1 : Zpos m1 < 2 ^ 53).
  { pose proof (Zdigits2_lt_pow2 (m := Zpos m1) ltac:(lia)).
    assert (2 ^ Zdigits2 (Zpos m1) <= 2 ^ 53) by (apply Z.pow_le_mono_r; lia). lia. }
  assert (Hm2 : 2 ^ 52 <= Zpos m2).
  { pose proof (Zdigits2_ge_pow2 (m := Zpos m2) ltac:(lia)) as Hge.
    rewrite Hd2 in Hge. exact Hge. }
  replace (e2 + 1074) with ((e1 + 1074) + 1 + (e2 - e1 - 1)) by lia.
  rewrite (Z.pow_add_r 2 (e1 + 1074 + 1) (e2 - e1 - 1)) by lia.
  rewrite (Z.pow_add_r 2 (e1 + 1074) 1) by lia.
  pose proof (pow2_pos (k := e1 + 1074) ltac:(lia)) as Hp1.
  pose proof (pow2_pos (k := e2 - e1 - 1) ltac:(lia)) as Hp2.
  change (2 ^ 1) with 2. change (2 ^ 53) with 9007199254740992 in Hm1.
  change (2 ^ 52) with 4503599627370496 in Hm2.
  set (A := 2 ^ (e1 + 1074)) in *. set (B := 2 ^ (e2 - e1 - 1)) in *.
  assert (S1 : Zpos m1 * A < 9007199254740992 * A)
    by (apply Z.mul_lt_mono_pos_r; lia).
  assert (S2 : 9007199254740992 * A <= Zpos m2 * (A * 2)).
  { replace (Zpos m2 * (A * 2)) with ((2 * Zpos m2) * A) by ring.
    apply Z.mul_le_mono_nonneg_r; lia. }
  assert (S3 : Zpos m2 * (A * 2) * 1 <= Zpos m2 * (A * 2) * B).
  { apply Z.mul_le_mono_nonneg_l; [|lia].
    apply Z.mul_nonneg_nonneg; lia. }
  replace (Zpos m2 * (A * 2 * B)) with (Zpos m2 * (A * 2) * B) by ring.
  lia.
Qed.

Lemma SFcompare_Zval (x y : spec_float) :
  valid_binary x = true -> valid_binary y = true ->
  sf_finite x = true -> sf_finite y = true ->
  SFcompare x y = Some (Zval x ?= Zval y).
Proof.
  intros Hx Hy Fx Fy.
  destruct x as [sx|sx| |sx mx ex], y as [sy|sy| |sy my ey]; try discriminate;
    cbn [Zval valid_binary sf_finite SFcompare] in *.
  - reflexivity.
  - assert (0 < Zpos my * 2 ^ (ey + 1074)).
    { destruct (bounded_canonical _ _ Hy) as (He & _).
      apply Z.mul_pos_pos; [lia | apply pow2_pos; lia]. }
    destruct sy; cbn [cond_Zopp]; f_equal; symmetry;
      [apply Z.compare_gt_iff | apply Z.compare_lt_iff]; lia.
  - assert (0 < Zpos mx * 2 ^ (ex + 1074)).
    { destruct (bounded_canonical _ _ Hx) as (He & _).
      apply Z.mul_pos_pos; [lia | apply pow2_pos; lia]. }
    destruct sx; cbn [cond_Zopp]; f_equal; symmetry;
      [apply Z.compare_lt_iff | apply Z.compare_gt_iff]; lia.
  - destruct (bounded_canonical _ _ Hx) as (Hex & _).
    destruct (bounded_canonical _ _ Hy) as (Hey & _).
    assert (Hpx : 0 < Zpos mx * 2 ^ (ex + 1074))
      by (apply Z.mul_pos_pos; [lia | apply pow2_pos; lia]).
    assert (Hpy : 0 < Zpos my * 2 ^ (ey + 1074))
      by (apply Z.mul_pos_pos; [lia | apply pow2_pos; lia]).
    assert (Hlex : (match ex ?= ey with
                    | Eq => Pos.compare_cont Eq mx my
                    | Lt => Lt
                    | Gt => Gt
                    end)
                   = (Zpos mx * 2 ^ (ex + 1074) ?= Zpos my * 2 ^ (ey + 1074))).
    { destruct (Z.compare_spec ex ey) as [Heq|Hlt|Hgt].
      - subst ey. change (Pos.compare_cont Eq mx my) with (Zpos mx ?= Zpos my).
        pose proof (pow2_pos (k := ex + 1074) ltac:(lia)) as Hp.
        destruct (Z.compare_spec (Zpos mx) (Zpos my)) as [E|L|G]; symmetry.
        + apply Z.compare_eq_iff. now rewrite E.
        + apply Z.compare_lt_iff. apply Z.mul_lt_mono_pos_r; assumption.
        + apply Z.compare_gt_iff. apply Z.mul_lt_mono_pos_r; assumption.
      - symmetry. apply Z.compare_lt_iff. now apply canonical_lt.
      - symmetry. apply Z.compare_gt_iff. now apply canonical_lt. }
    destruct sx, sy; cbn [cond_Zopp]; f_equal.
    + rewrite Z.compare_opp.
      rewrite (Z.compare_antisym (Zpos mx * 2 ^ (ex + 1074))), <- Hlex.
      destruct (ex ?= ey); reflexivity.
    + symmetry. apply Z.compare_lt_iff. lia.
    + symmetry. apply Z.compare_gt_iff. lia.
    + exact Hlex.
Qed.

Lemma shr_fexp_noshift (mx ex : Z) :
  Z.max (Zdigits2 mx + ex - 53) (-1074) - ex <= 0 ->
  shr_fexp prec emax mx ex loc_Exact
  = ({| shr_m := mx; shr_r := false; shr_s := false |}, ex).
Proof.
  intros Hn. unfold shr_fexp. rewrite fexp64_eq. unfold shr.
  destruct (Z.max (Zdigits2 mx + ex - 53) (-1074) - ex) as [|q|q]; try lia; reflexivity.
Qed.

Lemma binary_round_aux_val (sx : bool) (mx ex : Z) (lx : location) :
  0 <= mx -> -1074 <= ex -> Zdigits2 mx + ex <= 971 ->
  let e' := Z.max ex (Zdigits2 mx + ex - 53) in
  exists m2 : Z,
    Z.shiftr mx (e' - ex) <= m2 <= Z.shiftr mx (e' - ex) + 1
    /\ (e' = ex -> lx = loc_Exact -> m2 = mx)
    /\ Zval (binary_round_aux prec emax sx mx ex lx) = cond_Zopp sx (m2 * 2 ^ (e' + 1074))
    /\ sf_signed sx (binary_round_aux prec emax sx mx ex lx).
Proof.
  intros Hm Hex HK e'.
  pose proof (Zdigits2_nonneg mx) as Hd0.
  set (n := Z.max 0 (Z.max (Zdigits2 mx + ex - 53) (-1074) - ex)).
  assert (Hn : e' - ex = n) by (subst e' n; lia).
  assert (He' : e' = ex + n) by lia.
  unfold binary_round_aux.
  destruct (shr_fexp_spec ex lx Hm) as [Hm1 He1]. fold n in Hm1, He1.
  pose proof (shr_fexp_noshift mx ex) as Hexact.
  destruct (shr_fexp prec emax mx ex lx) as [mrs1 e1] eqn:E1.
  cbn [fst snd] in Hm1, He1.
  set (m2 := round_nearest_even (shr_m mrs1) (loc_of_shr_record mrs1)).
  pose proof (round_nearest_even_bounds (shr_m mrs1) (loc_of_shr_record mrs1)) as Hrne.
  fold m2 in Hrne.
  assert (Hm1nn : 0 <= shr_m mrs1) by (rewrite Hm1; apply Z.shiftr_nonneg; exact Hm).
  assert (Hm2nn : 0 <= m2) by lia.
  pose proof (Zdigits2_succ_le Hm1nn Hrne) as Hd2.
  assert (Hd1 : Zdigits2 (shr_m mrs1) = Z.max 0 (Zdigits2 mx - n))
    by (rewrite Hm1; apply Zdigits2_shiftr; subst n; lia).
  destruct (shr_fexp_spec e1 loc_Exact Hm2nn) as [Hm3 He3].
  set (n2 := Z.max 0 (Z.max (Zdigits2 m2 + e1 - 53) (-1074) - e1)) in *.
  destruct (shr_fexp prec emax m2 e1 loc_Exact) as [mrs3 e3].
  cbn [fst snd] in Hm3, He3.
  assert (Hval : shr_m mrs3 * 2 ^ (e3 + 1074) = m2 * 2 ^ (e1 + 1074)).
  { destruct (Z.eq_dec n2 0) as [Hz|Hnz].
    - rewrite Hm3, He3, Hz, Z.shiftr_0_r. f_equal. f_equal. lia.
    - assert (Hd54 : Zdigits2 m2 = 54) by (subst n2 n; lia).
      assert (Hn2 : n2 = 1) by (subst n2; lia).
      assert (Hlt : shr_m mrs1 < 2 ^ 53).
      { pose proof (Zdigits2_lt_pow2 Hm1nn) as Hlt.
        assert (2 ^ Zdigits2 (shr_m mrs1) <= 2 ^ 53)
          by (apply Z.pow_le_mono_r; subst n; lia).
        lia. }
      assert (Hge : 2 ^ 53 <= m2).
      { assert (Hpos : 0 < m2) by (destruct (Z.eq_dec m2 0) as [E|E]; [rewrite E in Hd54; discriminate | lia]).
        pose proof (Zdigits2_ge_pow2 Hpos) as Hge. rewrite Hd54 in Hge. exact Hge. }
      assert (Hm2 : m2 = 2 ^ 53) by lia.
      rewrite Hm3, He3, Hn2, Hm2.
      replace (e1 + 1 + 1074) with (Z.succ (e1 + 1074)) by lia.
      rewrite Z.pow_succ_r by lia.
      change (Z.shiftr (2 ^ 53) 1) with (2 ^ 52). change (2 ^ 53) with (2 * 2 ^ 52).
      ring. }
  exists m2. rewrite Hn. rewrite <- Hm1.
  split; [exact Hrne|].
  split.
  { intros Hee Hlx. subst lx. assert (Hn0 : n = 0) by lia.
    rewrite Hexact in E1 by (subst n; lia). injection E1 as <- <-.
    reflexivity. }
  rewrite He', <- He1.
  destruct (shr_m mrs3) as [|q|q] eqn:Eq3.
  - split; [|reflexivity]. cbn [Zval].
    rewrite <- Hval. destruct sx; reflexivity.
  - change (emax - prec) with 971.
    assert (He3le : e3 <= 971).
    { assert (Zdigits2 m2 <= Z.max 0 (Zdigits2 mx - n) + 1) by lia.
      subst n2 n. lia. }
    destruct (Z.leb_spec e3 971) as [_|Hgt]; [|lia].
    split; [|reflexivity]. cbn [Zval]. now rewrite Hval.
  - exfalso. pose proof (proj2 (Z.shiftr_nonneg m2 n2) Hm2nn). lia.
Qed.

Lemma binary_round_val (sx : bool) (q : positive) (ez : Z) :
  -1074 <= ez -> Zdigits2 (Zpos q) + ez <= 971 ->
  let e' := Z.max ez (Zdigits2 (Zpos q) + ez - 53) in
  exists m2 : Z,
    Z.shiftr (Zpos q) (e' - ez) <= m2 <= Z.shiftr (Zpos q) (e' - ez) + 1
    /\ (e' = ez -> m2 = Zpos q)
    /\ Zval (binary_round prec emax sx q ez) = cond_Zopp sx (m2 * 2 ^ (e' + 1074))
    /\ sf_signed sx (binary_round prec emax sx q ez).
Proof.
  intros Hez HK e'. unfold binary_round.
  rewrite fexp64_eq.
  set (fx := Z.max (Zpos (digits2_pos q) + ez - 53) (-1074)).
  change (Zpos (digits2_pos q)) with (Zdigits2 (Zpos q)) in fx.
  pose proof (shl_align_spec q ez fx) as [Hsnd Hfst].
  pose proof (shl_align_digits q ez fx) as Hdig.
  destruct (shl_align q ez fx) as [mz ezz]. cbn [fst snd] in *.
  destruct (Z_lt_le_dec fx ez) as [Hlt|Hge].
  - (* the mantissa is shifted left: rounding is exact *)
    subst ezz. replace (Z.min ez fx) with fx in * by lia.
    destruct (@binary_round_aux_val sx (Zpos mz) fx loc_Exact) as (m2 & _ & Hex & Hv & Hs);
      try lia.
    assert (Hm2 : m2 = Zpos mz) by (apply Hex; [lia | reflexivity]).
    exists (Zpos q).
    assert (He' : e' = ez) by (subst e' fx; lia).
    rewrite He', Z.sub_diag, Z.shiftr_0_r.
    split; [lia|]. split; [reflexivity|]. split; [|exact Hs].
    rewrite Hv, Hm2. f_equal.
    replace (Z.max fx (Zdigits2 (Zpos mz) + fx - 53)) with fx by (subst fx; lia).
    rewrite Hfst.
    rewrite <- Z.mul_assoc, <- Z.pow_add_r by (subst fx; lia).
    f_equal. f_equal. lia.
  - subst ezz. replace (Z.min ez fx) with ez in * by lia.
    assert (Hmz : Zpos mz = Zpos q).
    { rewrite Hfst, Z.sub_diag. simpl. lia. }
    rewrite Hmz.
    destruct (@binary_round_aux_val sx (Zpos q) ez loc_Exact) as (m2 & Hb & Hex & Hv & Hs);
      try lia.
    exists m2. split; [exact Hb|]. split; [|split; assumption].
    intros He. now apply Hex.
Qed.

Lemma round_le_repr (sx : bool) (q mx : positive) (ex ez : Z) :
  bounded prec emax mx ex = true -> -1074 <= ez <= ex ->
  Zdigits2 (Zpos mx) + ex <= 971 ->
  Zpos q < Zpos mx * 2 ^ (ex - ez) ->
  exists V : Z,
    Zval (binary_round prec emax sx q ez) = cond_Zopp sx V
    /\ 0 <= V <= Zpos mx * 2 ^ (ex + 1074).
Proof.
  intros Hb Hez HK Hlt.
  destruct (bounded_canonical _ _ Hb) as (Hex & Hd & _).
  assert (Hdq : Zdigits2 (Zpos q) <= Zdigits2 (Zpos mx) + (ex - ez)).
  { rewrite <- Zdigits2_mul_pow2 by lia. apply Zdigits2_le. lia. }
  destruct (@binary_round_val sx q ez) as (m2 & Hm2 & _ & Hv & _); try lia.
  set (e' := Z.max ez (Zdigits2 (Zpos q) + ez - 53)) in *.
  assert (He' : ez <= e' <= ex) by (subst e'; lia).
  set (n := e' - ez) in *.
  exists (m2 * 2 ^ (e' + 1074)). split; [exact Hv|].
  set (X' := Zpos mx * 2 ^ (ex - e')).
  assert (HX : Zpos mx * 2 ^ (ex - ez) = X' * 2 ^ n).
  { subst X' n. rewrite <- Z.mul_assoc, <- Z.pow_add_r by lia. f_equal. f_equal. lia. }
  assert (Hpn : 0 < 2 ^ n) by (apply pow2_pos; subst n; lia).
  assert (Hsh : 0 <= Z.shiftr (Zpos q) n) by (apply Z.shiftr_nonneg; lia).
  assert (Hdiv : Z.shiftr (Zpos q) n < X').
  { rewrite Z.shiftr_div_pow2 by (subst n; lia).
    apply Z.div_lt_upper_bound; [exact Hpn|]. rewrite Z.mul_comm, <- HX. exact Hlt. }
  assert (Hpe : 0 < 2 ^ (e' + 1074)) by (apply pow2_pos; lia).
  split; [apply Z.mul_nonneg_nonneg; lia|].
  replace (Zpos mx * 2 ^ (ex + 1074)) with (X' * 2 ^ (e' + 1074)).
  - apply Z.mul_le_mono_nonneg_r; lia.
  - subst X'. rewrite <- Z.mul_assoc, <- Z.pow_add_r by lia. f_equal. f_equal. lia.
Qed.

Lemma round_ge_repr (sx : bool) (q mx : positive) (ex ez : Z) :
  bounded prec emax mx ex = true -> -1074 <= ez <= ex ->
  Zdigits2 (Zpos q) + ez <= 971 ->
  Zpos mx * 2 ^ (ex - ez) < Zpos q ->
  exists V : Z,
    Zval (binary_round prec emax sx q ez) = cond_Zopp sx V
    /\ Zpos mx * 2 ^ (ex + 1074) <= V.
Proof.
  intros Hb Hez HK Hlt.
  destruct (bounded_canonical _ _ Hb) as (Hex & Hd & _).
  destruct (@binary_round_val sx q ez) as (m2 & Hm2 & _ & Hv & _); try lia.
  set (e' := Z.max ez (Zdigits2 (Zpos q) + ez - 53)) in *.
  set (n := e' - ez) in *.
  exists (m2 * 2 ^ (e' + 1074)). split; [exact Hv|].
  assert (Hn : 0 <= n) by (subst n e'; lia).
  assert (Hpn : 0 < 2 ^ n) by (apply pow2_pos; exact Hn).
  destruct (Z_le_gt_dec e' ex) as [Hle|Hgt].
  - set (X' := Zpos mx * 2 ^ (ex - e')).
    assert (HX : Zpos mx * 2 ^ (ex - ez) = X' * 2 ^ n).
    { subst X' n. rewrite <- Z.mul_assoc, <- Z.pow_add_r by lia. f_equal. f_equal. lia. }
    assert (Hdiv : X' <= Z.shiftr (Zpos q) n).
    { rewrite Z.shiftr_div_pow2 by exact Hn.
      apply Z.div_le_lower_bound; [exact Hpn|]. rewrite Z.mul_comm, <- HX. lia. }
    replace (Zpos mx * 2 ^ (ex + 1074)) with (X' * 2 ^ (e' + 1074)).
    + apply Z.mul_le_mono_nonneg_r; [|lia]. apply Z.lt_le_incl, pow2_pos. subst e'. lia.
    + subst X'. rewrite <- Z.mul_assoc, <- Z.pow_add_r by (subst e'; lia).
      f_equal. f_equal. lia.
  - assert (He' : e' = Zdigits2 (Zpos q) + ez - 53) by (subst e'; lia).
    assert (Hnq : n = Zdigits2 (Zpos q) - 53) by (subst n; lia).
    assert (Hq : 2 ^ 52 * 2 ^ n <= Zpos q).
    { pose proof (Zdigits2_ge_pow2 (m := Zpos q) ltac:(lia)) as Hge.
      rewrite <- Z.pow_add_r by lia.
      replace (52 + n) with (Zdigits2 (Zpos q) - 1) by lia. exact Hge. }
    assert (Hdiv : 2 ^ 52 <= Z.shiftr (Zpos q) n).
    { rewrite Z.shiftr_div_pow2 by exact Hn.
      apply Z.div_le_lower_bound; [exact Hpn|]. rewrite Z.mul_comm. exact Hq. }
    assert (Hmx : Zpos mx < 2 ^ 53).
    { pose proof (Zdigits2_lt_pow2 (m := Zpos mx) ltac:(lia)).
      assert (2 ^ Zdigits2 (Zpos mx) <= 2 ^ 53) by (apply Z.pow_le_mono_r; lia). lia. }
    assert (Hpe : 0 < 2 ^ (ex + 1074)) by (apply pow2_pos; lia).
    assert (S1 : Zpos mx * 2 ^ (ex + 1074) <= 2 ^ 53 * 2 ^ (ex + 1074))
      by (apply Z.mul_le_mono_nonneg_r; lia).
    assert (S2 : 2 ^ 53 * 2 ^ (ex + 1074) <= 2 ^ 52 * 2 ^ (e' + 1074)).
    { rewrite <- !Z.pow_add_r by lia. apply Z.pow_le_mono_r; lia. }
    assert (S3 : 2 ^ 52 * 2 ^ (e' + 1074) <= m2 * 2 ^ (e' + 1074)).
    { apply Z.mul_le_mono_nonneg_r; [|lia]. apply Z.lt_le_incl, pow2_pos. lia. }
    lia.
Qed.

Lemma binary_round_nonneg_val (sx : bool) (q : positive) (ez : Z) :
  -1074 <= ez -> Zdigits2 (Zpos q) + ez <= 971 ->
  exists V : Z, Zval (binary_round prec emax sx q ez) = cond_Zopp sx V /\ 0 <= V.
Proof.
  intros Hez HK.
  destruct (@binary_round_val sx q ez) as (m2 & Hm2 & _ & Hv & _); try lia.
  eexists. split; [exact Hv|].
  assert (0 <= Z.shiftr (Zpos q) (Z.max ez (Zdigits2 (Zpos q) + ez - 53) - ez))
    by (apply Z.shiftr_nonneg; lia).
  apply Z.mul_nonneg_nonneg; [lia|]. apply Z.pow_nonneg. lia.
Qed.

(** The operands of an addition, aligned on the smaller exponent. *)
Lemma aligned (mx : positive) (ex ey : Z) :
  Zpos (fst (shl_align mx ex (Z.min ex ey))) = Zpos mx * 2 ^ (ex - Z.min ex ey).
Proof.
  destruct (shl_align_spec mx ex (Z.min ex ey)) as [_ ->].
  f_equal. f_equal. lia.
Qed.

Lemma aligned_digits (mx : positive) (ex ey : Z) :
  Zdigits2 (Zpos (fst (shl_align mx ex (Z.min ex ey)))) + Z.min ex ey
  = Zdigits2 (Zpos mx) + ex.
Proof. rewrite aligned, Zdigits2_mul_pow2 by lia. lia. Qed.

Lemma SFsub_le (x y : spec_float) (Ka Kb : Z) :
  valid_binary x = true -> valid_binary y = true ->
  mag_le Ka x -> mag_le Kb y -> sf_nonneg y = true ->
  Z.max Ka Kb + 1 <= 971 ->
  Zval (SF64sub x y) <= Zval x.
Proof.
  intros Vx Vy Hx Hy Hny HK.
  destruct x as [sx|sx| |sx mx ex], y as [sy|sy| |sy my ey];
    try contradiction; try discriminate.
  - destruct sx, sy; cbn; lia.
  - destruct sy; [discriminate|]. cbn [SF64sub SFsub Zval negb cond_Zopp].
    assert (0 <= Zpos my * 2 ^ (ey + 1074))
      by (apply Z.mul_nonneg_nonneg; [lia | apply Z.pow_nonneg; lia]).
    lia.
  - cbn [SF64sub SFsub]. lia.
  - destruct sy; [discriminate|].
    cbn [valid_binary mag_le] in *.
    destruct (bounded_canonical _ _ Vx) as (Hex & Hdx & _).
    destruct (bounded_canonical _ _ Vy) as (Hey & Hdy & _).
    unfold SF64sub, SFsub. change IntDef.Z.min with Z.min.
    set (ez := Z.min ex ey).
    pose proof (aligned mx ex ey) as Hax. pose proof (aligned my ey ex) as Hay.
    pose proof (aligned_digits mx ex ey) as Hdax.
    pose proof (aligned_digits my ey ex) as Hday.
    rewrite (Z.min_comm ey ex) in Hay, Hday. fold ez in Hax, Hay, Hdax, Hday.
    set (ax := fst (shl_align mx ex ez)) in *.
    set (ay := fst (shl_align my ey ez)) in *.
    assert (Hvx : Zpos mx * 2 ^ (ex + 1074) = Zpos ax * 2 ^ (ez + 1074)).
    { rewrite Hax, <- Z.mul_assoc, <- Z.pow_add_r by (subst ez; lia).
      f_equal. f_equal. lia. }
    assert (Hpz : 0 < 2 ^ (ez + 1074)) by (apply pow2_pos; subst ez; lia).
    cbn [cond_Zopp Zval]. destruct sx; cbn [cond_Zopp].
    + (* x < 0: the magnitude grows *)
      change (- Zpos ax - Zpos ay) with (Zneg (ax + ay)).
      cbn [binary_normalize].
      assert (Hzr : -1074 <= ez <= ex) by (subst ez; lia).
      assert (Hdq : Zdigits2 (Zpos (ax + ay)) + ez <= 971).
      { pose proof (Zdigits2_add (Zpos ax) (Zpos ay)) as Hadd.
        rewrite Pos2Z.inj_add. cbn [Zdigits2] in *. lia. }
      assert (Hlt : Zpos mx * 2 ^ (ex - ez) < Zpos (ax + ay)) by (rewrite <- Hax; lia).
      destruct (@round_ge_repr true (ax + ay) mx ex ez Vx Hzr Hdq Hlt) as (V & -> & HV).
      cbn [cond_Zopp]. lia.
    + assert (Hzr : -1074 <= ez <= ex) by (subst ez; lia).
      assert (Hmag : Zdigits2 (Zpos mx) + ex <= 971) by (cbn [Zdigits2]; lia).
      destruct (Zpos ax - Zpos ay) as [|q|q] eqn:Ed; cbn [binary_normalize].
      * cbn [Zval]. apply Z.mul_nonneg_nonneg; lia.
      * assert (Hlt : Zpos q < Zpos mx * 2 ^ (ex - ez)) by (rewrite <- Hax; lia).
        destruct (@round_le_repr false q mx ex ez Vx Hzr Hmag Hlt) as (V & -> & HV).
        cbn [cond_Zopp]. lia.
      * assert (Hdq : Zdigits2 (Zpos q) + ez <= 971).
        { assert (Zdigits2 (Zpos q) <= Zdigits2 (Zpos ay)) by (apply Zdigits2_le; lia).
          cbn [Zdigits2] in *. lia. }
        destruct (@binary_round_nonneg_val true q ez (proj1 Hzr) Hdq) as (V & -> & HV).
        cbn [cond_Zopp].
        assert (0 <= Zpos mx * 2 ^ (ex + 1074))
          by (rewrite Hvx; apply Z.mul_nonneg_nonneg; lia).
        lia.
Qed.

Lemma SFadd_ge (x y : spec_float) (Ka Kb : Z) :
  valid_binary x = true -> valid_binary y = true ->
  mag_le Ka x -> mag_le Kb y -> sf_nonneg y = true ->
  Z.max Ka Kb + 1 <= 971 ->
  Zval x <= Zval (SF64add x y).
Proof.
  intros Vx Vy Hx Hy Hny HK.
  destruct x as [sx|sx| |sx mx ex], y as [sy|sy| |sy my ey];
    try contradiction; try discriminate.
  - destruct sx, sy; cbn; lia.
  - destruct sy; [discriminate|]. cbn [SF64add SFadd Zval cond_Zopp].
    apply Z.mul_nonneg_nonneg; [lia | apply Z.pow_nonneg; lia].
  - cbn [SF64add SFadd]. lia.
  - destruct sy; [discriminate|].
    cbn [valid_binary mag_le] in *.
    destruct (bounded_canonical _ _ Vx) as (Hex & Hdx & _).
    destruct (bounded_canonical _ _ Vy) as (Hey & Hdy & _).
    unfold SF64add, SFadd. change IntDef.Z.min with Z.min.
    set (ez := Z.min ex ey).
    pose proof (aligned mx ex ey) as Hax. pose proof (aligned my ey ex) as Hay.
    pose proof (aligned_digits mx ex ey) as Hdax.
    pose proof (aligned_digits my ey ex) as Hday.
    rewrite (Z.min_comm ey ex) in Hay, Hday. fold ez in Hax, Hay, Hdax, Hday.
    set (ax := fst (shl_align mx ex ez)) in *.
    set (ay := fst (shl_align my ey ez)) in *.
    assert (Hvx : Zpos mx * 2 ^ (ex + 1074) = Zpos ax * 2 ^ (ez + 1074)).
    { rewrite Hax, <- Z.mul_assoc, <- Z.pow_add_r by (subst ez; lia).
      f_equal. f_equal. lia. }
    assert (Hpz : 0 < 2 ^ (ez + 1074)) by (apply pow2_pos; subst ez; lia).
    assert (Hzr : -1074 <= ez <= ex) by (subst ez; lia).
    assert (Hmag : Zdigits2 (Zpos mx) + ex <= 971) by (cbn [Zdigits2]; lia).
    cbn [cond_Zopp Zval]. destruct sx; cbn [cond_Zopp].
    + (* x < 0 *)
      destruct (- Zpos ax + Zpos ay) as [|q|q] eqn:Ed; cbn [binary_normalize].
      * cbn [Zval].
        assert (0 <= Zpos mx * 2 ^ (ex + 1074))
          by (rewrite Hvx; apply Z.mul_nonneg_nonneg; lia).
        lia.
      * assert (Hdq : Zdigits2 (Zpos q) + ez <= 971).
        { assert (Zdigits2 (Zpos q) <= Zdigits2 (Zpos ay)) by (apply Zdigits2_le; lia).
          cbn [Zdigits2] in *. lia. }
        destruct (@binary_round_nonneg_val false q ez (proj1 Hzr) Hdq) as (V & -> & HV).
        cbn [cond_Zopp].
        assert (0 <= Zpos mx * 2 ^ (ex + 1074))
          by (rewrite Hvx; apply Z.mul_nonneg_nonneg; lia).
        lia.
      * assert (Hlt : Zpos q < Zpos mx * 2 ^ (ex - ez)) by (rewrite <- Hax; lia).
        destruct (@round_le_repr true q mx ex ez Vx Hzr Hmag Hlt) as (V & -> & HV).
        cbn [cond_Zopp]. lia.
    + change (Zpos ax + Zpos ay) with (Zpos (ax + ay)).
      cbn [binary_normalize].
      assert (Hdq : Zdigits2 (Zpos (ax + ay)) + ez <= 971).
      { pose proof (Zdigits2_add (Zpos ax) (Zpos ay)) as Hadd.
        rewrite Pos2Z.inj_add. cbn [Zdigits2] in *. lia. }
      assert (Hlt : Zpos mx * 2 ^ (ex - ez) < Zpos (ax + ay)) by (rewrite <- Hax; lia).
      destruct (@round_ge_repr false (ax + ay) mx ex ez Vx Hzr Hdq Hlt) as (V & -> & HV).
      cbn [cond_Zopp]. lia.
Qed.

(** A rounding that ends on a zero or a finite value ends with the sign it
    was asked for. *)
Lemma binary_round_aux_sign (sx : bool) (mx ex : Z) (lx : location) :
  sf_finite (binary_round_aux prec emax sx mx ex lx) = true ->
  sf_signed sx (binary_round_aux prec emax sx mx ex lx).
Proof.
  unfold binary_round_aux.
  destruct (shr_fexp prec emax mx ex lx) as [mrs1 e1].
  destruct (shr_fexp prec emax _ e1 loc_Exact) as [mrs3 e3].
  destruct (shr_m mrs3); [reflexivity| |discriminate].
  destruct (e3 <=? emax - prec); [reflexivity | discriminate].
Qed.

Lemma mag_le_finite (K : Z) (x : spec_float) : mag_le K x -> sf_finite x = true.
Proof. destruct x; simpl; tauto. Qed.

Lemma signed_nonneg (x : spec_float) : sf_signed false x -> sf_nonneg x = true.
Proof. destruct x as [s|s| |s m e]; simpl; try tauto; intros ->; reflexivity. Qed.

Lemma SFmul_nonneg (x y : spec_float) (Ka Kb : Z) :
  mag_le Ka x -> mag_le Kb y -> -1074 <= Ka + Kb <= 971 ->
  sf_nonneg x = true -> sf_nonneg y = true ->
  sf_nonneg (SF64mul x y) = true.
Proof.
  intros Hx Hy HK Nx Ny.
  pose proof (@mag_le_finite _ _ (@SFmul_mag x y Ka Kb Hx Hy HK)) as Hfin.
  destruct x as [sx|sx| |sx mx ex], y as [sy|sy| |sy my ey];
    try contradiction; try reflexivity.
  destruct sx, sy; try discriminate.
  unfold SF64mul, SFmul in *. cbn [xorb] in *.
  now apply signed_nonneg, binary_round_aux_sign.
Qed.

Lemma binary_normalize_nonneg (m e : Z) (K : Z) :
  0 <= m -> Zdigits2 m + e <= K -> -1074 <= K <= 971 ->
  sf_nonneg (binary_normalize prec emax m e false) = true.
Proof.
  intros Hm HK HKr.
  pose proof (@mag_le_finite _ _ (@binary_normalize_mag m e false K HK HKr)) as Hfin.
  destruct m as [|q|q]; try lia; cbn [binary_normalize] in *; [reflexivity|].
  unfold binary_round in *.
  destruct (shl_align q e (fexp prec emax (Zpos (digits2_pos q) + e))) as [mz ez].
  now apply signed_nonneg, binary_round_aux_sign.
Qed.

(** The aligned integers of two values compare as the values do. *)
Lemma SFsub_nonneg (x y : spec_float) (Ka Kb : Z) :
  valid_binary x = true -> valid_binary y = true ->
  mag_le Ka x -> mag_le Kb y ->
  -1074 <= Z.max Ka Kb + 1 <= 971 ->
  Zval y <= Zval x ->
  sf_nonneg (SF64sub x y) = true.
Proof.
  intros Vx Vy Hx Hy HK Hle.
  destruct x as [sx|sx| |sx mx ex], y as [sy|sy| |sy my ey];
    try contradiction.
  - destruct sx, sy; reflexivity.
  - cbn [valid_binary Zval SF64sub SFsub sf_nonneg] in *.
    destruct (bounded_canonical _ _ Vy) as (Hey & _).
    assert (0 < Zpos my * 2 ^ (ey + 1074))
      by (apply Z.mul_pos_pos; [lia | apply pow2_pos; lia]).
    destruct sy; cbn [cond_Zopp negb] in *; [reflexivity | lia].
  - cbn [valid_binary Zval SF64sub SFsub sf_nonneg] in *.
    destruct (bounded_canonical _ _ Vx) as (Hex & _).
    assert (0 < Zpos mx * 2 ^ (ex + 1074))
      by (apply Z.mul_pos_pos; [lia | apply pow2_pos; lia]).
    destruct sx; cbn [cond_Zopp] in *; [lia | reflexivity].
  - cbn [valid_binary mag_le Zval] in *.
    destruct (bounded_canonical _ _ Vx) as (Hex & Hdx & _).
    destruct (bounded_canonical _ _ Vy) as (Hey & Hdy & _).
    unfold SF64sub, SFsub. change IntDef.Z.min with Z.min.
    set (ez := Z.min ex ey).
    pose proof (aligned mx ex ey) as Hax. pose proof (aligned my ey ex) as Hay.
    pose proof (aligned_digits mx ex ey) as Hdax.
    pose proof (aligned_digits my ey ex) as Hday.
    rewrite (Z.min_comm ey ex) in Hay, Hday. fold ez in Hax, Hay, Hdax, Hday.
    set (ax := fst (shl_align mx ex ez)) in *.
    set (ay := fst (shl_align my ey ez)) in *.
    assert (Hpz : 0 < 2 ^ (ez + 1074)) by (apply pow2_pos; subst ez; lia).
    assert (Hvx : Zpos mx * 2 ^ (ex + 1074) = Zpos ax * 2 ^ (ez + 1074)).
    { rewrite Hax, <- Z.mul_assoc, <- Z.pow_add_r by (subst ez; lia).
      f_equal. f_equal. lia. }
    assert (Hvy : Zpos my * 2 ^ (ey + 1074) = Zpos ay * 2 ^ (ez + 1074)).
    { rewrite Hay, <- Z.mul_assoc, <- Z.pow_add_r by (subst ez; lia).
      f_equal. f_equal. lia. }
    rewrite Hvx, Hvy in Hle.
    assert (Hint : cond_Zopp sy (Zpos ay) <= cond_Zopp sx (Zpos ax)).
    { destruct sx, sy; cbn [cond_Zopp] in *; nia. }
    apply binary_normalize_nonneg with (K := Z.max Ka Kb + 1); [lia| |lia].
    pose proof (Zdigits2_add (cond_Zopp sx (Zpos ax)) (- cond_Zopp sy (Zpos ay))) as Hs.
    rewrite <- (Zdigits2_abs (- _)), Z.abs_opp, Zdigits2_abs in Hs.
    rewrite !cond_Zopp_digits in Hs. rewrite Z.add_opp_r in Hs.
    cbn [Zdigits2] in *. lia.
Qed.

Lemma fin_sf_finite (K : Z) (x : float) : fin K x -> sf_finite (Prim2SF x) = true.
Proof. apply mag_le_finite. Qed.

Lemma compare_Zval (a b : float) (Ka Kb : Z) :
  fin Ka a -> fin Kb b ->
  SFcompare (Prim2SF a) (Prim2SF b) = Some (Zval (Prim2SF a) ?= Zval (Prim2SF b)).
Proof.
  intros Ha Hb. apply SFcompare_Zval; try apply Prim2SF_valid.
  - exact (@fin_sf_finite _ _ Ha).
  - exact (@fin_sf_finite _ _ Hb).
Qed.

Lemma leb_Zval (a b : float) (Ka Kb : Z) :
  fin Ka a -> fin Kb b ->
  (PrimFloat.leb a b = true <-> Zval (Prim2SF a) <= Zval (Prim2SF b)).
Proof.
  intros Ha Hb. rewrite leb_spec. unfold SFleb. rewrite (@compare_Zval _ _ _ _ Ha Hb).
  destruct (Z.compare_spec (Zval (Prim2SF a)) (Zval (Prim2SF b)));
    split; intros; try reflexivity; try discriminate; lia.
Qed.

Lemma ltb_Zval (a b : float) (Ka Kb : Z) :
  fin Ka a -> fin Kb b ->
  (PrimFloat.ltb a b = true <-> Zval (Prim2SF a) < Zval (Prim2SF b)).
Proof.
  intros Ha Hb. rewrite ltb_spec. unfold SFltb. rewrite (@compare_Zval _ _ _ _ Ha Hb).
  destruct (Z.compare_spec (Zval (Prim2SF a)) (Zval (Prim2SF b)));
    split; intros; try reflexivity; try discriminate; lia.
Qed.

Lemma sub_le (x y : float) (Ka Kb : Z) :
  fin Ka x -> fin Kb y -> nonneg y -> -1074 <= Z.max Ka Kb + 1 <= 970 ->
  PrimFloat.leb (x - y) x = true.
Proof.
  intros Hx Hy Ny HK.
  assert (Hs : fin (Z.max Ka Kb + 2) (x - y)) by (apply fin_sub; [assumption..|lia]).
  apply (proj2 (@leb_Zval _ _ _ _ Hs Hx)). rewrite sub_spec.
  apply SFsub_le with (Ka := Ka) (Kb := Kb); try apply Prim2SF_valid; try assumption.
  lia.
Qed.

Lemma add_ge (x y : float) (Ka Kb : Z) :
  fin Ka x -> fin Kb y -> nonneg y -> -1074 <= Z.max Ka Kb + 1 <= 970 ->
  PrimFloat.leb x (x + y) = true.
Proof.
  intros Hx Hy Ny HK.
  assert (Hs : fin (Z.max Ka Kb + 2) (x + y)) by (apply fin_add; [assumption..|lia]).
  apply (proj2 (@leb_Zval _ _ _ _ Hx Hs)). rewrite add_spec.
  apply SFadd_ge with (Ka := Ka) (Kb := Kb); try apply Prim2SF_valid; try assumption.
  lia.
Qed.

Lemma nonneg_mul (x y : float) (Ka Kb : Z) :
  fin Ka x -> fin Kb y -> -1074 <= Ka + Kb <= 971 ->
  nonneg x -> nonneg y -> nonneg (x * y).
Proof.
  unfold nonneg, fin. rewrite mul_spec. intros. now apply SFmul_nonneg with (Ka := Ka) (Kb := Kb).
Qed.

Lemma nonneg_sub (x y : float) (Ka Kb : Z) :
  fin Ka x -> fin Kb y -> -1074 <= Z.max Ka Kb + 1 <= 971 ->
  PrimFloat.leb y x = true -> nonneg (x - y).
Proof.
  intros Hx Hy HK Hle. unfold nonneg. rewrite sub_spec.
  apply SFsub_nonneg with (Ka := Ka) (Kb := Kb); try apply Prim2SF_valid; try assumption.
  now apply (proj1 (@leb_Zval _ _ _ _ Hy Hx)).
Qed.

Lemma nonneg_above (lo x : float) (K : Z) :
  sf_nonneg (Prim2SF lo) = true -> PrimFloat.leb lo x = true -> fin K x ->
  nonneg x.
Proof.
  intros Hlo Hl Hx. unfold nonneg, fin in *. rewrite leb_spec in Hl.
  destruct (Prim2SF x) as [s|s| |s m e]; try contradiction; cbn [sf_nonneg].
  - reflexivity.
  - destruct s; [|reflexivity].
    destruct (Prim2SF lo) as [| | |[|] ? ?]; discriminate.
Qed.

Lemma fin_not_nan (K : Z) (x : float) : fin K x -> PrimFloat.is_nan x = false.
Proof.
  intros Hx. pose proof (@fin_is_finite _ _ Hx) as Hf. unfold is_finite in Hf.
  destruct (PrimFloat.is_nan x); [discriminate | reflexivity].
Qed.

Lemma float_min_spec (a b : float) (K : Z) :
  fin K a -> fin K b ->
  (float_min a b = a \/ float_min a b = b)
  /\ Zval (Prim2SF (float_min a b)) <= Zval (Prim2SF a)
  /\ Zval (Prim2SF (float_min a b)) <= Zval (Prim2SF b).
Proof.
  intros Ha Hb. unfold float_min. rewrite (@fin_not_nan _ _ Ha), Bool.orb_false_r.
  pose proof (@ltb_Zval _ _ _ _ Ha Hb) as Hlt.
  destruct (PrimFloat.ltb a b).
  - assert (Zval (Prim2SF a) < Zval (Prim2SF b)) by now apply Hlt.
    split; [now left | lia].
  - assert (~ Zval (Prim2SF a) < Zval (Prim2SF b)) by (intros Hc; apply Hlt in Hc; discriminate).
    split; [now right | lia].
Qed.

Lemma float_max_spec (a b : float) (K : Z) :
  fin K a -> fin K b ->
  (float_max a b = a \/ float_max a b = b)
  /\ Zval (Prim2SF a) <= Zval (Prim2SF (float_max a b))
  /\ Zval (Prim2SF b) <= Zval (Prim2SF (float_max a b)).
Proof.
  intros Ha Hb. unfold float_max. rewrite (@fin_not_nan _ _ Ha), Bool.orb_false_r.
  pose proof (@ltb_Zval _ _ _ _ Hb Ha) as Hlt.
  destruct (PrimFloat.ltb b a).
  - assert (Zval (Prim2SF b) < Zval (Prim2SF a)) by now apply Hlt.
    split; [now left | lia].
  - assert (~ Zval (Prim2SF b) < Zval (Prim2SF a)) by (intros Hc; apply Hlt in Hc; discriminate).
    split; [now right | lia].
Qed.

Lemma fold_float_min_le (K : Z) (l : list float) :
  forall x : float,
    (forall v, In v (x :: l) -> fin K v) ->
    forall v, In v (x :: l) ->
      Zval (Prim2SF (fold_left float_min l x)) <= Zval (Prim2SF v).
Proof.
  induction l as [|a l IH]; intros x Hfin v Hv.
  - destruct Hv as [<-|[]]. simpl. lia.
  - cbn [fold_left].
    assert (Ha : fin K a) by (apply Hfin; right; now left).
    assert (Hx : fin K x) by (apply Hfin; now left).
    destruct (@float_min_spec _ _ _ Hx Ha) as (Hor & Hlx & Hla).
    assert (Hfin' : forall w, In w (float_min x a :: l) -> fin K w).
    { intros w [<-|Hw]; [destruct Hor as [-> | ->]; assumption|].
      apply Hfin. right. now right. }
    pose proof (IH (float_min x a) Hfin' (float_min x a) (or_introl eq_refl)) as Hm.
    destruct Hv as [<-|[<-|Hv]].
    + lia.
    + lia.
    + apply (IH (float_min x a) Hfin'). now right.
Qed.

Lemma fold_float_max_ge (K : Z) (l : list float) :
  forall x : float,
    (forall v, In v (x :: l) -> fin K v) ->
    forall v, In v (x :: l) ->
      Zval (Prim2SF v) <= Zval (Prim2SF (fold_left float_max l x)).
Proof.
  induction l as [|a l IH]; intros x Hfin v Hv.
  - destruct Hv as [<-|[]]. simpl. lia.
  - cbn [fold_left].
    assert (Ha : fin K a) by (apply Hfin; right; now left).
    assert (Hx : fin K x) by (apply Hfin; now left).
    destruct (@float_max_spec _ _ _ Hx Ha) as (Hor & Hlx & Hla).
    assert (Hfin' : forall w, In w (float_max x a :: l) -> fin K w).
    { intros w [<-|Hw]; [destruct Hor as [-> | ->]; assumption|].
      apply Hfin. right. now right. }
    pose proof (IH (float_max x a) Hfin' (float_max x a) (or_introl eq_refl)) as Hm.
    destruct Hv as [<-|[<-|Hv]].
    + lia.
    + lia.
    + apply (IH (float_max x a) Hfin'). now right.
Qed.

Lemma eqb_sub_zero (x z : float) (K : Z) :
  fin K x -> zero_float z -> PrimFloat.eqb (PrimFloat.sub x z) x = true.
Proof.
  unfold fin, zero_float. rewrite FloatAxioms.eqb_spec, sub_spec.
  destruct (Prim2SF z) as [sz| | |]; try tauto. intros Hx _.
  destruct (Prim2SF x) as [s|s| |s m e] eqn:Ex; try contradiction.
  - destruct s, sz; reflexivity.
  - unfold SF64sub, SFsub. now apply SFeqb_refl_finite with (K := K).
Qed.

Lemma grid_nonneg_checked :
  forallb (fun f => sf_nonneg (Prim2SF f)
                    && sf_nonneg (Prim2SF (sub (of_int 1) f)))
          (F (T := float)) = true.
Proof. vm_compute. reflexivity. Qed.

Lemma grid_nonneg (f : float) :
  In f F -> nonneg f /\ nonneg (sub (of_int 1) f).
Proof.
  intros Hin. pose proof grid_nonneg_checked as Hall. rewrite forallb_forall in Hall.
  apply Hall, andb_prop in Hin. exact Hin.
Qed.

Section Order.

Variable LT : Libm float.
Variable ps : ParameterSet float.
Hypothesis Hvalid : float_valid ps.
Hypothesis Hexp : between 0 2 (np_exp (mul (neg (beta ps)) (a_star ps))).
Hypothesis Hpow : between 0 128 (pow2 (a_star ps)).

Lemma penalty_float (f : float) :
  In f F ->
  fin 5 (mul (mul (delta ps) f) (sub (of_int 1) f))
  /\ nonneg (mul (mul (delta ps) f) (sub (of_int 1) f)).
Proof.
  intros Hf. destruct (grid_fin Hf) as [Hf1 Hf2].
  destruct (grid_nonneg Hf) as [Nf1 Nf2].
  destruct Hvalid as (_ & _ & _ & _ & _ & _ & _ & _ & Hd).
  assert (Fd : fin 1 (delta ps)) by by_range.
  assert (Nd : nonneg (delta ps))
    by (apply nonneg_above with (lo := 0%float) (K := 1); [reflexivity | apply Hd | exact Fd]).
  cbn [add sub mul of_int float_arith] in *.
  assert (Fdf : fin 3 (delta ps * f)%float) by fin_auto.
  split; [fin_auto|].
  apply nonneg_mul with (Ka := 3) (Kb := 1); try assumption; try lia.
  apply nonneg_mul with (Ka := 1) (Kb := 1); try assumption; lia.
Qed.

Lemma P_dup_le_P_endh_float (i : nat) :
  (i < 200)%nat ->
  PrimFloat.leb (nth i (P_dup ps) 0%float) (nth i (P_endh ps) 0%float) = true.
Proof.
  intros Hi.
  assert (Hf : In (nth i F 0%float) F) by (apply nth_In; now rewrite F_length).
  destruct (penalty_float Hf) as [Fp Np].
  rewrite P_dup_nth, P_endh_nth by assumption.
  assert (Fe : fin 43 (P_endh_at ps (nth i F 0%float)))
    by (eapply fin_P_endh_at; eassumption).
  cbn [add sub mul of_int float_arith] in *.
  apply sub_le with (Ka := 43) (Kb := 5); try assumption. lia.
Qed.

Lemma P_dup_endpoints_float :
  PrimFloat.eqb (nth 0 (P_dup ps) 0%float) (nth 0 (P_endh ps) 0%float) = true
  /\ PrimFloat.eqb (nth 199 (P_dup ps) 0%float) (nth 199 (P_endh ps) 0%float) = true.
Proof.
  destruct Hvalid as (_ & _ & _ & _ & _ & _ & _ & _ & Hd).
  assert (Fd : fin 1 (delta ps)) by by_range.
  split.
  - rewrite P_dup_nth, P_endh_nth, F_first_float by lia.
    assert (Fe : fin 43 (P_endh_at ps 0%float))
      by (eapply fin_P_endh_at; try eassumption; apply In_F_first).
    cbn [add sub mul of_int float_arith] in *.
    change (PrimFloat.sub (float_of_int 1) 0) with 1%float.
    rewrite float_mul_1_r.
    eapply eqb_sub_zero; [exact Fe|].
    eapply zero_mul_r; [exact Fd | exact I].
  - rewrite P_dup_nth, P_endh_nth, F_last_float by lia.
    assert (Fe : fin 43 (P_endh_at ps 1%float))
      by (eapply fin_P_endh_at; try eassumption; apply In_F_last).
    cbn [add sub mul of_int float_arith] in *.
    change (PrimFloat.sub (float_of_int 1) 1) with 0%float.
    rewrite float_mul_1_r.
    eapply eqb_sub_zero; [exact Fe|].
    eapply zero_mul_r; [exact Fd | exact I].
Qed.

Lemma ylim_encloses_float :
  exists p_min p_max : float,
    array_min (all_p_values ps) = Returned p_min
    /\ array_max (all_p_values ps) = Returned p_max
    /\ In p_min (all_p_values ps) /\ In p_max (all_p_values ps)
    /\ (forall x : float, In x (all_p_values ps) ->
          PrimFloat.leb p_min x = true /\ PrimFloat.leb x p_max = true)
    /\ set_ylim ps
       = Returned (sub p_min (mul (sub p_max p_min) tenth),
                   add p_max (mul (sub p_max p_min) tenth))
    /\ forall x : float, In x (all_p_values ps) ->
         encloses (sub p_min (mul (sub p_max p_min) tenth),
                   add p_max (mul (sub p_max p_min) tenth)) x.
Proof.
  assert (Hfin : forall x : float, In x (all_p_values ps) -> fin 45 x)
    by (intros; eapply fin_all_p_values; eassumption).
  destruct (set_ylim_Returned ps) as (lo & hi & Hlo & Hhi & Hlim).
  exists lo, hi. split; [exact Hlo|]. split; [exact Hhi|].
  pose proof (array_min_In _ Hlo) as Ilo. pose proof (array_max_In _ Hhi) as Ihi.
  split; [exact Ilo|]. split; [exact Ihi|].
  assert (Hzmin : forall x, In x (all_p_values ps) ->
            (Zval (Prim2SF lo) <= Zval (Prim2SF x))%Z).
  { intros x Hx. destruct (all_p_values ps) as [|y l]; [contradiction|].
    cbn [array_min fmin float_arith] in Hlo. injection Hlo as <-.
    now apply fold_float_min_le with (K := 45%Z). }
  assert (Hzmax : forall x, In x (all_p_values ps) ->
            (Zval (Prim2SF x) <= Zval (Prim2SF hi))%Z).
  { intros x Hx. destruct (all_p_values ps) as [|y l]; [contradiction|].
    cbn [array_max fmax float_arith] in Hhi. injection Hhi as <-.
    now apply fold_float_max_ge with (K := 45%Z). }
  pose proof (Hfin lo Ilo) as Flo. pose proof (Hfin hi Ihi) as Fhi.
  split.
  { intros x Hx. pose proof (Hfin x Hx) as Fx. split.
    - apply (proj2 (@leb_Zval _ _ _ _ Flo Fx)). now apply Hzmin.
    - apply (proj2 (@leb_Zval _ _ _ _ Fx Fhi)). now apply Hzmax. }
  unfold padding in Hlim. split; [exact Hlim|].
  cbn [add sub mul tenth float_arith] in *.
  assert (Ft : fin (-3) 0x1.999999999999ap-4%float)
    by (apply finb_spec; vm_compute; reflexivity).
  assert (Nt : nonneg 0x1.999999999999ap-4%float) by (vm_compute; reflexivity).
  assert (Hle : PrimFloat.leb lo hi = true)
    by (apply (proj2 (@leb_Zval _ _ _ _ Flo Fhi)); now apply Hzmax).
  assert (Fd : fin 47 (hi - lo)%float) by fin_auto.
  assert (Nd : nonneg (hi - lo)%float)
    by (apply nonneg_sub with (Ka := 45%Z) (Kb := 45%Z); try assumption; lia).
  assert (Fp : fin 45 ((hi - lo) * 0x1.999999999999ap-4)%float) by fin_auto.
  assert (Np : nonneg ((hi - lo) * 0x1.999999999999ap-4)%float)
    by (apply nonneg_mul with (Ka := 47%Z) (Kb := (-3)%Z); try assumption; lia).
  intros x Hx. pose proof (Hfin x Hx) as Fx.
  assert (Flow : fin 47 (lo - (hi - lo) * 0x1.999999999999ap-4)%float) by fin_auto.
  assert (Fhigh : fin 47 (hi + (hi - lo) * 0x1.999999999999ap-4)%float) by fin_auto.
  pose proof (@sub_le lo _ 45%Z 45%Z Flo Fp Np ltac:(lia)) as H1.
  pose proof (@add_ge hi _ 45%Z 45%Z Fhi Fp Np ltac:(lia)) as H2.
  apply (proj1 (@leb_Zval _ _ _ _ Flow Flo)) in H1.
  apply (proj1 (@leb_Zval _ _ _ _ Fhi Fhigh)) in H2.
  split; cbn [fst snd].
  - apply (proj2 (@leb_Zval _ _ _ _ Flow Fx)). specialize (Hzmin x Hx). lia.
  - apply (proj2 (@leb_Zval _ _ _ _ Fx Fhigh)). specialize (Hzmax x Hx). lia.
Qed.

End Order.

End FloatOrder.

(** ** Binary64: infinities and NaN *)

Lemma nan_float_is_nan (x : float) : nan_float x <-> PrimFloat.is_nan x = true.
Proof.
  unfold nan_float, is_nan. rewrite FloatAxioms.eqb_spec.
  destruct (Prim2SF x) as [s|s| |s m e].
  - split; intros Hx; [discriminate Hx | destruct s; discriminate Hx].
  - split; intros Hx; [discriminate Hx | destruct s; discriminate Hx].
  - split; reflexivity.
  - split; intros Hx; [discriminate Hx|]. exfalso.
    unfold SFeqb, SFcompare in Hx.
    rewrite Z.compare_refl, Pos.compare_cont_refl in Hx. destruct s; discriminate Hx.
Qed.

Lemma not_finite_is_finite (x : float) :
  not_finite x -> PrimFloat.is_finite x = false.
Proof.
  unfold not_finite, is_finite, is_nan, is_infinity.
  rewrite !FloatAxioms.eqb_spec, abs_spec.
  change (Prim2SF infinity) with (S754_infinity false).
  destruct (Prim2SF x) as [s|s| |s m e]; try contradiction; intros _.
  - destruct s; reflexivity.
  - reflexivity.
Qed.

Lemma div_zero_not_finite (x z : float) :
  zero_float z -> not_finite (PrimFloat.div x z).
Proof.
  unfold zero_float, not_finite. rewrite div_spec.
  destruct (Prim2SF z) as [sz| | |]; try contradiction. intros _.
  destruct (Prim2SF x) as [s|s| |s m e]; exact I.
Qed.

Lemma sub_not_finite_r (x y : float) (K : Z) :
  fin K x -> not_finite y -> not_finite (PrimFloat.sub x y).
Proof.
  unfold fin, not_finite. rewrite sub_spec.
  destruct (Prim2SF x) as [s|s| |s m e]; try contradiction; intros _;
    destruct (Prim2SF y) as [t|t| |t n d]; try contradiction; intros _; exact I.
Qed.

Lemma sub_not_finite_l (x y : float) (K : Z) :
  not_finite x -> fin K y -> not_finite (PrimFloat.sub x y).
Proof.
  unfold fin, not_finite. rewrite sub_spec.
  destruct (Prim2SF x) as [s|s| |s m e]; try contradiction; intros _;
    destruct (Prim2SF y) as [t|t| |t n d]; try contradiction; intros _; exact I.
Qed.

Lemma add_not_finite_l (x y : float) (K : Z) :
  not_finite x -> fin K y -> not_finite (PrimFloat.add x y).
Proof.
  unfold fin, not_finite. rewrite add_spec.
  destruct (Prim2SF x) as [s|s| |s m e]; try contradiction; intros _;
    destruct (Prim2SF y) as [t|t| |t n d]; try contradiction; intros _; exact I.
Qed.

Lemma mul_not_finite_r (x y : float) :
  not_finite y -> not_finite (PrimFloat.mul x y).
Proof.
  unfold not_finite. rewrite mul_spec.
  destruct (Prim2SF y) as [t|t| |t n d]; try contradiction; intros _;
    destruct (Prim2SF x) as [s|s| |s m e]; exact I.
Qed.

Lemma zero_mul_nan (z y : float) :
  zero_float z -> not_finite y -> nan_float (PrimFloat.mul z y).
Proof.
  unfold zero_float, not_finite, nan_float. rewrite mul_spec.
  destruct (Prim2SF z) as [sz| | |]; try contradiction. intros _.
  destruct (Prim2SF y) as [t|t| |t n d]; try contradiction; intros _; reflexivity.
Qed.

Lemma nan_add_l (x y : float) : nan_float x -> nan_float (PrimFloat.add x y).
Proof. unfold nan_float. rewrite add_spec. now intros ->. Qed.

Lemma nan_sub_l (x y : float) : nan_float x -> nan_float (PrimFloat.sub x y).
Proof. unfold nan_float. rewrite sub_spec. now intros ->. Qed.

Lemma ltb_nan_r (a b : float) : nan_float b -> PrimFloat.ltb a b = false.
Proof.
  unfold nan_float. rewrite ltb_spec. intros ->.
  destruct (Prim2SF a) as [s|s| |s m e]; reflexivity.
Qed.

Lemma float_min_nan (a b : float) :
  nan_float a \/ nan_float b -> nan_float (float_min a b).
Proof.
  unfold float_min. intros [Ha | Hb'].
  - apply nan_float_is_nan in Ha as Ha'. now rewrite Ha', Bool.orb_true_r.
  - rewrite (ltb_nan_r a Hb'). cbn [orb].
    destruct (PrimFloat.is_nan a) eqn:Ea; [now apply nan_float_is_nan | exact Hb'].
Qed.

Lemma float_max_nan (a b : float) :
  nan_float a \/ nan_float b -> nan_float (float_max a b).
Proof.
  unfold float_max. intros [Ha | Hb'].
  - apply nan_float_is_nan in Ha as Ha'. now rewrite Ha', Bool.orb_true_r.
  - destruct (PrimFloat.is_nan a) eqn:Ea.
    + rewrite Bool.orb_true_r. now apply nan_float_is_nan.
    + rewrite Bool.orb_false_r.
      assert (Hlt : PrimFloat.ltb b a = false).
      { rewrite ltb_spec. unfold nan_float in Hb'. now rewrite Hb'. }
      now rewrite Hlt.
Qed.

Lemma fold_float_min_nan (l : list float) :
  forall x : float,
    (exists w, In w (x :: l) /\ nan_float w) -> nan_float (fold_left float_min l x).
Proof.
  induction l as [|a l IH]; intros x (w & Hw & Hnan).
  - destruct Hw as [<-|[]]. exact Hnan.
  - cbn [fold_left]. apply IH.
    destruct Hw as [<-|[<-|Hw]].
    + exists (float_min x a). split; [now left | apply float_min_nan; now left].
    + exists (float_min x a). split; [now left | apply float_min_nan; now right].
    + exists w. split; [now right | exact Hnan].
Qed.

Lemma fold_float_max_nan (l : list float) :
  forall x : float,
    (exists w, In w (x :: l) /\ nan_float w) -> nan_float (fold_left float_max l x).
Proof.
  induction l as [|a l IH]; intros x (w & Hw & Hnan).
  - destruct Hw as [<-|[]]. exact Hnan.
  - cbn [fold_left]. apply IH.
    destruct Hw as [<-|[<-|Hw]].
    + exists (float_max x a). split; [now left | apply float_max_nan; now left].
    + exists (float_max x a). split; [now left | apply float_max_nan; now right].
    + exists w. split; [now right | exact Hnan].
Qed.

(** A NaN among the curve values makes both limits NaN. *)
Lemma nan_ylim (LT : Libm float) (ps : ParameterSet float) (x : float) :
  In x (all_p_values ps) -> nan_float x ->
  exists lo hi : float,
    set_ylim ps = Returned (lo, hi) /\ nan_float lo /\ nan_float hi.
Proof.
  intros Hin Hnan.
  destruct (set_ylim_Returned ps) as (p_min & p_max & Hmin & Hmax & Hlim).
  exists (sub p_min (padding p_min p_max)), (add p_max (padding p_min p_max)).
  split; [exact Hlim|].
  destruct (all_p_values ps) as [|y l]; [contradiction|].
  cbn [array_min array_max] in Hmin, Hmax.
  injection Hmin as <-. injection Hmax as <-.
  cbn [add sub fmin fmax float_arith]. split.
  - apply nan_sub_l, fold_float_min_nan. exists x. split; assumption.
  - apply nan_add_l, fold_float_max_nan. exists x. split; assumption.
Qed.

(** ** Binary64: one pass with [N = 0] *)

Section NoOutlets.

Variable LT : Libm float.
Variable ps : ParameterSet float.
Hypothesis Hvalid : float_valid ps.
Hypothesis Hexp : between 0 2 (np_exp (mul (neg (beta ps)) (a_star ps))).
Hypothesis Hpow : between 0 128 (pow2 (a_star ps)).

Lemma per_outlet_not_finite (f : float) :
  not_finite (div (C_op_F (with_N ps 0) f) (of_int (N (with_N ps 0)))).
Proof. apply div_zero_not_finite. exact I. Qed.

Lemma company_branch_not_finite (f : float) :
  not_finite
    (mul (sub (of_int 1) f)
         (sub (pi (with_N ps 0))
              (div (C_op_F (with_N ps 0) f) (of_int (N (with_N ps 0)))))).
Proof.
  destruct Hvalid as (Hpi & _).
  assert (Fpi : fin 1 (pi ps)) by by_range.
  apply mul_not_finite_r. eapply sub_not_finite_r; [exact Fpi|].
  apply per_outlet_not_finite.
Qed.

Lemma franchised_branch_fin (f : float) :
  In f F ->
  fin 18 (mul f (sub (mul (p (with_N ps 0) (a_star (with_N ps 0))) (pi (with_N ps 0)))
                     (c (with_N ps 0) (a_star (with_N ps 0))))).
Proof.
  intros Hf. destruct (grid_fin Hf) as [Hf1 _].
  pose proof (@fin_franchised LT ps Hvalid Hexp Hpow) as HX.
  unfold franchised_profit in HX.
  change (p (with_N ps 0) (a_star (with_N ps 0))) with (p ps (a_star ps)).
  change (c (with_N ps 0) (a_star (with_N ps 0))) with (c ps (a_star ps)).
  change (pi (with_N ps 0)) with (pi ps).
  cbn [add sub mul div neg of_int float_arith] in *. fin_auto.
Qed.

Lemma P_endh_at_not_finite (f : float) :
  In f F -> not_finite (P_endh_at (with_N ps 0) f).
Proof.
  intros Hf. unfold P_endh_at.
  eapply add_not_finite_l;
    [apply company_branch_not_finite | now apply franchised_branch_fin].
Qed.

Lemma P_endh_at_nan : nan_float (P_endh_at (with_N ps 0) 1%float).
Proof.
  unfold P_endh_at. apply nan_add_l. apply zero_mul_nan; [exact I|].
  destruct Hvalid as (Hpi & _).
  assert (Fpi : fin 1 (pi ps)) by by_range.
  eapply sub_not_finite_r; [exact Fpi|]. apply per_outlet_not_finite.
Qed.

Lemma penalty_fin (f : float) :
  In f F ->
  fin 5 (mul (mul (delta (with_N ps 0)) f) (sub (of_int 1) f)).
Proof.
  intros Hf. destruct (grid_fin Hf) as [Hf1 Hf2].
  destruct Hvalid as (_ & _ & _ & _ & _ & _ & _ & _ & Hd).
  assert (fin 1 (delta ps)) by by_range.
  change (delta (with_N ps 0)) with (delta ps).
  cbn [add sub mul div neg of_int float_arith] in *. fin_auto.
Qed.

End NoOutlets.

(** ** Binary64: what a run refuses *)

Section Refused.

Local Open Scope Z_scope.

Lemma binary_round_aux_overflow (sx : bool) (mx ex : Z) (lx : location) :
  0 < mx -> 1025 <= Zdigits2 mx + ex ->
  binary_round_aux prec emax sx mx ex lx = S754_infinity sx.
Proof.
  intros Hm HL. unfold binary_round_aux.
  assert (Hm0 : 0 <= mx) by lia.
  destruct (shr_fexp_spec ex lx Hm0) as [Hm1 He1].
  destruct (shr_fexp prec emax mx ex lx) as [mrs1 e1]. cbn [fst snd] in Hm1, He1.
  set (m2 := round_nearest_even (shr_m mrs1) (loc_of_shr_record mrs1)).
  pose proof (round_nearest_even_bounds (shr_m mrs1) (loc_of_shr_record mrs1)) as Hrne.
  fold m2 in Hrne.
  assert (Hd1 : 1 <= Zdigits2 mx)
    by (rewrite Zdigits2_log2 by lia; pose proof (Z.log2_nonneg mx); lia).
  assert (Hm1nn : 0 <= shr_m mrs1) by (rewrite Hm1; apply Z.shiftr_nonneg; exact Hm0).
  assert (Hm2nn : 0 <= m2) by lia.
  pose proof (Zdigits2_succ_le Hm1nn Hrne) as Hd2.
  assert (Hd2' : Zdigits2 (shr_m mrs1) <= Zdigits2 m2) by (apply Zdigits2_le; lia).
  rewrite Hm1 in Hd2, Hd2'. rewrite Zdigits2_shiftr in Hd2, Hd2' by lia.
  destruct (shr_fexp_spec e1 loc_Exact Hm2nn) as [Hm3 He3].
  destruct (shr_fexp prec emax m2 e1 loc_Exact) as [mrs3 e3]. cbn [fst snd] in Hm3, He3.
  pose proof (Zdigits2_shiftr (m := m2)
                (n := Z.max 0 (Z.max (Zdigits2 m2 + e1 - 53) (-1074) - e1)) Hm2nn) as Hd3.
  rewrite <- Hm3 in Hd3.
  destruct (shr_m mrs3) as [|q|q] eqn:Eq3.
  - exfalso. simpl Zdigits2 in Hd3. lia.
  - replace (emax - prec) with 971 by reflexivity.
    destruct (Z.leb_spec e3 971) as [Hle|Hgt]; [exfalso; lia | reflexivity].
  - exfalso.
    pose proof (proj2 (Z.shiftr_nonneg m2
                  (Z.max 0 (Z.max (Zdigits2 m2 + e1 - 53) (-1074) - e1))) Hm2nn).
    lia.
Qed.

Lemma binary_round_overflow (sx : bool) (q : positive) :
  2 ^ 1024 <= Zpos q -> binary_round prec emax sx q 0 = S754_infinity sx.
Proof.
  intros Hq. unfold binary_round.
  pose proof (shl_align_digits q 0 (fexp prec emax (Zpos (digits2_pos q) + 0))) as Hd.
  destruct (shl_align q 0 (fexp prec emax (Zpos (digits2_pos q) + 0))) as [mz ez].
  cbn [fst snd] in Hd.
  assert (Hlog : 1024 <= Z.log2 (Zpos q)).
  { change 1024 with (Z.log2 (2 ^ 1024)). now apply Z.log2_le_mono. }
  rewrite (@Zdigits2_log2 (Zpos q)) in Hd by lia.
  apply binary_round_aux_overflow; lia.
Qed.

(** An integer of 1025 bits or more is beyond every float. *)
Lemma float_of_int_overflow (n : Z) :
  2 ^ 1024 <= Z.abs n -> PrimFloat.is_infinity (float_of_int n) = true.
Proof.
  intros Hn. unfold float_of_int.
  destruct n as [|q|q]; cbn [binary_normalize].
  - exfalso. cbn in Hn. lia.
  - rewrite binary_round_overflow by exact Hn. reflexivity.
  - rewrite binary_round_overflow by exact Hn. reflexivity.
Qed.

Lemma fin_not_infinity (K : Z) (x : float) :
  fin K x -> PrimFloat.is_infinity x = false.
Proof.
  intros Hx. apply fin_is_finite in Hx. unfold is_finite in Hx.
  destruct (PrimFloat.is_infinity x); [|reflexivity].
  rewrite orb_true_r in Hx. discriminate Hx.
Qed.

Lemma binary_round_aux_opp (mx ex : Z) (lx : location) :
  binary_round_aux prec emax true mx ex lx
  = SFopp (binary_round_aux prec emax false mx ex lx).
Proof.
  unfold binary_round_aux.
  destruct (shr_fexp prec emax mx ex lx) as [mrs1 e1].
  destruct (shr_fexp prec emax _ e1 loc_Exact) as [mrs3 e3].
  destruct (shr_m mrs3); [reflexivity| |reflexivity].
  destruct (e3 <=? emax - prec); reflexivity.
Qed.

(** Below [2^63] in absolute value the conversion is the rounding of the
    integer. *)
Lemma float_of_int_Prim2SF (n : Z) :
  Z.abs n < 2 ^ 63 ->
  Prim2SF (float_of_int n) = binary_normalize prec emax n 0 false.
Proof.
  intros Hn. destruct n as [|q|q].
  - reflexivity.
  - apply float_of_int_spec. lia.
  - unfold float_of_int. cbn [binary_normalize].
    assert (Hq : 0 <= Zpos q < 2 ^ 63) by lia.
    pose proof (float_of_int_spec Hq) as Hp. cbn [binary_normalize] in Hp.
    assert (Ho : binary_round prec emax true q 0
                 = Prim2SF (- float_of_int (Zpos q))%float).
    { rewrite opp_spec, Hp. unfold binary_round.
      destruct (shl_align q 0 _) as [mz ez]. apply binary_round_aux_opp. }
    rewrite Ho, SF2Prim_Prim2SF. reflexivity.
Qed.

(** [float(n)] for [n] between 1 and 10000 in absolute value: finite, of
    magnitude 1 to 15. *)
Lemma signed_divisor_mag (n : Z) :
  1 <= Z.abs n <= 10000 ->
  fin 15 (float_of_int n) /\ mag_ge 1 (Prim2SF (float_of_int n)).
Proof.
  intros Hn. unfold fin. rewrite float_of_int_Prim2SF by lia.
  assert (Hlog : forall q : positive, Zpos q <= 10000 -> 0 <= Z.log2 (Zpos q) <= 13).
  { intros q Hq. split; [apply Z.log2_nonneg|].
    change 13 with (Z.log2 10000). apply Z.log2_le_mono. lia. }
  destruct n as [|q|q]; [cbn in Hn; lia| |];
    (assert (Hq : Zpos q <= 10000) by lia; specialize (Hlog q Hq);
     assert (Hd : Zdigits2 (Zpos q) = Z.log2 (Zpos q) + 1) by (apply Zdigits2_log2; lia);
     cbn [binary_normalize]; split;
     [ replace 15 with (14 + 1) by lia; apply binary_round_mag; lia
     | apply binary_round_mag_ge; lia ]).
Qed.

Lemma int_to_float_overflow (n : Z) :
  2 ^ 1024 <= Z.abs n -> int_to_float n = Raised OverflowError.
Proof.
  intros Hn. unfold int_to_float. now rewrite float_of_int_overflow.
Qed.

Lemma int_to_float_fin (n : Z) (K : Z) :
  fin K (float_of_int n) -> int_to_float n = Returned (float_of_int n).
Proof.
  intros Hn. unfold int_to_float. now rewrite (@fin_not_infinity _ _ Hn).
Qed.

Lemma float_pow2_fin (LT : Libm float) (a : float) (K : Z) :
  fin K (pow2 a) -> float_pow2 a = Returned (pow2 a).
Proof.
  intros Ha. unfold float_pow2. now rewrite (@fin_not_infinity _ _ Ha).
Qed.

Lemma ax_set_ylim_fin (lo hi : float) (K : Z) :
  fin K lo -> fin K hi -> ax_set_ylim (lo, hi) = Returned (lo, hi).
Proof.
  intros Hlo Hhi. unfold ax_set_ylim. cbn [fst snd].
  now rewrite (@fin_is_finite _ _ Hlo), (@fin_is_finite _ _ Hhi).
Qed.

Lemma ax_set_ylim_nan (lo hi : float) :
  nan_float lo -> ax_set_ylim (lo, hi) = Raised ValueError.
Proof.
  intros Hlo. unfold ax_set_ylim. cbn [fst].
  assert (Hnf : not_finite lo) by (unfold not_finite; now rewrite Hlo).
  now rewrite (@not_finite_is_finite _ Hnf).
Qed.

(** Finite curves give finite limits. *)
Lemma ylim_fin (LT : Libm float) (ps : ParameterSet float) :
  (forall x : float, In x (all_p_values ps) -> fin 45 x) ->
  exists lo hi : float,
    set_ylim ps = Returned (lo, hi) /\ fin 48 lo /\ fin 48 hi.
Proof.
  intros Hall.
  destruct (set_ylim_Returned ps) as (lo & hi & Hlo & Hhi & Hlim).
  apply array_min_In in Hlo. apply array_max_In in Hhi.
  assert (Flo : fin 45 lo) by now apply Hall.
  assert (Fhi : fin 45 hi) by now apply Hall.
  assert (Ft : fin (-3) 0x1.999999999999ap-4%float)
    by (apply finb_spec; vm_compute; reflexivity).
  eexists _, _. split; [exact Hlim|]. unfold padding.
  cbn [add sub mul div neg of_int tenth float_arith].
  split; fin_auto.
Qed.

End Refused.

(** ** Binary64: a run with a negative [N] *)

Section SignedOutlets.

Variable LT : Libm float.
Variable ps : ParameterSet float.
Variable n : Z.
Hypothesis Hvalid : float_valid ps.
Hypothesis Hexp : between 0 2 (np_exp (mul (neg (beta ps)) (a_star ps))).
Hypothesis Hpow : between 0 128 (pow2 (a_star ps)).
Hypothesis Hn : (1 <= Z.abs n <= 10000)%Z.

Lemma signed_fin_C_op_F (f : float) : In f F -> fin 36 (C_op_F (with_N ps n) f).
Proof.
  intros Hf. destruct (grid_fin Hf) as [Hf1 Hf2].
  destruct Hvalid as (Hpi & Hc & Hh & Hv & _ & Ha & Hb & Hk & Hd).
  destruct (@signed_divisor_mag _ Hn) as [HN _].
  assert (Hfin1 : fin 26 (H ps)) by by_range.
  assert (Hfin2 : fin 16 (v ps)) by by_range.
  unfold C_op_F. cbn [with_N H v N].
  cbn [add sub mul div neg of_int float_arith] in *. fin_auto.
Qed.

Lemma signed_fin_P_endh_at (f : float) : In f F -> fin 43 (P_endh_at (with_N ps n) f).
Proof.
  intros Hf. destruct (grid_fin Hf) as [Hf1 Hf2].
  pose proof (signed_fin_C_op_F Hf) as Hcost.
  destruct (@signed_divisor_mag _ Hn) as [_ HN].
  destruct Hvalid as (Hpi & _).
  pose proof (@fin_franchised LT ps Hvalid Hexp Hpow) as HX.
  unfold franchised_profit in HX.
  assert (Hfin3 : fin 1 (pi ps)) by by_range.
  unfold P_endh_at.
  change (p (with_N ps n) (a_star (with_N ps n))) with (p ps (a_star ps)).
  change (c (with_N ps n) (a_star (with_N ps n))) with (c ps (a_star ps)).
  change (pi (with_N ps n)) with (pi ps).
  change (N (with_N ps n)) with n.
  cbn [add sub mul div neg of_int float_arith] in *. fin_auto.
Qed.

Lemma signed_fin_all_p_values (x : float) :
  In x (all_p_values (with_N ps n)) -> fin 45 x.
Proof.
  unfold all_p_values. rewrite !in_app_iff. intros [Hin | [Hin | Hin]].
  - unfold P_base in Hin. apply in_map_iff in Hin as (f & <- & Hf).
    change (P_base_at (with_N ps n) f) with (P_base_at ps f).
    eapply fin_weaken; [now apply fin_P_base_at | lia].
  - unfold P_endh in Hin. apply in_map_iff in Hin as (f & <- & Hf).
    eapply fin_weaken; [now apply signed_fin_P_endh_at | lia].
  - destruct (In_nth _ _ 0%float Hin) as (i & Hi & <-).
    rewrite P_dup_length in Hi.
    rewrite P_dup_nth, P_endh_nth by assumption.
    assert (Hf : In (nth i F 0%float) F) by (apply nth_In; now rewrite F_length).
    destruct (grid_fin Hf) as [Hf1 Hf2].
    pose proof (signed_fin_P_endh_at Hf) as He.
    destruct Hvalid as (_ & _ & _ & _ & _ & _ & _ & _ & Hd).
    assert (Hfin4 : fin 1 (delta ps)) by by_range.
    change (delta (with_N ps n)) with (delta ps).
    cbn [add sub mul div neg of_int float_arith] in *. fin_auto.
Qed.

End SignedOutlets.

Section Run.

Variable LT : Libm float.
Variable ps : ParameterSet float.
Hypothesis Hvalid : float_valid ps.
Hypothesis Hexp : between 0 2 (np_exp (mul (neg (beta ps)) (a_star ps))).
Hypothesis Hpow : between 0 128 (pow2 (a_star ps)).

Lemma effort_accepted (n : Z) :
  float_pow2 (a_star (with_N ps n)) = Returned (pow2 (a_star ps)).
Proof.
  assert (Hp : fin 8 (pow2 (a_star ps))) by by_range.
  exact (@float_pow2_fin _ _ _ Hp).
Qed.

(** The run with the slider values. *)
Lemma run_in_ranges :
  exists lo hi : float,
    steamlitstuff ps
    = Returned {| grid := F; base := P_base ps; endh := P_endh ps;
                  dup := P_dup ps; ylim := (lo, hi) |}
    /\ set_ylim ps = Returned (lo, hi)
    /\ fin 48 lo /\ fin 48 hi.
Proof.
  assert (Hp : fin 8 (pow2 (a_star ps))) by by_range.
  pose proof Hvalid as (_ & _ & _ & _ & Hn & _).
  destruct (divisor_mag Hn) as [HN _].
  destruct (@ylim_fin LT ps) as (lo & hi & Hlim & Hlo & Hhi).
  { intros x Hx. eapply fin_all_p_values; eassumption. }
  exists lo, hi. split; [|split; [exact Hlim | split; assumption]].
  unfold steamlitstuff.
  rewrite (@float_pow2_fin _ _ _ Hp), (@int_to_float_fin _ _ HN), Hlim.
  cbn [bind]. rewrite (@ax_set_ylim_fin _ _ _ Hlo Hhi). reflexivity.
Qed.

(** The run with another nonzero number of outlets, negative ones
    included. *)
Lemma run_signed (n : Z) :
  (1 <= Z.abs n <= 10000)%Z ->
  exists lo hi : float,
    steamlitstuff (with_N ps n)
    = Returned {| grid := F; base := P_base (with_N ps n);
                  endh := P_endh (with_N ps n); dup := P_dup (with_N ps n);
                  ylim := (lo, hi) |}
    /\ set_ylim (with_N ps n) = Returned (lo, hi)
    /\ fin 48 lo /\ fin 48 hi.
Proof.
  intros Hn.
  destruct (@signed_divisor_mag _ Hn) as [HN _].
  destruct (@ylim_fin LT (with_N ps n)) as (lo & hi & Hlim & Hlo & Hhi).
  { intros x Hx. eapply signed_fin_all_p_values; eassumption. }
  exists lo, hi. split; [|split; [exact Hlim | split; assumption]].
  unfold steamlitstuff.
  rewrite effort_accepted. change (N (with_N ps n)) with n.
  rewrite (@int_to_float_fin _ _ HN), Hlim.
  cbn [bind]. rewrite (@ax_set_ylim_fin _ _ _ Hlo Hhi). reflexivity.
Qed.

(** The limits of a run with [N = 0]. *)
Lemma no_outlets_ylim :
  exists lo hi : float,
    set_ylim (with_N ps 0) = Returned (lo, hi) /\ nan_float lo /\ nan_float hi.
Proof.
  apply (@nan_ylim LT (with_N ps 0) (nth 199 (P_endh (with_N ps 0)) 0%float)).
  - assert (Hi : (199 < 200)%nat) by lia.
    exact (proj1 (proj2 (@curve_values_In float _ LT (with_N ps 0)
                           199%nat 0%float Hi))).
  - rewrite P_endh_nth by lia. rewrite F_last_float. now apply P_endh_at_nan.
Qed.

Lemma no_outlets_curves (i : nat) :
  (i < 200)%nat ->
  not_finite (nth i (P_endh (with_N ps 0)) 0%float)
  /\ not_finite (nth i (P_dup (with_N ps 0)) 0%float).
Proof.
  intros Hi.
  assert (Hf : In (nth i F 0%float) F) by (apply nth_In; now rewrite F_length).
  assert (He : not_finite (nth i (P_endh (with_N ps 0)) 0%float)).
  { rewrite P_endh_nth by assumption. now apply P_endh_at_not_finite. }
  split; [exact He|]. rewrite P_dup_nth by assumption.
  eapply sub_not_finite_l; [exact He|]. now apply penalty_fin.
Qed.

Lemma run_no_outlets : steamlitstuff (with_N ps 0) = Raised ValueError.
Proof.
  destruct no_outlets_ylim as (lo & hi & Hlim & Hlo & _).
  unfold steamlitstuff. rewrite effort_accepted, Hlim.
  cbn [bind with_N N]. now rewrite (@ax_set_ylim_nan _ hi Hlo).
Qed.

Lemma run_too_many_outlets (n : Z) :
  (2 ^ 1024 <= Z.abs n)%Z -> steamlitstuff (with_N ps n) = Raised OverflowError.
Proof.
  intros Hn. unfold steamlitstuff. rewrite effort_accepted.
  change (N (with_N ps n)) with n. now rewrite (@int_to_float_overflow _ Hn).
Qed.

End Run.

Lemma run_no_DomainError (LT : Libm float) (ps : ParameterSet float) :
  steamlitstuff ps <> Raised DomainError.
Proof.
  unfold steamlitstuff, float_pow2, int_to_float, ax_set_ylim.
  destruct (set_ylim_Returned ps) as (lo & hi & _ & _ & ->).
  cbn [bind].
  repeat match goal with
         | |- context [if ?b then _ else _] => destruct b; cbn [bind]
         end; discriminate.
Qed.

Lemma float_defaults_valid : float_valid float_defaults.
Proof.
  unfold float_valid, between. cbn [float_defaults pi C_op H v N a_star beta kappa delta].
  repeat split; try (vm_compute; reflexivity); lia.
Qed.

(** ** C1: no domain check *)

(** C1 as amended.  The script checks no domain and no statement of it raises
    [DomainError]; what a number of outlets outside the slider range does
    depends on the number.  In binary64, with the other sliders in their
    ranges and [libm] as in C8:
    - with [N = 0] nothing is refused before the computation: lines 46-48 run,
      every entry of [P_endh] and [P_dup] is an infinity or a NaN, lines 75-77
      compute two NaN limits, and the run ends at line 78 with the
      [ValueError] of [ax.set_ylim];
    - with [N] from -10000 to -1 the run goes through and hands the curves and
      finite limits to the plot;
    - with [N] of [2^1024] or more in absolute value the run ends at line 47
      with the [OverflowError] of the conversion to a float;
    - with [N] in the slider range the run goes through with finite limits;
    - no run, whatever the parameter set and [libm], ends in [DomainError]. *)
Theorem no_domain_check (LT : Libm float) (ps : ParameterSet float) :
  float_valid ps ->
  between 0 2 (np_exp (mul (neg (beta ps)) (a_star ps))) ->
  between 0 128 (pow2 (a_star ps)) ->
  ((forall i : nat, (i < 200)%nat ->
      PrimFloat.is_finite (nth i (P_endh (with_N ps 0)) 0%float) = false
      /\ PrimFloat.is_finite (nth i (P_dup (with_N ps 0)) 0%float) = false)
   /\ (exists lo hi : float,
         set_ylim (with_N ps 0) = Returned (lo, hi)
         /\ PrimFloat.is_nan lo = true /\ PrimFloat.is_nan hi = true)
   /\ steamlitstuff (with_N ps 0) = Raised ValueError)
  /\ (forall n : Z, (-10000 <= n <= -1)%Z ->
        exists lo hi : float,
          steamlitstuff (with_N ps n)
          = Returned {| grid := F; base := P_base (with_N ps n);
                        endh := P_endh (with_N ps n); dup := P_dup (with_N ps n);
                        ylim := (lo, hi) |}
          /\ set_ylim (with_N ps n) = Returned (lo, hi)
          /\ PrimFloat.is_finite lo = true /\ PrimFloat.is_finite hi = true)
  /\ (forall n : Z, (2 ^ 1024 <= Z.abs n)%Z ->
        steamlitstuff (with_N ps n) = Raised OverflowError)
  /\ (exists lo hi : float,
        steamlitstuff ps
        = Returned {| grid := F; base := P_base ps; endh := P_endh ps;
                      dup := P_dup ps; ylim := (lo, hi) |}
        /\ set_ylim ps = Returned (lo, hi)
        /\ PrimFloat.is_finite lo = true /\ PrimFloat.is_finite hi = true)
  /\ (forall (L : Libm float) (q : ParameterSet float),
        steamlitstuff (LT := L) q <> Raised DomainError).
Proof.
  intros Hvalid Hexp Hpow.
  split; [split; [|split]|split; [|split; [|split]]].
  - intros i Hi.
    destruct (@no_outlets_curves LT ps Hvalid Hexp Hpow i Hi) as [He Hd].
    split; now apply not_finite_is_finite.
  - destruct (@no_outlets_ylim LT ps Hvalid) as (lo & hi & Hlim & Hlo & Hhi).
    exists lo, hi. split; [exact Hlim|]. split; now apply nan_float_is_nan.
  - now apply run_no_outlets.
  - intros n Hn.
    assert (Hn' : (1 <= Z.abs n <= 10000)%Z) by lia.
    destruct (@run_signed LT ps Hvalid Hexp Hpow n Hn')
      as (lo & hi & Hrun & Hlim & Hlo & Hhi).
    exists lo, hi. split; [exact Hrun|]. split; [exact Hlim|].
    split; eapply (@fin_is_finite _ _); eassumption.
  - intros n Hn. now apply run_too_many_outlets.
  - destruct (@run_in_ranges LT ps Hvalid Hexp Hpow)
      as (lo & hi & Hrun & Hlim & Hlo & Hhi).
    exists lo, hi. split; [exact Hrun|]. split; [exact Hlim|].
    split; eapply (@fin_is_finite _ _); eassumption.
  - intros L q. apply run_no_DomainError.
Qed.

Lemma no_domain_check_witness :
  steamlitstuff (LT := libm_at_defaults) (with_N float_defaults 0)
  = Raised ValueError
  /\ steamlitstuff (LT := libm_at_defaults) (with_N float_defaults (10 ^ 400))
     = Raised OverflowError.
Proof.
  assert (He : between 0 2 (np_exp (Libm := libm_at_defaults)
                              (mul (neg (beta float_defaults)) (a_star float_defaults))))
    by (split; vm_compute; reflexivity).
  assert (Hp : between 0 128 (pow2 (Libm := libm_at_defaults) (a_star float_defaults)))
    by (split; vm_compute; reflexivity).
  destruct (@no_domain_check libm_at_defaults float_defaults
              float_defaults_valid He Hp) as ((_ & _ & Hzero) & _ & Hbig & _).
  split; [exact Hzero|]. apply Hbig. apply Z.leb_le. vm_compute. reflexivity.
Defined.

(** C1 as stated fails: [N = 0] is outside the declared domain, and the run
    with the other sliders at their defaults does not end in [DomainError]
    before the computation; it computes the curves and ends in the
    [ValueError] of line 78. *)
Lemma no_DomainError_at_N_0 :
  ~ (forall (LT : Libm float) (ps : ParameterSet float),
       ~ float_valid ps -> steamlitstuff ps = Raised DomainError).
Proof.
  intros Hclaim.
  assert (Hout : ~ float_valid (with_N float_defaults 0)).
  { unfold float_valid. cbn [with_N N]. intros (_ & _ & _ & _ & Hn & _). lia. }
  specialize (Hclaim libm_at_defaults _ Hout).
  assert (Hp : between 0 128 (pow2 (Libm := libm_at_defaults) (a_star float_defaults)))
    by (split; vm_compute; reflexivity).
  rewrite (@run_no_outlets libm_at_defaults float_defaults
             float_defaults_valid Hp) in Hclaim.
  discriminate Hclaim.
Qed.

(** ** C2: the y-axis limits *)

(** C2.  The limits handed to the plot are
    [(p_min - padding, p_max + padding)], where [p_min] and [p_max] are the
    least and greatest entry of the three curves concatenated and
    [padding = (p_max - p_min) * 0.1]; every entry of every curve lies
    between the two limits.  This holds in exact arithmetic for a valid
    parameter set, and in binary64 under the float comparison [<=] for
    slider values in the declared ranges and [libm] results as in C8. *)
Theorem ylim_encloses_curves :
  (forall ps : ParameterSet R,
     valid ps ->
     exists (ev : Evaluation R) (p_min p_max : R),
       evaluate ps = Returned ev
       /\ is_min p_min (base ev ++ endh ev ++ dup ev)
       /\ is_max p_max (base ev ++ endh ev ++ dup ev)
       /\ ylim ev
          = (p_min - (p_max - p_min) * 0.1, p_max + (p_max - p_min) * 0.1)%R
       /\ forall i : nat, (i < 200)%nat ->
            (fst (ylim ev) <= nth i (base ev) 0 <= snd (ylim ev)
             /\ fst (ylim ev) <= nth i (endh ev) 0 <= snd (ylim ev)
             /\ fst (ylim ev) <= nth i (dup ev) 0 <= snd (ylim ev))%R)
  /\ (forall (LT : Libm float) (ps : ParameterSet float),
        float_valid ps ->
        between 0 2 (np_exp (mul (neg (beta ps)) (a_star ps))) ->
        between 0 128 (pow2 (a_star ps)) ->
        exists (lim : float * float) (p_min p_max : float),
          set_ylim ps = Returned lim
          /\ In p_min (P_base ps ++ P_endh ps ++ P_dup ps)
          /\ In p_max (P_base ps ++ P_endh ps ++ P_dup ps)
          /\ (forall x : float, In x (P_base ps ++ P_endh ps ++ P_dup ps) ->
                PrimFloat.leb p_min x = true /\ PrimFloat.leb x p_max = true)
          /\ lim = (sub p_min (mul (sub p_max p_min) tenth),
                    add p_max (mul (sub p_max p_min) tenth))
          /\ forall i : nat, (i < 200)%nat ->
               encloses lim (nth i (P_base ps) 0%float)
               /\ encloses lim (nth i (P_endh ps) 0%float)
               /\ encloses lim (nth i (P_dup ps) 0%float)).
Proof.
  split.
  - intros ps _.
    destruct (set_ylim_Returned ps) as (lo & hi & Hlo & Hhi & Hlim).
    destruct (evaluate_Returned ps) as (lim & Hlim' & Hev).
    rewrite Hlim in Hlim'. injection Hlim' as <-.
    apply array_min_is_min in Hlo. apply array_max_is_max in Hhi.
    eexists. exists lo, hi. split; [exact Hev|].
    cbn [base endh dup ylim fst snd]. unfold padding.
    cbn [add sub mul tenth R_arith].
    split; [exact Hlo|]. split; [exact Hhi|]. split; [reflexivity|].
    destruct Hlo as [Hlo_in Hlo_le]. destruct Hhi as [_ Hhi_ge].
    pose proof (Hhi_ge lo Hlo_in) as Hspan.
    intros i Hi. destruct (curve_values_In ps 0%R Hi) as (Hb & He & Hd).
    pose proof (Hlo_le _ Hb). pose proof (Hhi_ge _ Hb).
    pose proof (Hlo_le _ He). pose proof (Hhi_ge _ He).
    pose proof (Hlo_le _ Hd). pose proof (Hhi_ge _ Hd).
    repeat split; lra.
  - intros LT ps Hvalid Hexp Hpow.
    destruct (@ylim_encloses_float LT ps Hvalid Hexp Hpow)
      as (lo & hi & _ & _ & Ilo & Ihi & Hord & Hlim & Henc).
    eexists. exists lo, hi. split; [exact Hlim|].
    split; [exact Ilo|]. split; [exact Ihi|]. split; [exact Hord|].
    split; [reflexivity|].
    intros i Hi. destruct (curve_values_In ps 0%float Hi) as (Hb & He & Hd).
    split; [|split]; now apply Henc.
Qed.

Lemma ylim_encloses_curves_witness :
  exists ev : Evaluation R,
    evaluate defaults = Returned ev
    /\ (fst (ylim ev) <= nth 100 (dup ev) 0 <= snd (ylim ev))%R.
Proof.
  destruct (proj1 ylim_encloses_curves defaults defaults_valid)
    as (ev & lo & hi & Hev & _ & _ & _ & Hin).
  exists ev. split; [exact Hev|].
  apply (Hin 100%nat). lia.
Defined.

(** ** C3: the duplication curve *)

(** C3.  In any arithmetic, and so bit for bit in binary64 with any [libm],
    the pass returns and, at every index [i] of the 200-point grid,
    [P_dup[i]] is [P_endh[i] - delta * grid[i] * (1 - grid[i])], evaluated
    left to right as line 48 writes it. *)
Theorem P_dup_pointwise {T : Type} {AT : Arith T} {LT : Libm T}
        (ps : ParameterSet T) :
  exists ev,
    evaluate ps = Returned ev
    /\ forall (i : nat) (d : T), (i < 200)%nat ->
       nth i (dup ev) d =
       sub (nth i (endh ev) d)
           (mul (mul (delta ps) (nth i (grid ev) d))
                (sub (of_int 1) (nth i (grid ev) d))).
Proof.
  destruct (evaluate_Returned ps) as (lim & _ & Hev).
  eexists. split; [exact Hev|].
  intros i d Hi. cbn [dup endh grid]. now apply P_dup_nth.
Qed.

Lemma P_dup_pointwise_witness :
  exists ev,
    evaluate defaults = Returned ev
    /\ nth 100 (dup ev) 0%R =
       (nth 100 (endh ev) 0 - 0.10 * nth 100 (grid ev) 0 * (1 - nth 100 (grid ev) 0))%R.
Proof.
  destruct (P_dup_pointwise defaults) as (ev & Hev & Hdup).
  exists ev. split; [exact Hev|].
  apply (Hdup 100%nat 0%R). lia.
Defined.

(** ** C4: the grid *)

(** C4.  The grid every pass returns is [F].  In binary64 it has 200
    entries, starts at exactly [0.0], ends at exactly [1.0] and is strictly
    increasing; in exact arithmetic the same holds and consecutive entries
    are [1/199] apart. *)
Theorem grid_shape :
  (forall (T : Type) (AT : Arith T) (LT : Libm T) (ps : ParameterSet T),
      exists ev, evaluate ps = Returned ev /\ grid ev = F)
  /\ (length (F (T := float)) = 200%nat
      /\ nth 0 (F (T := float)) 0%float = 0%float
      /\ nth 199 (F (T := float)) 0%float = 1%float
      /\ forall i j : nat, (i < j < 200)%nat ->
           PrimFloat.ltb (nth i F 0%float) (nth j F 0%float) = true)
  /\ (length (F (T := R)) = 200%nat
      /\ nth 0 (F (T := R)) 0%R = 0%R
      /\ nth 199 (F (T := R)) 0%R = 1%R
      /\ (forall i j : nat, (i < j < 200)%nat -> (nth i F 0 < nth j F 0)%R)
      /\ (forall i : nat, (S i < 200)%nat ->
            (nth (S i) F 0 - nth i F 0 = 1 / 199)%R)).
Proof.
  split; [|split].
  - intros T AT LT ps. destruct (evaluate_Returned ps) as (lim & _ & Hev).
    eexists. split; [exact Hev | reflexivity].
  - split; [apply F_length|]. split; [vm_compute; reflexivity|].
    split; [vm_compute; reflexivity|].
    intros i j Hij. apply increasing_nth.
    + vm_compute. reflexivity.
    + now rewrite F_length.
  - split; [apply F_length|].
    split; [rewrite F_nth_R by lia; cbn; lra|].
    split; [rewrite F_nth_R by lia; cbn; lra|].
    split; [exact F_nth_lt|].
    intros i Hi. rewrite !F_nth_R by lia.
    rewrite Nat2Z.inj_succ, succ_IZR. lra.
Qed.

Lemma grid_shape_witness :
  PrimFloat.ltb (nth 198 F 0%float) (nth 199 F 0%float) = true
  /\ (nth 0 F 0 < nth 1 F 0)%R
  /\ (nth 1 F 0 - nth 0 F 0 = 1 / 199)%R.
Proof.
  destruct grid_shape as (_ & (_ & _ & _ & Hfl) & (_ & _ & _ & Hlt & Hstep)).
  split; [apply Hfl; lia|]. split; [apply Hlt; lia | apply Hstep; lia].
Defined.

(** ** C5: the endpoints *)

(** C5.  The curves at the grid endpoints.  In exact arithmetic, for a
    valid parameter set: at [F = 0] the baseline curve is [pi - C_op] and
    the endogenous-overhead curve is [pi - (H + v*N)/N]; at [F = 1] both are
    [p(a_star) * pi - c(a_star)], and that value stays the same when [C_op],
    [H] and [v] are replaced.  In binary64, for slider values in the
    declared ranges and [libm] results as in C8, the same four equalities
    hold under the float comparison [==], and the franchised profit is the
    same float whatever [C_op], [H] and [v] are. *)
Theorem endpoint_values :
  (forall ps : ParameterSet R,
     valid ps ->
     (nth 0 (P_base ps) 0 = pi ps - C_op ps
      /\ nth 0 (P_endh ps) 0 = pi ps - (H ps + v ps * IZR (N ps)) / IZR (N ps)
      /\ nth 199 (P_base ps) 0 = p ps (a_star ps) * pi ps - c ps (a_star ps)
      /\ nth 199 (P_endh ps) 0 = p ps (a_star ps) * pi ps - c ps (a_star ps)
      /\ forall c_op h w : R,
           nth 199 (P_base (with_overheads ps c_op h w)) 0 = nth 199 (P_base ps) 0
           /\ nth 199 (P_endh (with_overheads ps c_op h w)) 0
              = nth 199 (P_endh ps) 0)%R)
  /\ (forall (LT : Libm float) (ps : ParameterSet float),
        float_valid ps ->
        between 0 2 (np_exp (mul (neg (beta ps)) (a_star ps))) ->
        between 0 128 (pow2 (a_star ps)) ->
        PrimFloat.eqb (nth 0 (P_base ps) 0%float) (sub (pi ps) (C_op ps)) = true
        /\ PrimFloat.eqb
             (nth 0 (P_endh ps) 0%float)
             (sub (pi ps)
                  (div (add (H ps) (mul (v ps) (of_int (N ps)))) (of_int (N ps))))
           = true
        /\ PrimFloat.eqb (nth 199 (P_base ps) 0%float) (franchised_profit ps) = true
        /\ PrimFloat.eqb (nth 199 (P_endh ps) 0%float) (franchised_profit ps) = true
        /\ forall c_op h w : float,
             franchised_profit (with_overheads ps c_op h w) = franchised_profit ps).
Proof.
  split.
  - intros ps _. split; [apply P_base_first|]. split; [apply P_endh_first|].
    split; [apply P_base_last|]. split; [apply P_endh_last|].
    intros c_op h w. rewrite !P_base_last, !P_endh_last. split; reflexivity.
  - intros LT ps Hvalid Hexp Hpow.
    split; [now apply P_base_first_float|].
    split; [now apply P_endh_first_float|].
    split; [now apply P_base_last_float|].
    split; [now apply P_endh_last_float | reflexivity].
Qed.

Lemma endpoint_values_witness :
  (nth 0 (P_base defaults) 0 = 0.23 - 0.20
   /\ nth 0 (P_endh defaults) 0 = 0.23 - (10000000 + 5000 * 500) / 500)%R.
Proof.
  destruct (proj1 endpoint_values defaults defaults_valid) as (Hb & He & _).
  split; [exact Hb | exact He].
Defined.

(** ** C6: the penalty lowers the curve *)

(** C6 as amended.  For every index [i], [P_dup[i] <= P_endh[i]], with
    equality at both endpoints: in exact arithmetic for a valid parameter
    set ([delta >= 0]), and in binary64 under the float comparisons for
    slider values in the declared ranges and [libm] results as in C8.  In
    exact arithmetic, when [delta > 0], equality holds at the endpoints
    only. *)
Theorem P_dup_below_P_endh :
  (forall (ps : ParameterSet R) (i : nat),
     valid ps -> (0 <= delta ps)%R -> (i < 200)%nat ->
     (nth i (P_dup ps) 0 <= nth i (P_endh ps) 0)%R
     /\ (i = 0%nat \/ i = 199%nat ->
         nth i (P_dup ps) 0%R = nth i (P_endh ps) 0%R)
     /\ ((0 < delta ps)%R ->
         (nth i (P_dup ps) 0%R = nth i (P_endh ps) 0%R
          <-> i = 0%nat \/ i = 199%nat)))
  /\ (forall (LT : Libm float) (ps : ParameterSet float),
        float_valid ps ->
        between 0 2 (np_exp (mul (neg (beta ps)) (a_star ps))) ->
        between 0 128 (pow2 (a_star ps)) ->
        (forall i : nat, (i < 200)%nat ->
           PrimFloat.leb (nth i (P_dup ps) 0%float) (nth i (P_endh ps) 0%float)
           = true)
        /\ PrimFloat.eqb (nth 0 (P_dup ps) 0%float) (nth 0 (P_endh ps) 0%float)
           = true
        /\ PrimFloat.eqb (nth 199 (P_dup ps) 0%float) (nth 199 (P_endh ps) 0%float)
           = true).
Proof.
  split.
  - intros ps i _ Hd Hi. rewrite P_dup_nth by assumption.
    cbn [sub mul of_int R_arith].
    pose proof (penalty_nonneg Hd Hi) as Hnn.
    pose proof (@penalty_endpoints (delta ps) i) as Hend.
    split; [lra|]. split; [intros He; specialize (Hend He); lra|].
    intros Hpos. split; [|intros He; specialize (Hend He); lra].
    intros Heq.
    destruct (Nat.eq_dec i 0) as [|Hi0]; [now left|].
    destruct (Nat.eq_dec i 199) as [|Hi199]; [now right|].
    assert (Hint : (0 < i < 199)%nat) by lia.
    pose proof (penalty_pos Hpos Hint). lra.
  - intros LT ps Hvalid Hexp Hpow. split.
    + intros i Hi. now apply P_dup_le_P_endh_float.
    + now apply P_dup_endpoints_float.
Qed.

Lemma P_dup_below_P_endh_witness :
  (nth 100 (P_dup defaults) 0 <= nth 100 (P_endh defaults) 0)%R
  /\ nth 100 (P_dup defaults) 0%R <> nth 100 (P_endh defaults) 0%R.
Proof.
  assert (Hd : (0 <= delta defaults)%R) by (cbn; lra).
  assert (Hp : (0 < delta defaults)%R) by (cbn; lra).
  assert (Hi : (100 < 200)%nat) by lia.
  destruct (proj1 P_dup_below_P_endh defaults 100%nat defaults_valid Hd Hi)
    as (Hle & _ & Hiff).
  split; [exact Hle|]. intros Heq. apply (Hiff Hp) in Heq. lia.
Defined.

(** C6 as stated fails: with [delta = 0], a value the slider offers, the two
    curves also agree at the interior index 1. *)
Lemma P_dup_equality_not_only_at_endpoints :
  ~ (forall (ps : ParameterSet R) (i : nat),
       valid ps -> (0 <= delta ps)%R -> (i < 200)%nat ->
       (nth i (P_dup ps) 0 <= nth i (P_endh ps) 0)%R
       /\ (nth i (P_dup ps) 0%R = nth i (P_endh ps) 0%R
           <-> i = 0%nat \/ i = 199%nat)).
Proof.
  intros Hclaim.
  assert (Hv : valid (with_delta defaults 0%R))
    by (apply with_delta_valid; [exact defaults_valid | lra]).
  assert (Hd : (0 <= delta (with_delta defaults 0%R))%R) by (cbn; lra).
  destruct (Hclaim (with_delta defaults 0%R) 1%nat Hv Hd) as [_ [Honly _]]; [lia|].
  assert (Heq : nth 1 (P_dup (with_delta defaults 0%R)) 0%R
                = nth 1 (P_endh (with_delta defaults 0%R)) 0%R).
  { rewrite P_dup_nth by lia. cbn [sub mul of_int R_arith delta with_delta]. ring. }
  destruct (Honly Heq) as [H0 | H199]; discriminate.
Qed.

(** ** C7: the degenerate input *)

(** C7 as amended.  For the degenerate input
    ([pi = C_op = H = v = a_star = 0]) the pass returns; the baseline and
    the endogenous-overhead curve are 0 everywhere and
    [P_dup[i] = -(delta * grid[i] * (1 - grid[i]))]; when moreover
    [delta = 0], all three curves are 0 everywhere and the limits handed to
    the plot are the zero-height range [(0, 0)].  This holds in exact
    arithmetic, and in binary64 under [==] given that [libm] returns
    [exp(-0.0) = 1.0] and [0.0 ** 2 = 0.0]. *)
Theorem degenerate_input :
  (forall ps : ParameterSet R,
     valid ps -> degenerate ps ->
     exists ev : Evaluation R,
       evaluate ps = Returned ev
       /\ (forall i : nat, (i < 200)%nat ->
             (nth i (base ev) 0 = 0
              /\ nth i (endh ev) 0 = 0
              /\ nth i (dup ev) 0
                 = - (delta ps * nth i (grid ev) 0 * (1 - nth i (grid ev) 0)))%R)
       /\ (delta ps = 0%R ->
           (forall i : nat, (i < 200)%nat -> nth i (dup ev) 0%R = 0%R)
           /\ ylim ev = (0%R, 0%R)))
  /\ (forall (LT : Libm float) (ps : ParameterSet float),
        float_valid ps -> float_degenerate ps ->
        np_exp (mul (neg (beta ps)) 0%float) = 1%float ->
        pow2 0%float = 0%float ->
        (forall i : nat, (i < 200)%nat ->
           PrimFloat.eqb (nth i (P_base ps) 0%float) 0 = true
           /\ PrimFloat.eqb (nth i (P_endh ps) 0%float) 0 = true
           /\ PrimFloat.eqb
                (nth i (P_dup ps) 0%float)
                (neg (mul (mul (delta ps) (nth i F 0%float))
                          (sub (of_int 1) (nth i F 0%float))))
              = true)
        /\ (delta ps = 0%float ->
            exists lo hi : float,
              set_ylim ps = Returned (lo, hi)
              /\ PrimFloat.eqb lo 0 = true /\ PrimFloat.eqb hi 0 = true)).
Proof.
  split.
  - intros ps _ Hdeg.
    destruct (set_ylim_Returned ps) as (lo & hi & Hlo & Hhi & Hlim).
    destruct (evaluate_Returned ps) as (lim & Hlim' & Hev).
    rewrite Hlim in Hlim'. injection Hlim' as <-.
    eexists. split; [exact Hev|]. cbn [base endh dup grid ylim].
    split; [intros i Hi; now apply degenerate_curves|].
    intros Hd.
    assert (Hdup : forall i : nat, (i < 200)%nat -> nth i (P_dup ps) 0%R = 0%R).
    { intros i Hi. destruct (degenerate_curves Hdeg Hi) as (_ & _ & ->).
      rewrite Hd. ring. }
    split; [exact Hdup|].
    assert (Hall : forall x : R, In x (all_p_values ps) -> x = 0%R).
    { intros x Hx. destruct (In_all_p_values Hx) as (i & Hi & Hcase).
      destruct (degenerate_curves Hdeg Hi) as (Hb & He & _).
      destruct Hcase as [-> | [-> | ->]]; [exact Hb | exact He | now apply Hdup]. }
    apply array_min_is_min in Hlo. apply array_max_is_max in Hhi.
    rewrite (Hall lo (proj1 Hlo)), (Hall hi (proj1 Hhi)).
    unfold padding. cbn [add sub mul tenth R_arith].
    f_equal; lra.
  - intros LT ps Hvalid Hdeg Hexp Hpow. split.
    + intros i Hi. now apply float_degenerate_curves.
    + intros Hd. now apply float_degenerate_ylim.
Qed.

Lemma degenerate_input_witness :
  exists ev : Evaluation R,
    evaluate (degenerate_ps 0%R) = Returned ev
    /\ nth 100 (base ev) 0%R = 0%R
    /\ ylim ev = (0%R, 0%R).
Proof.
  assert (Hv : valid (degenerate_ps 0%R)) by (apply degenerate_ps_valid; lra).
  destruct (proj1 degenerate_input _ Hv (degenerate_ps_degenerate 0%R))
    as (ev & Hev & Hcurves & Hzero).
  exists ev. split; [exact Hev|].
  split; [apply (Hcurves 100%nat); lia|].
  apply Hzero. reflexivity.
Defined.

(** C7 as stated fails: on the degenerate input with the default
    [delta = 0.10] the duplication curve is not 0 at index 100. *)
Lemma degenerate_input_counterexample :
  ~ (forall ps : ParameterSet R, valid ps -> degenerate ps ->
       exists ev : Evaluation R,
         evaluate ps = Returned ev
         /\ (forall i : nat, (i < 200)%nat ->
               nth i (base ev) 0%R = 0%R /\ nth i (endh ev) 0%R = 0%R
               /\ nth i (dup ev) 0%R = 0%R)
         /\ (fst (ylim ev) < snd (ylim ev))%R).
Proof.
  intros Hclaim.
  assert (Hv : valid (degenerate_ps 0.10%R)) by (apply degenerate_ps_valid; lra).
  destruct (Hclaim _ Hv (degenerate_ps_degenerate 0.10%R)) as (ev & Hev & Hzero & _).
  destruct (evaluate_Returned (degenerate_ps 0.10%R)) as (lim & _ & Hev').
  rewrite Hev' in Hev. injection Hev as <-. cbn [base endh dup] in Hzero.
  destruct (Hzero 100%nat) as (_ & _ & Hdup); [lia|].
  destruct (@degenerate_curves (degenerate_ps 0.10%R) 100%nat) as (_ & _ & Hd);
    [apply degenerate_ps_degenerate | lia |].
  rewrite Hd, F_nth_R in Hdup by lia.
  cbn [delta degenerate_ps] in Hdup. change (IZR (Z.of_nat 100)) with 100%R in Hdup.
  lra.
Qed.

(** ** C8: no arithmetic error *)

(** C8.  In binary64, for slider values in the declared ranges, and given
    that [libm] returns a value in [0, 2] for the one [np.exp] call and a
    value in [0, 128] for the one float power: the divisor [float(N)] is
    finite and not zero, and every value of the helper functions, of the
    per-outlet cost, of the three curves and of the limits is finite (neither
    an infinity nor a NaN). *)
Theorem no_arithmetic_error (LT : Libm float) (ps : ParameterSet float) :
  float_valid ps ->
  between 0 2 (np_exp (mul (neg (beta ps)) (a_star ps))) ->
  between 0 128 (pow2 (a_star ps)) ->
  (PrimFloat.is_finite (of_int (N ps)) = true
   /\ PrimFloat.eqb (of_int (N ps)) 0 = false)
  /\ PrimFloat.is_finite (c ps (a_star ps)) = true
  /\ PrimFloat.is_finite (p ps (a_star ps)) = true
  /\ (forall f : float, In f F ->
        PrimFloat.is_finite (C_op_F ps f) = true
        /\ PrimFloat.is_finite (div (C_op_F ps f) (of_int (N ps))) = true)
  /\ (forall x : float, In x (all_p_values ps) -> PrimFloat.is_finite x = true)
  /\ exists lo hi : float,
       set_ylim ps = Returned (lo, hi)
       /\ PrimFloat.is_finite lo = true /\ PrimFloat.is_finite hi = true.
Proof.
  intros Hvalid Hexp Hpow.
  pose proof Hvalid as (_ & _ & _ & _ & Hn & _).
  destruct (divisor_mag Hn) as [HN1 HN2].
  split; [split; [exact (@fin_is_finite _ _ HN1) | exact (@mag_ge_nonzero _ _ HN2)]|].
  split; [eapply (@fin_is_finite _ _), fin_c; eassumption|].
  split; [eapply (@fin_is_finite _ _), fin_p; eassumption|].
  split.
  { intros f Hf. split.
    - eapply (@fin_is_finite _ _), fin_C_op_F; eassumption.
    - eapply (@fin_is_finite _ _), fin_per_outlet; eassumption. }
  split.
  { intros x Hx. eapply (@fin_is_finite _ _), fin_all_p_values; eassumption. }
  destruct (set_ylim_Returned ps) as (lo & hi & Hlo & Hhi & Hlim).
  apply array_min_In in Hlo. apply array_max_In in Hhi.
  assert (Flo : fin 45 lo) by (eapply fin_all_p_values; eassumption).
  assert (Fhi : fin 45 hi) by (eapply fin_all_p_values; eassumption).
  assert (Ft : fin (-3) 0x1.999999999999ap-4%float)
    by (apply finb_spec; vm_compute; reflexivity).
  eexists _, _. split; [exact Hlim|]. unfold padding.
  cbn [add sub mul div neg of_int tenth float_arith].
  split; eapply (@fin_is_finite _ _); fin_go.
Qed.

Lemma no_arithmetic_error_witness :
  PrimFloat.is_finite (c (LT := libm_at_defaults) float_defaults 1%float) = true
  /\ PrimFloat.is_finite (p (LT := libm_at_defaults) float_defaults 1%float) = true.
Proof.
  assert (He : between 0 2 (np_exp (Libm := libm_at_defaults)
                              (mul (neg (beta float_defaults)) (a_star float_defaults))))
    by (split; vm_compute; reflexivity).
  assert (Hp : between 0 128 (pow2 (Libm := libm_at_defaults) (a_star float_defaults)))
    by (split; vm_compute; reflexivity).
  destruct (@no_arithmetic_error libm_at_defaults float_defaults
              float_defaults_valid He Hp) as (_ & Hc & Hpr & _).
  split; [exact Hc | exact Hpr].
Defined.

(** ** C9: no clamping *)

(** C9.  No clamping anywhere.  In any arithmetic each curve entry is the
    expression of lines 46-48 at the grid entry, with no maximum against
    zero; read in exact arithmetic for a valid parameter set these are the
    raw closed forms; and with the slider defaults all three curves do take
    negative values, in exact arithmetic and in binary64. *)
Theorem curves_not_clamped :
  (forall (T : Type) (AT : Arith T) (LT : Libm T) (ps : ParameterSet T)
          (i : nat) (d : T),
     (i < 200)%nat ->
     let f := nth i F d in
     let cost :=
       div (add (H ps) (mul (mul (v ps) (sub (of_int 1) f)) (of_int (N ps))))
           (of_int (N ps)) in
     let franchised :=
       sub (mul (sub (of_int 1) (np_exp (mul (neg (beta ps)) (a_star ps))))
                (pi ps))
           (mul (mul half (kappa ps)) (pow2 (a_star ps))) in
     nth i (P_base ps) d
     = add (mul (sub (of_int 1) f) (sub (pi ps) (C_op ps))) (mul f franchised)
     /\ nth i (P_endh ps) d
        = add (mul (sub (of_int 1) f) (sub (pi ps) cost)) (mul f franchised)
     /\ nth i (P_dup ps) d
        = sub (add (mul (sub (of_int 1) f) (sub (pi ps) cost)) (mul f franchised))
              (mul (mul (delta ps) f) (sub (of_int 1) f)))
  /\ (forall (ps : ParameterSet R) (i : nat), valid ps -> (i < 200)%nat ->
     let f := nth i F 0%R in
     let cost := ((H ps + v ps * (1 - f) * IZR (N ps)) / IZR (N ps))%R in
     let franchised :=
       ((1 - exp (- beta ps * a_star ps)) * pi ps
        - 0.5 * kappa ps * a_star ps ^ 2)%R in
     nth i (P_base ps) 0%R = ((1 - f) * (pi ps - C_op ps) + f * franchised)%R
     /\ nth i (P_endh ps) 0%R = ((1 - f) * (pi ps - cost) + f * franchised)%R
     /\ nth i (P_dup ps) 0%R =
        ((1 - f) * (pi ps - cost) + f * franchised - delta ps * f * (1 - f))%R)
  /\ (valid defaults
      /\ nth 199 (P_base defaults) 0 < 0
      /\ nth 0 (P_endh defaults) 0 < 0
      /\ nth 0 (P_dup defaults) 0 < 0)%R
  /\ (PrimFloat.ltb
        (nth 199 (P_base (LT := libm_at_defaults) float_defaults) 0%float) 0 = true
      /\ PrimFloat.ltb
           (nth 0 (P_endh (LT := libm_at_defaults) float_defaults) 0%float) 0 = true
      /\ PrimFloat.ltb
           (nth 0 (P_dup (LT := libm_at_defaults) float_defaults) 0%float) 0 = true).
Proof.
  split; [|split; [|split]]; [| | |repeat split; vm_compute; reflexivity].
  - intros T AT LT ps i d Hi. cbv zeta.
    rewrite P_dup_nth, P_endh_nth, P_base_nth by assumption.
    repeat split.
  - intros ps i _ Hi. cbv zeta.
    split; [now apply P_base_closed|].
    split; [now apply P_endh_closed | now apply P_dup_closed].
  - split; [exact defaults_valid|].
    assert (Hendh : (nth 0 (P_endh defaults) 0 < 0)%R)
      by (rewrite P_endh_first; cbn; lra).
    split; [|split; [exact Hendh|]].
    + rewrite P_base_last, franchised_profit_eq. cbn.
      pose proof (exp_pos (- (1) * 1)). lra.
    + rewrite P_dup_nth, F_nth_R by lia. cbn in *. lra.
Qed.

Lemma curves_not_clamped_witness :
  (nth 0 (P_base defaults) 0 =
   (1 - nth 0 F 0) * (0.23 - 0.20)
   + nth 0 F 0 * ((1 - exp (- (1) * 1)) * 0.23 - 0.5 * 1 * 1 ^ 2))%R.
Proof.
  exact (proj1 (proj1 (proj2 curves_not_clamped) defaults 0%nat defaults_valid
                      (Nat.lt_0_succ 199))).
Defined.

(** ** C10: no duplication penalty *)

(** C10.  With [delta = 0] the duplication curve is the endogenous-overhead
    curve at every index: in exact arithmetic, and bit for bit in binary64
    whatever [np.exp] and the float power return. *)
Theorem P_dup_without_penalty :
  (forall ps : ParameterSet R, delta ps = 0%R -> P_dup ps = P_endh ps)
  /\ (forall (LT : Libm float) (ps : ParameterSet float),
        delta ps = 0%float -> P_dup ps = P_endh ps).
Proof.
  split.
  - intros ps Hd. apply P_dup_eq_P_endh. intros i d Hi.
    rewrite Hd. cbn [sub mul of_int R_arith]. ring.
  - intros LT ps Hd. apply P_dup_eq_P_endh. intros i d Hi.
    rewrite Hd.
    rewrite (nth_indep F d 0%float) by now rewrite F_length.
    rewrite float_penalty_0_nth by assumption.
    apply float_sub_0_r.
Qed.

Lemma P_dup_without_penalty_witness :
  nth 100 (P_dup (with_delta defaults 0%R)) 0%R
  = nth 100 (P_endh (with_delta defaults 0%R)) 0%R.
Proof.
  rewrite (proj1 P_dup_without_penalty (with_delta defaults 0%R)); reflexivity.
Defined.

(** * Further properties of the script *)

(** ** Binary64: rounding to the nearest

    The value a binary64 operation returns is the exact result rounded to
    the nearest float, ties to even.  The rounding is described on integers
    and then found in the shifts of [binary_round_aux]. *)

Section RoundNearest.

Local Open Scope Z_scope.

Lemma rne_cases (A W : Z) :
  0 < W ->
  (2 * (A mod W) < W /\ rne A W = A / W)
  \/ (W < 2 * (A mod W) /\ rne A W = A / W + 1)
  \/ (2 * (A mod W) = W /\ rne A W = if Z.even (A / W) then A / W else A / W + 1).
Proof.
  intros HW. pose proof (Z.mod_pos_bound A W HW) as Hr.
  unfold rne, loc_of.
  destruct (Z.eqb_spec (A mod W) 0) as [E|E].
  - left. split; [lia | reflexivity].
  - cbn [round_nearest_even].
    destruct (Z.compare_spec (2 * (A mod W)) W) as [C|C|C].
    + right. right. split; [exact C | reflexivity].
    + left. split; [exact C | reflexivity].
    + right. left. split; [exact C | reflexivity].
Qed.

Lemma rne_bounds (A W : Z) : 0 < W -> A / W <= rne A W <= A / W + 1.
Proof.
  intros HW. destruct (rne_cases A HW) as [[_ ->]|[[_ ->]|[_ ->]]]; try lia.
  destruct (Z.even (A / W)); lia.
Qed.

Lemma rne_mono (A A' W : Z) : 0 < W -> A <= A' -> rne A W <= rne A' W.
Proof.
  intros HW HA.
  pose proof (Z.div_le_mono A A' W HW HA) as Hq.
  pose proof (rne_bounds A HW) as B. pose proof (rne_bounds A' HW) as B'.
  destruct (Z.eq_dec (A / W) (A' / W)) as [E|E]; [|lia].
  assert (Hr : A mod W <= A' mod W).
  { pose proof (Z.div_mod A W ltac:(lia)). pose proof (Z.div_mod A' W ltac:(lia)).
    rewrite E in *. nia. }
  destruct (rne_cases A HW) as [[C ->]|[[C ->]|[C ->]]];
    destruct (rne_cases A' HW) as [[C' ->]|[[C' ->]|[C' ->]]];
    rewrite <- ?E; try lia; destruct (Z.even (A / W)); lia.
Qed.

Lemma rne_scale (A W k : Z) : 0 < W -> 0 < k -> rne (A * k) (W * k) = rne A W.
Proof.
  intros HW Hk. unfold rne, loc_of.
  rewrite Z.div_mul_cancel_r by lia.
  rewrite Z.mul_mod_distr_r by lia.
  destruct (Z.eqb_spec (A mod W) 0) as [E|E].
  - rewrite E. reflexivity.
  - destruct (Z.eqb_spec (A mod W * k) 0) as [E'|E']; [nia|].
    replace (2 * (A mod W * k) ?= W * k) with (2 * (A mod W) ?= W); [reflexivity|].
    replace (2 * (A mod W * k)) with (2 * (A mod W) * k) by ring.
    symmetry. destruct (Z.compare_spec (2 * (A mod W)) W) as [C|C|C].
    + apply Z.compare_eq_iff. now rewrite C.
    + apply Z.compare_lt_iff. nia.
    + apply Z.compare_gt_iff. nia.
Qed.

Lemma rne_exact (K W : Z) : 0 < W -> rne (K * W) W = K.
Proof.
  intros HW. unfold rne, loc_of.
  rewrite Z.mod_mul, Z.div_mul by lia. reflexivity.
Qed.

Lemma rne_1 (A : Z) : rne A 1 = A.
Proof. rewrite <- (Z.mul_1_r A) at 1. apply rne_exact. lia. Qed.

Lemma rne_le (A K W : Z) : 0 < W -> A <= K * W -> rne A W <= K.
Proof. intros HW HA. rewrite <- (rne_exact K HW). now apply rne_mono. Qed.

Lemma rne_ge (A K W : Z) : 0 < W -> K * W <= A -> K <= rne A W.
Proof. intros HW HA. rewrite <- (rne_exact K HW). now apply rne_mono. Qed.

Lemma rne_nonneg (A W : Z) : 0 < W -> 0 <= A -> 0 <= rne A W.
Proof. intros HW HA. apply rne_ge; lia. Qed.

End RoundNearest.

Section RoundUnits.

Local Open Scope Z_scope.

Lemma Zdigits2_unique (x k : Z) : 1 <= k -> 2 ^ (k - 1) <= x < 2 ^ k -> Zdigits2 x = k.
Proof.
  intros Hk Hx.
  assert (Hp : 0 < 2 ^ (k - 1)) by (apply pow2_pos; lia).
  rewrite Zdigits2_log2 by lia.
  rewrite (Z.log2_unique x (k - 1)); [lia | lia |].
  replace (Z.succ (k - 1)) with k by lia. exact Hx.
Qed.

Lemma Zdigits2_small (x j : Z) : 0 <= j -> 0 <= x < 2 ^ j -> Zdigits2 x <= j.
Proof.
  intros Hj Hx. destruct (Z.eq_dec x 0) as [->|Hx0]; [simpl; lia|].
  rewrite Zdigits2_log2 by lia.
  assert (Z.log2 x < j) by (apply Z.log2_lt_pow2; lia). lia.
Qed.

Lemma Zdigits2_pos (x : Z) : 0 < x -> 1 <= Zdigits2 x.
Proof. intros Hx. rewrite Zdigits2_log2 by lia. pose proof (Z.log2_nonneg x). lia. Qed.

Lemma div_scale_bounds (A W j : Z) :
  0 < W -> 0 <= A -> 0 <= j ->
  A / W * 2 ^ j <= A * 2 ^ j / W < (A / W + 1) * 2 ^ j.
Proof.
  intros HW HA Hj.
  assert (Hp : 0 < 2 ^ j) by (apply pow2_pos; lia).
  pose proof (Z.div_mod A W ltac:(lia)) as Hdm.
  pose proof (Z.mod_pos_bound A W HW) as Hr.
  split.
  - apply Z.div_le_lower_bound; [lia|]. nia.
  - apply Z.div_lt_upper_bound; [lia|]. nia.
Qed.

Lemma Zdigits2_div_scale (A W j : Z) :
  0 < W -> 0 <= A -> 0 <= j -> 1 <= A / W ->
  Zdigits2 (A * 2 ^ j / W) = Zdigits2 (A / W) + j.
Proof.
  intros HW HA Hj Hq.
  pose proof (div_scale_bounds HW HA Hj) as [Hlo Hhi].
  assert (Hq0 : 0 <= A / W) by lia.
  pose proof (Zdigits2_lt_pow2 Hq0) as Hlt.
  pose proof (@Zdigits2_ge_pow2 (A / W) ltac:(lia)) as Hge.
  pose proof (@Zdigits2_pos (A / W) ltac:(lia)) as Hd.
  apply Zdigits2_unique; [lia|].
  replace (Zdigits2 (A / W) + j - 1) with (Zdigits2 (A / W) - 1 + j) by lia.
  rewrite !Z.pow_add_r by lia.
  assert (Hp : 0 < 2 ^ j) by (apply pow2_pos; lia).
  split; nia.
Qed.

Lemma round_units_scale (A W c j : Z) :
  0 < W -> 0 <= A -> 0 <= c -> 0 <= j ->
  round_units (A * 2 ^ j) W (c + j) = round_units A W c.
Proof.
  intros HW HA Hc Hj. unfold round_units.
  assert (Hn : Z.max (Zdigits2 (A * 2 ^ j / W) - 53) (c + j)
               = Z.max (Zdigits2 (A / W) - 53) c + j).
  { destruct (Z_lt_le_dec (A / W) 1) as [Hz|Hq].
    - assert (Hq0 : A / W = 0) by (pose proof (Z.div_pos A W HA HW); lia).
      pose proof (div_scale_bounds HW HA Hj) as [_ Hhi]. rewrite Hq0 in *.
      assert (0 <= A * 2 ^ j / W).
      { apply Z.div_pos; [|lia]. apply Z.mul_nonneg_nonneg; [lia|].
        apply Z.lt_le_incl, pow2_pos; lia. }
      pose proof (@Zdigits2_small (A * 2 ^ j / W) j Hj ltac:(lia)).
      simpl Zdigits2. lia.
    - rewrite Zdigits2_div_scale by assumption. lia. }
  rewrite Hn. set (n := Z.max (Zdigits2 (A / W) - 53) c).
  assert (Hn0 : 0 <= n) by (subst n; lia).
  rewrite Z.pow_add_r by lia.
  replace (W * (2 ^ n * 2 ^ j)) with (W * 2 ^ n * 2 ^ j) by ring.
  rewrite rne_scale.
  - f_equal. f_equal. lia.
  - apply Z.mul_pos_pos; [lia | apply pow2_pos; lia].
  - apply pow2_pos; lia.
Qed.

Lemma round_units_nonneg (A W c : Z) :
  0 < W -> 0 <= A -> 0 <= c -> 0 <= round_units A W c.
Proof.
  intros HW HA Hc. unfold round_units.
  set (n := Z.max (Zdigits2 (A / W) - 53) c).
  assert (Hn0 : 0 <= n) by (subst n; lia).
  apply Z.mul_nonneg_nonneg.
  - apply rne_nonneg; [|lia]. apply Z.mul_pos_pos; [lia | apply pow2_pos; lia].
  - apply Z.lt_le_incl, pow2_pos. subst n. lia.
Qed.

Lemma round_units_0 (W c : Z) : 0 < W -> 0 <= c -> round_units 0 W c = 0.
Proof.
  intros HW Hc. unfold round_units. rewrite Z.div_0_l by lia.
  simpl Zdigits2. set (n := Z.max (0 - 53) c).
  assert (Hp : 0 < W * 2 ^ n) by (apply Z.mul_pos_pos; [lia | apply pow2_pos; subst n; lia]).
  change 0 with (0 * (W * 2 ^ n)) at 1. rewrite rne_exact by exact Hp. reflexivity.
Qed.

Lemma round_units_mono (A A' W c : Z) :
  0 < W -> 0 <= c -> 0 <= A <= A' ->
  round_units A W c <= round_units A' W c.
Proof.
  intros HW Hc HA. unfold round_units.
  assert (Hq : 0 <= A / W <= A' / W).
  { split; [apply Z.div_pos; lia | apply Z.div_le_mono; lia]. }
  assert (Hd : Zdigits2 (A / W) <= Zdigits2 (A' / W)) by (apply Zdigits2_le; lia).
  set (d := Zdigits2 (A / W)) in *. set (d' := Zdigits2 (A' / W)) in *.
  set (n := Z.max (d - 53) c). set (n' := Z.max (d' - 53) c).
  assert (Hn0 : 0 <= n) by (subst n; lia).
  assert (Hnn : n <= n') by (subst n n'; lia).
  assert (HWn : 0 < W * 2 ^ n) by (apply Z.mul_pos_pos; [lia | apply pow2_pos; lia]).
  assert (HWn' : 0 < W * 2 ^ n') by (apply Z.mul_pos_pos; [lia | apply pow2_pos; lia]).
  destruct (Z.eq_dec n n') as [E|E].
  - rewrite <- E. apply Z.mul_le_mono_nonneg_r.
    + apply Z.lt_le_incl, pow2_pos. lia.
    + apply rne_mono; [exact HWn | lia].
  - assert (Hn' : n' = d' - 53) by (subst n n'; lia).
    assert (Hdd : d < d') by (subst n n'; lia).
    assert (Hd1 : 1 <= d') by (pose proof (Zdigits2_nonneg (A / W)); subst d; lia).
    assert (Hq' : 0 < A' / W).
    { destruct (Z.eq_dec (A' / W) 0) as [Z0|Z0]; [|lia].
      subst d'. rewrite Z0 in Hd1. simpl in Hd1. lia. }
    (* the larger value is at least 2^(d'-1), the smaller one at most *)
    pose proof (Zdigits2_ge_pow2 Hq') as Hge. fold d' in Hge.
    pose proof (@Zdigits2_lt_pow2 (A / W) ltac:(lia)) as Hlt. fold d in Hlt.
    assert (Hmid : 2 ^ d <= 2 ^ (d' - 1)) by (apply Z.pow_le_mono_r; lia).
    pose proof (Z.div_mod A W ltac:(lia)) as Hdm.
    pose proof (Z.mod_pos_bound A W HW) as Hr.
    pose proof (Z.div_mod A' W ltac:(lia)) as Hdm'.
    pose proof (Z.mod_pos_bound A' W HW) as Hr'.
    assert (Hlow : rne A (W * 2 ^ n) <= 2 ^ (d' - 1 - n)).
    { apply rne_le; [exact HWn|].
      replace (2 ^ (d' - 1 - n) * (W * 2 ^ n)) with (2 ^ (d' - 1) * W).
      - nia.
      - replace (2 ^ (d' - 1)) with (2 ^ (d' - 1 - n) * 2 ^ n); [ring|].
        rewrite <- Z.pow_add_r by lia. f_equal. lia. }
    assert (Hhigh : 2 ^ 52 <= rne A' (W * 2 ^ n')).
    { apply rne_ge; [exact HWn'|].
      replace (2 ^ 52 * (W * 2 ^ n')) with (2 ^ (d' - 1) * W).
      - nia.
      - replace (2 ^ (d' - 1)) with (2 ^ 52 * 2 ^ n'); [ring|].
        rewrite <- Z.pow_add_r by lia. f_equal. lia. }
    assert (Hp1 : 0 < 2 ^ (n - c)) by (apply pow2_pos; subst n; lia).
    assert (Hp2 : 0 < 2 ^ (n' - c)) by (apply pow2_pos; subst n'; lia).
    apply Z.le_trans with (2 ^ (d' - 1 - n) * 2 ^ (n - c)).
    + apply Z.mul_le_mono_nonneg_r; lia.
    + apply Z.le_trans with (2 ^ 52 * 2 ^ (n' - c)).
      * rewrite <- !Z.pow_add_r by lia. apply Z.pow_le_mono_r; lia.
      * apply Z.mul_le_mono_nonneg_r; lia.
Qed.

Lemma round_signed_mono (W c X X' : Z) :
  0 < W -> 0 <= c -> X <= X' -> round_signed W c X <= round_signed W c X'.
Proof.
  intros HW Hc HX. unfold round_signed.
  destruct (Z.ltb_spec X 0) as [N|P]; destruct (Z.ltb_spec X' 0) as [N'|P'].
  - pose proof (@round_units_mono (- X') (- X) W c HW Hc ltac:(lia)). lia.
  - pose proof (@round_units_nonneg (- X) W c HW ltac:(lia) Hc).
    pose proof (@round_units_nonneg X' W c HW ltac:(lia) Hc). lia.
  - lia.
  - apply round_units_mono; lia.
Qed.

End RoundUnits.

Section Shifts.

Local Open Scope Z_scope.

Lemma loc_of_shr_record_of_loc (m : Z) (l : location) :
  loc_of_shr_record (shr_record_of_loc m l) = l.
Proof. destruct l as [|[| |]]; reflexivity. Qed.

Lemma represents_of_loc (A W : Z) :
  represents (shr_record_of_loc (A / W) (loc_of A W)) A W.
Proof.
  split; [apply shr_record_of_loc_m | apply loc_of_shr_record_of_loc].
Qed.

Lemma div2_mod2 (m : Z) : m = 2 * Z.div2 m + (if Z.odd m then 1 else 0).
Proof. rewrite (Z.div2_odd m) at 1. destruct (Z.odd m); reflexivity. Qed.

(** One shift halves the unit. *)
Lemma shr_1_represents (mrs : shr_record) (A W : Z) :
  0 <= A -> 0 < W -> represents mrs A W -> represents (shr_1 mrs) A (2 * W).
Proof.
  intros HA HW [Hm Hl].
  pose proof (Z.div_mod A W ltac:(lia)) as Hdm.
  pose proof (Z.mod_pos_bound A W HW) as Hr.
  assert (Hq0 : 0 <= A / W) by (apply Z.div_pos; lia).
  pose proof (div2_mod2 (A / W)) as Hpar.
  assert (Hh : 0 <= Z.div2 (A / W)) by (apply Z.div2_nonneg; exact Hq0).
  set (b := if Z.odd (A / W) then 1 else 0) in *.
  assert (Hb : 0 <= b <= 1) by (subst b; destruct (Z.odd (A / W)); lia).
  assert (Hdiv : A / (2 * W) = Z.div2 (A / W) /\ A mod (2 * W) = b * W + A mod W).
  { assert (Hu : A = Z.div2 (A / W) * (2 * W) + (b * W + A mod W)) by nia.
    apply (Z.div_mod_unique (2 * W)).
    - left. apply Z.mod_pos_bound. lia.
    - left. nia.
    - rewrite <- Z.div_mod by lia. lia. }
  destruct Hdiv as [Hdiv Hmod].
  assert (Hs : (shr_r mrs || shr_s mrs = false /\ A mod W = 0)
               \/ (shr_r mrs || shr_s mrs = true /\ A mod W <> 0)).
  { unfold loc_of in Hl. destruct mrs as [m r s]. cbn [shr_r shr_s loc_of_shr_record] in *.
    destruct (Z.eqb_spec (A mod W) 0) as [E|E].
    - left. destruct r, s; try discriminate Hl. split; [reflexivity | exact E].
    - right. destruct r, s; try discriminate Hl; split; try reflexivity; exact E. }
  assert (Hshape : shr_m (shr_1 mrs) = Z.div2 (A / W)
                   /\ shr_r (shr_1 mrs) = Z.odd (A / W)
                   /\ shr_s (shr_1 mrs) = (shr_r mrs || shr_s mrs)%bool).
  { destruct mrs as [m r s]. cbn [shr_m] in Hm. subst m.
    destruct (A / W) as [|[q|q|]|q]; cbn; try lia; repeat split; reflexivity. }
  destruct Hshape as (S1 & S2 & S3).
  split; [now rewrite S1, Hdiv|].
  unfold loc_of. rewrite Hmod.
  destruct (shr_1 mrs) as [m1 r1 s1]. cbn [shr_m shr_r shr_s loc_of_shr_record] in *.
  subst r1 s1. subst b.
  destruct (Z.odd (A / W)); destruct Hs as [[-> E]|[-> E]].
  - rewrite E. destruct (Z.eqb_spec (1 * W + 0) 0); [lia|].
    replace (2 * (1 * W + 0) ?= 2 * W) with Eq; [reflexivity|].
    symmetry. apply Z.compare_eq_iff. lia.
  - destruct (Z.eqb_spec (1 * W + A mod W) 0); [lia|].
    replace (2 * (1 * W + A mod W) ?= 2 * W) with Gt; [reflexivity|].
    symmetry. apply Z.compare_gt_iff. lia.
  - rewrite E. reflexivity.
  - destruct (Z.eqb_spec (0 * W + A mod W) 0); [lia|].
    replace (2 * (0 * W + A mod W) ?= 2 * W) with Lt; [reflexivity|].
    symmetry. apply Z.compare_lt_iff. lia.
Qed.

Lemma iter_shr_1_represents (q : positive) (A : Z) :
  0 <= A ->
  forall (mrs : shr_record) (W : Z), 0 < W -> represents mrs A W ->
    represents (iter_pos shr_1 q mrs) A (W * 2 ^ Zpos q).
Proof.
  intros HA.
  induction q as [q IH|q IH|]; intros mrs W HW Hrep; simpl iter_pos.
  - replace (W * 2 ^ Zpos q~1) with (2 * W * 2 ^ Zpos q * 2 ^ Zpos q).
    + apply IH; [apply Z.mul_pos_pos; [lia | apply pow2_pos; lia]|].
      apply IH; [lia|]. now apply shr_1_represents.
    + replace (Zpos q~1) with (Zpos q + Zpos q + 1) by lia.
      rewrite !Z.pow_add_r by lia. rewrite Z.pow_1_r. ring.
  - replace (W * 2 ^ Zpos q~0) with (W * 2 ^ Zpos q * 2 ^ Zpos q).
    + apply IH; [apply Z.mul_pos_pos; [lia | apply pow2_pos; lia]|].
      now apply IH.
    + replace (Zpos q~0) with (Zpos q + Zpos q) by lia.
      rewrite !Z.pow_add_r by lia. ring.
  - change (2 ^ 1) with 2. rewrite Z.mul_comm. now apply shr_1_represents.
Qed.

(** The first shift of a rounding. *)
Lemma shr_fexp_represents (A W ex : Z) :
  0 <= A -> 0 < W ->
  let n := Z.max 0 (Z.max (Zdigits2 (A / W) + ex - 53) (-1074) - ex) in
  represents (fst (shr_fexp prec emax (A / W) ex (loc_of A W))) A (W * 2 ^ n)
  /\ snd (shr_fexp prec emax (A / W) ex (loc_of A W)) = ex + n.
Proof.
  intros HA HW n. unfold shr_fexp. rewrite fexp64_eq. unfold shr.
  subst n.
  destruct (Z.max (Zdigits2 (A / W) + ex - 53) (-1074) - ex) as [|q|q] eqn:En;
    cbn [fst snd].
  - change (Z.max 0 0) with 0. rewrite Z.mul_1_r, Z.add_0_r.
    split; [apply represents_of_loc | reflexivity].
  - replace (Z.max 0 (Z.pos q)) with (Z.pos q) by lia.
    split; [|reflexivity].
    apply iter_shr_1_represents; [exact HA | exact HW | apply represents_of_loc].
  - replace (Z.max 0 (Z.neg q)) with 0 by lia. rewrite Z.mul_1_r, Z.add_0_r.
    split; [apply represents_of_loc | reflexivity].
Qed.

(** The value a rounding returns, when it is finite. *)
Lemma binary_round_aux_rne (sx : bool) (A W ex : Z) :
  0 <= A -> 0 < W ->
  sf_finite (binary_round_aux prec emax sx (A / W) ex (loc_of A W)) = true ->
  let n := Z.max 0 (Z.max (Zdigits2 (A / W) + ex - 53) (-1074) - ex) in
  Zval (binary_round_aux prec emax sx (A / W) ex (loc_of A W))
  = cond_Zopp sx (rne A (W * 2 ^ n) * 2 ^ (ex + n + 1074)).
Proof.
  intros HA HW Hfin n.
  pose proof (Zdigits2_nonneg (A / W)) as Hd0.
  assert (Hq0 : 0 <= A / W) by (apply Z.div_pos; lia).
  unfold binary_round_aux in *.
  destruct (shr_fexp_represents ex HA HW) as [[Hm1 Hl1] He1]. fold n in Hm1, Hl1, He1.
  destruct (shr_fexp prec emax (A / W) ex (loc_of A W)) as [mrs1 e1].
  cbn [fst snd] in Hm1, Hl1, He1.
  assert (Hrne : round_nearest_even (shr_m mrs1) (loc_of_shr_record mrs1)
                 = rne A (W * 2 ^ n)).
  { unfold rne. now rewrite Hm1, Hl1. }
  rewrite Hrne in *.
  set (m2 := rne A (W * 2 ^ n)) in *.
  assert (Hn0 : 0 <= n) by (subst n; lia).
  assert (HWn : 0 < W * 2 ^ n) by (apply Z.mul_pos_pos; [lia | apply pow2_pos; lia]).
  pose proof (rne_bounds A HWn) as Hb. fold m2 in Hb.
  assert (Hshift : A / (W * 2 ^ n) = Z.shiftr (A / W) n).
  { rewrite Z.shiftr_div_pow2 by lia. rewrite Z.div_div by (try lia; apply pow2_pos; lia).
    reflexivity. }
  rewrite Hshift in Hb.
  assert (Hm1nn : 0 <= Z.shiftr (A / W) n) by (apply Z.shiftr_nonneg; exact Hq0).
  assert (Hm2nn : 0 <= m2) by lia.
  pose proof (Zdigits2_succ_le Hm1nn Hb) as Hd2.
  assert (Hd1 : Zdigits2 (Z.shiftr (A / W) n) = Z.max 0 (Zdigits2 (A / W) - n))
    by (apply Zdigits2_shiftr; lia).
  destruct (shr_fexp_spec e1 loc_Exact Hm2nn) as [Hm3 He3].
  set (n2 := Z.max 0 (Z.max (Zdigits2 m2 + e1 - 53) (-1074) - e1)) in *.
  destruct (shr_fexp prec emax m2 e1 loc_Exact) as [mrs3 e3].
  cbn [fst snd] in Hm3, He3.
  assert (Hval : shr_m mrs3 * 2 ^ (e3 + 1074) = m2 * 2 ^ (e1 + 1074)).
  { destruct (Z.eq_dec n2 0) as [Hz|Hnz].
    - rewrite Hm3, He3, Hz, Z.shiftr_0_r. f_equal. f_equal. lia.
    - assert (Hd54 : Zdigits2 m2 = 54) by (subst n2 n; lia).
      assert (Hn2 : n2 = 1) by (subst n2; lia).
      assert (Hlt : Z.shiftr (A / W) n < 2 ^ 53).
      { pose proof (Zdigits2_lt_pow2 Hm1nn) as Hlt.
        assert (2 ^ Zdigits2 (Z.shiftr (A / W) n) <= 2 ^ 53)
          by (apply Z.pow_le_mono_r; subst n; lia).
        lia. }
      assert (Hge : 2 ^ 53 <= m2).
      { assert (Hpos : 0 < m2)
          by (destruct (Z.eq_dec m2 0) as [E|E]; [rewrite E in Hd54; discriminate | lia]).
        pose proof (Zdigits2_ge_pow2 Hpos) as Hge. rewrite Hd54 in Hge. exact Hge. }
      assert (Hm2 : m2 = 2 ^ 53) by lia.
      rewrite Hm3, He3, Hn2, Hm2.
      replace (e1 + 1 + 1074) with (Z.succ (e1 + 1074)) by (subst n; lia).
      rewrite Z.pow_succ_r by (subst n; lia).
      change (Z.shiftr (2 ^ 53) 1) with (2 ^ 52). change (2 ^ 53) with (2 * 2 ^ 52).
      ring. }
  rewrite <- He1.
  destruct (shr_m mrs3) as [|q|q] eqn:Eq3.
  - cbn [Zval]. rewrite <- Hval. destruct sx; reflexivity.
  - change (emax - prec) with 971 in *.
    destruct (Z.leb_spec e3 971) as [_|Hgt]; [|discriminate Hfin].
    cbn [Zval]. now rewrite Hval.
  - discriminate Hfin.
Qed.

End Shifts.

Section Values.

Local Open Scope Z_scope.

(** What a rounding computes is the rounding of the value, in any unit that
    is fine enough. *)
Lemma rne_round_units (A W ex ct : Z) :
  0 <= A -> 0 < W ->
  W = 1 \/ ex <= Z.max (Zdigits2 (A / W) + ex - 53) (-1074) ->
  0 <= ct -> -1074 - ex <= ct ->
  let n := Z.max 0 (Z.max (Zdigits2 (A / W) + ex - 53) (-1074) - ex) in
  rne A (W * 2 ^ n) * 2 ^ (ex + n + 1074)
  = round_units (A * 2 ^ (ex + 1074 + ct)) W ct.
Proof.
  intros HA HW Hcase Hct0 Hct n.
  set (B := Z.min ex (-1074)).
  assert (Hbase : rne A (W * 2 ^ n) * 2 ^ (ex + n + 1074)
                  = round_units (A * 2 ^ (ex - B)) W (-1074 - B)).
  { destruct (Z_le_gt_dec ex (-1074)) as [Hlow|Hhigh].
    - replace B with ex by (subst B; lia). rewrite Z.sub_diag, Z.mul_1_r.
      unfold round_units.
      replace (Z.max (Zdigits2 (A / W) - 53) (-1074 - ex)) with n by (subst n; lia).
      f_equal. f_equal. lia.
    - replace B with (-1074) by (subst B; lia).
      replace (-1074 - -1074) with 0 by lia.
      set (k := ex - -1074). assert (Hk : 0 < k) by (subst k; lia).
      pose proof (Zdigits2_nonneg (A / W)) as Hd0.
      destruct (Z_le_gt_dec 53 (Zdigits2 (A / W))) as [Hd|Hd].
      + assert (Hq : 1 <= A / W).
        { destruct (Z_lt_le_dec (A / W) 1) as [Hz|Hq]; [|exact Hq].
          assert (Hq0 : A / W = 0) by (pose proof (Z.div_pos A W HA HW); lia).
          rewrite Hq0 in Hd. simpl in Hd. lia. }
        unfold round_units.
        rewrite Zdigits2_div_scale by (try assumption; lia).
        replace (Z.max (Zdigits2 (A / W) + k - 53) 0) with (n + k) by (subst n k; lia).
        assert (Hn0 : 0 <= n) by (subst n; lia).
        rewrite (Z.pow_add_r 2 n k) by lia.
        replace (W * (2 ^ n * 2 ^ k)) with (W * 2 ^ n * 2 ^ k) by ring.
        rewrite rne_scale.
        * f_equal. f_equal. subst k. lia.
        * apply Z.mul_pos_pos; [lia | apply pow2_pos; lia].
        * apply pow2_pos; lia.
      + assert (Hn : n = 0) by (subst n; lia).
        destruct Hcase as [->|Hc]; [|lia].
        rewrite Z.div_1_r in *.
        rewrite Hn. change (1 * 2 ^ 0) with 1. rewrite rne_1.
        replace (ex + 0 + 1074) with k by (subst k; lia).
        destruct (Z.eq_dec A 0) as [->|HA0].
        { rewrite !Z.mul_0_l. now rewrite round_units_0 by lia. }
        unfold round_units. rewrite Z.div_1_r.
        rewrite Zdigits2_mul_pow2 by lia.
        set (n' := Z.max (Zdigits2 A + k - 53) 0).
        assert (Hn' : 0 <= n' <= k) by (subst n'; lia).
        replace (A * 2 ^ k) with (A * 2 ^ (k - n') * (1 * 2 ^ n')).
        * rewrite rne_exact by (apply Z.mul_pos_pos; [lia | apply pow2_pos; lia]).
          rewrite Z.sub_0_r. ring.
        * rewrite Z.mul_1_l, <- Z.mul_assoc, <- Z.pow_add_r by lia.
          f_equal. f_equal. lia. }
  rewrite Hbase.
  assert (HB : B <= ex /\ B <= -1074) by (subst B; lia).
  assert (HAk : 0 <= A * 2 ^ (ex - B)).
  { apply Z.mul_nonneg_nonneg; [lia | apply Z.lt_le_incl, pow2_pos; lia]. }
  rewrite <- (@round_units_scale (A * 2 ^ (ex - B)) W (-1074 - B) (ct + 1074 + B))
    by lia.
  rewrite <- Z.mul_assoc, <- Z.pow_add_r by lia.
  f_equal; [f_equal; f_equal; lia | lia].
Qed.

Lemma loc_of_1 (A : Z) : loc_of A 1 = loc_Exact.
Proof. unfold loc_of. now rewrite Z.mod_1_r. Qed.

(** An exact input. *)
Lemma binary_round_aux_units (sx : bool) (m ex ct : Z) :
  0 <= m ->
  sf_finite (binary_round_aux prec emax sx m ex loc_Exact) = true ->
  0 <= ct -> -1074 - ex <= ct ->
  Zval (binary_round_aux prec emax sx m ex loc_Exact)
  = cond_Zopp sx (round_units (m * 2 ^ (ex + 1074 + ct)) 1 ct).
Proof.
  intros Hm Hfin Hct0 Hct.
  pose proof (@binary_round_aux_rne sx m 1 ex Hm ltac:(lia)) as Hv.
  rewrite Z.div_1_r, loc_of_1 in Hv. rewrite (Hv Hfin). f_equal.
  pose proof (@rne_round_units m 1 ex ct Hm ltac:(lia) (or_introl eq_refl) Hct0 Hct) as Hu.
  rewrite Z.div_1_r in Hu. exact Hu.
Qed.

Lemma binary_round_units (sx : bool) (q : positive) (e : Z) :
  -1074 <= e ->
  sf_finite (binary_round prec emax sx q e) = true ->
  Zval (binary_round prec emax sx q e)
  = cond_Zopp sx (round_units (Zpos q * 2 ^ (e + 1074)) 1 0).
Proof.
  intros He Hfin. unfold binary_round in *. rewrite fexp64_eq in *.
  set (fx := Z.max (Zpos (digits2_pos q) + e - 53) (-1074)) in *.
  pose proof (shl_align_spec q e fx) as [Hsnd Hfst].
  destruct (shl_align q e fx) as [mz ez]. cbn [fst snd] in *.
  assert (Hez : -1074 <= ez) by (subst ez fx; lia).
  rewrite (@binary_round_aux_units sx (Zpos mz) ez 0) by (try assumption; lia).
  f_equal. f_equal. rewrite Hfst, Hsnd.
  rewrite <- Z.mul_assoc, <- Z.pow_add_r by lia. f_equal. f_equal. lia.
Qed.

Lemma cond_Zopp_round_signed (s : bool) (X W c : Z) :
  0 < W -> 0 <= c -> 0 < X ->
  cond_Zopp s (round_units X W c) = round_signed W c (cond_Zopp s X).
Proof.
  intros HW Hc HX. unfold round_signed. destruct s; cbn [cond_Zopp].
  - destruct (Z.ltb_spec (- X) 0); [|lia]. now rewrite Z.opp_involutive.
  - destruct (Z.ltb_spec X 0); [lia | reflexivity].
Qed.

Lemma round_signed_0 (W c : Z) : 0 < W -> 0 <= c -> round_signed W c 0 = 0.
Proof. intros HW Hc. unfold round_signed. rewrite Z.ltb_irrefl. now apply round_units_0. Qed.

Lemma binary_normalize_units (m e : Z) (sz : bool) :
  -1074 <= e ->
  sf_finite (binary_normalize prec emax m e sz) = true ->
  Zval (binary_normalize prec emax m e sz) = round_signed 1 0 (m * 2 ^ (e + 1074)).
Proof.
  intros He Hfin.
  assert (Hp : 0 < 2 ^ (e + 1074)) by (apply pow2_pos; lia).
  destruct m as [|q|q]; cbn [binary_normalize] in *.
  - cbn [Zval]. rewrite Z.mul_0_l. symmetry. apply (@round_signed_0 1 0); lia.
  - rewrite binary_round_units by assumption.
    apply (@cond_Zopp_round_signed false); lia.
  - rewrite binary_round_units by assumption.
    rewrite (@cond_Zopp_round_signed true) by lia.
    f_equal. cbn [cond_Zopp]. lia.
Qed.

(** A binary64 value is its own rounding. *)
Lemma round_units_repr (m : positive) (e : Z) :
  bounded prec emax m e = true ->
  round_units (Zpos m * 2 ^ (e + 1074)) 1 0 = Zpos m * 2 ^ (e + 1074).
Proof.
  intros Hb. destruct (bounded_canonical _ _ Hb) as (He & Hd & Hn).
  unfold round_units. rewrite Z.div_1_r.
  rewrite Zdigits2_mul_pow2 by lia.
  set (n := Z.max (Zdigits2 (Zpos m) + (e + 1074) - 53) 0).
  assert (Hne : n = e + 1074).
  { subst n. destruct (Z.eq_dec e (-1074)) as [->|Hne]; [lia|].
    rewrite Hn by lia. lia. }
  rewrite Hne, Z.mul_1_l, Z.sub_0_r.
  rewrite rne_exact by (apply pow2_pos; lia). reflexivity.
Qed.

Lemma round_signed_repr (x : spec_float) :
  valid_binary x = true -> round_signed 1 0 (Zval x) = Zval x.
Proof.
  intros Hv. destruct x as [s|s| |s m e]; cbn [Zval];
    try (apply (@round_signed_0 1 0); lia).
  cbn [valid_binary] in Hv.
  destruct (bounded_canonical _ _ Hv) as (He & _).
  assert (Hp : 0 < Zpos m * 2 ^ (e + 1074))
    by (apply Z.mul_pos_pos; [lia | apply pow2_pos; lia]).
  rewrite <- cond_Zopp_round_signed by lia.
  now rewrite round_units_repr.
Qed.

Lemma Zval_aligned (s : bool) (m : positive) (e e' : Z) :
  -1074 <= Z.min e e' ->
  cond_Zopp s (Zpos (fst (shl_align m e (Z.min e e')))) * 2 ^ (Z.min e e' + 1074)
  = Zval (S754_finite s m e).
Proof.
  intros He. rewrite aligned. cbn [Zval].
  destruct s; cbn [cond_Zopp]; rewrite ?Z.mul_opp_l; [f_equal|];
    rewrite <- Z.mul_assoc, <- Z.pow_add_r by lia; f_equal; f_equal; lia.
Qed.

Lemma valid_exponent (s : bool) (m : positive) (e : Z) :
  valid_binary (S754_finite s m e) = true -> -1074 <= e.
Proof. intros Hv. destruct (bounded_canonical _ _ Hv) as (He & _). lia. Qed.

(** The sum of two floats is the rounding of the sum. *)
Lemma SFadd_units (x y : spec_float) :
  valid_binary x = true -> valid_binary y = true ->
  sf_finite x = true -> sf_finite y = true ->
  sf_finite (SF64add x y) = true ->
  Zval (SF64add x y) = round_signed 1 0 (Zval x + Zval y).
Proof.
  intros Vx Vy Fx Fy Fz.
  destruct x as [sx|sx| |sx mx ex], y as [sy|sy| |sy my ey]; try discriminate.
  - change (Zval (S754_zero sx) + Zval (S754_zero sy)) with 0.
    rewrite (@round_signed_0 1 0) by lia.
    destruct sx, sy; reflexivity.
  - change (SF64add (S754_zero sx) (S754_finite sy my ey)) with (S754_finite sy my ey).
    change (Zval (S754_zero sx)) with 0. rewrite Z.add_0_l.
    symmetry. now apply round_signed_repr.
  - change (SF64add (S754_finite sx mx ex) (S754_zero sy)) with (S754_finite sx mx ex).
    change (Zval (S754_zero sy)) with 0. rewrite Z.add_0_r.
    symmetry. now apply round_signed_repr.
  - pose proof (@valid_exponent _ _ _ Vx) as Hex. pose proof (@valid_exponent _ _ _ Vy) as Hey.
    unfold SF64add, SFadd in *.
    rewrite binary_normalize_units by (try assumption; lia).
    f_equal. rewrite Z.mul_add_distr_r.
    rewrite (@Zval_aligned sx mx ex ey) by lia.
    rewrite (Z.min_comm ex ey). rewrite (@Zval_aligned sy my ey ex) by lia.
    reflexivity.
Qed.

Lemma SFsub_units (x y : spec_float) :
  valid_binary x = true -> valid_binary y = true ->
  sf_finite x = true -> sf_finite y = true ->
  sf_finite (SF64sub x y) = true ->
  Zval (SF64sub x y) = round_signed 1 0 (Zval x - Zval y).
Proof.
  intros Vx Vy Fx Fy Fz.
  destruct x as [sx|sx| |sx mx ex], y as [sy|sy| |sy my ey]; try discriminate.
  - change (Zval (S754_zero sx) - Zval (S754_zero sy)) with 0.
    rewrite (@round_signed_0 1 0) by lia.
    destruct sx, sy; reflexivity.
  - change (SF64sub (S754_zero sx) (S754_finite sy my ey))
      with (S754_finite (negb sy) my ey).
    change (Zval (S754_zero sx)) with 0. rewrite Z.sub_0_l.
    assert (Ho : - Zval (S754_finite sy my ey) = Zval (S754_finite (negb sy) my ey)).
    { cbn [Zval]. destruct sy; cbn [negb cond_Zopp]; lia. }
    rewrite Ho. symmetry. apply round_signed_repr. exact Vy.
  - change (SF64sub (S754_finite sx mx ex) (S754_zero sy)) with (S754_finite sx mx ex).
    change (Zval (S754_zero sy)) with 0. rewrite Z.sub_0_r.
    symmetry. now apply round_signed_repr.
  - pose proof (@valid_exponent _ _ _ Vx) as Hex. pose proof (@valid_exponent _ _ _ Vy) as Hey.
    unfold SF64sub, SFsub in *.
    rewrite binary_normalize_units by (try assumption; lia).
    f_equal. rewrite Z.mul_sub_distr_r.
    rewrite (@Zval_aligned sx mx ex ey) by lia.
    rewrite (Z.min_comm ex ey). rewrite (@Zval_aligned sy my ey ex) by lia.
    reflexivity.
Qed.

(** The product of two floats is the rounding of the product. *)
Lemma SFmul_units (x y : spec_float) :
  valid_binary x = true -> valid_binary y = true ->
  sf_finite x = true -> sf_finite y = true ->
  sf_finite (SF64mul x y) = true ->
  Zval (SF64mul x y) = round_signed 1 1074 (Zval x * Zval y).
Proof.
  intros Vx Vy Fx Fy Fz.
  destruct x as [sx|sx| |sx mx ex], y as [sy|sy| |sy my ey]; try discriminate;
    try (cbn [Zval SF64mul SFmul]; rewrite ?Z.mul_0_l, ?Z.mul_0_r;
         symmetry; apply (@round_signed_0 1 1074); lia).
  pose proof (@valid_exponent _ _ _ Vx) as Hex. pose proof (@valid_exponent _ _ _ Vy) as Hey.
  unfold SF64mul, SFmul in *.
  rewrite (@binary_round_aux_units (xorb sx sy) (Zpos (mx * my)) (ex + ey) 1074)
    by (try assumption; lia).
  assert (Hp : 0 < Zpos (mx * my) * 2 ^ (ex + ey + 1074 + 1074))
    by (apply Z.mul_pos_pos; [lia | apply pow2_pos; lia]).
  rewrite cond_Zopp_round_signed by lia.
  f_equal. cbn [Zval].
  replace (ex + ey + 1074 + 1074) with ((ex + 1074) + (ey + 1074)) by lia.
  rewrite Z.pow_add_r by lia. rewrite Pos2Z.inj_mul.
  destruct sx, sy; cbn [xorb cond_Zopp]; ring.
Qed.

End Values.

Section Quotient.

Local Open Scope Z_scope.

Lemma round_units_cancel (A W c k : Z) :
  0 < W -> 0 < k -> 0 <= c -> round_units (A * k) (W * k) c = round_units A W c.
Proof.
  intros HW Hk Hc. unfold round_units.
  rewrite Z.div_mul_cancel_r by lia.
  set (n := Z.max (Zdigits2 (A / W) - 53) c).
  replace (W * k * 2 ^ n) with (W * 2 ^ n * k) by ring.
  rewrite rne_scale; [reflexivity | | exact Hk].
  apply Z.mul_pos_pos; [lia | apply pow2_pos; subst n; lia].
Qed.

Lemma new_location_loc_of (A W : Z) :
  0 < W -> new_location W (A mod W) = loc_of A W.
Proof.
  intros HW. pose proof (Z.mod_pos_bound A W HW) as Hr.
  unfold new_location, new_location_even, new_location_odd, loc_of.
  change IntDef.Z.even with Z.even.
  destruct (Z.even W) eqn:Ev; [reflexivity|].
  destruct (Z.eqb_spec (A mod W) 0) as [E|E]; [reflexivity|].
  f_equal.
  assert (Hodd : 2 * (A mod W) <> W).
  { intros Heq. rewrite <- Heq, Z.even_mul in Ev. discriminate Ev. }
  destruct (Z.compare_spec (2 * (A mod W) + 1) W) as [C|C|C];
    symmetry; [apply Z.compare_lt_iff | apply Z.compare_lt_iff | apply Z.compare_gt_iff];
    lia.
Qed.

Lemma Zdigits2_div_ge (a b : Z) :
  0 < a -> 0 < b -> Zdigits2 a - Zdigits2 b <= Zdigits2 (a / b).
Proof.
  intros Ha Hb.
  pose proof (Zdigits2_nonneg (a / b)) as Hq.
  destruct (Z_le_gt_dec (Zdigits2 a) (Zdigits2 b)) as [Hle|Hgt]; [lia|].
  pose proof (Zdigits2_ge_pow2 Ha) as Hlo.
  pose proof (@Zdigits2_lt_pow2 b ltac:(lia)) as Hhi.
  pose proof (@Zdigits2_pos b Hb) as Hdb.
  set (k := Zdigits2 a - 1 - Zdigits2 b) in *.
  assert (Hk : 0 <= k) by (subst k; lia).
  assert (Hge : 2 ^ k <= a / b).
  { apply Z.div_le_lower_bound; [lia|].
    assert (Hp : 0 < 2 ^ k) by (apply pow2_pos; lia).
    apply Z.le_trans with (2 ^ Zdigits2 b * 2 ^ k); [nia|].
    rewrite <- Z.pow_add_r by lia.
    replace (Zdigits2 b + k) with (Zdigits2 a - 1) by (subst k; lia). exact Hlo. }
  assert (Hpos : 0 < a / b) by (pose proof (pow2_pos (k := k) Hk); lia).
  rewrite (Zdigits2_log2 Hpos).
  assert (k <= Z.log2 (a / b)) by (apply Z.log2_le_pow2; lia).
  subst k. lia.
Qed.

(** The quotient of two floats is the rounding of the quotient. *)
Lemma SFdiv_units (sx sy : bool) (mx my : positive) (ex ey : Z) :
  valid_binary (S754_finite sx mx ex) = true ->
  valid_binary (S754_finite sy my ey) = true ->
  sf_finite (SF64div (S754_finite sx mx ex) (S754_finite sy my ey)) = true ->
  Zval (SF64div (S754_finite sx mx ex) (S754_finite sy my ey))
  = cond_Zopp (xorb sx sy)
      (round_units (Zpos mx * 2 ^ (ex + 1074) * 2 ^ 2148) (Zpos my * 2 ^ (ey + 1074)) 1074).
Proof.
  intros Vx Vy Hfin.
  pose proof (@valid_exponent _ _ _ Vx) as Hex.
  pose proof (@valid_exponent _ _ _ Vy) as Hey.
  destruct (bounded_canonical _ _ Vx) as (Hex' & Hdx & _).
  destruct (bounded_canonical _ _ Vy) as (Hey' & Hdy & _).
  unfold SF64div, SFdiv, SFdiv_core_binary in *. rewrite fexp64_eq in *.
  change IntDef.Z.min with Z.min in *.
  change IntDef.Z.shiftl with Z.shiftl in *.
  change IntDef.Z.div_eucl with Z.div_eucl in *.
  set (d1 := Zdigits2 (Zpos mx)) in *. set (d2 := Zdigits2 (Zpos my)) in *.
  set (e' := Z.min (Z.max (d1 + ex - (d2 + ey) - 53) (-1074)) (ex - ey)) in *.
  set (s := ex - ey - e') in *.
  assert (Hs : 0 <= s) by (subst s e'; lia).
  set (m' := match s with Zpos _ => Z.shiftl (Zpos mx) s | Z0 => Zpos mx | Zneg _ => 0 end) in *.
  assert (Hm' : m' = Zpos mx * 2 ^ s).
  { subst m'. destruct s as [|q|q] eqn:Es; try lia.
    now rewrite Z.shiftl_mul_pow2 by lia. }
  assert (Hm'pos : 0 < m')
    by (rewrite Hm'; apply Z.mul_pos_pos; [lia | apply Z.pow_pos_nonneg; lia]).
  assert (Hdm' : Zdigits2 m' = d1 + s)
    by (rewrite Hm'; apply Zdigits2_mul_pow2; lia).
  assert (Hqr : Z.div_eucl m' (Zpos my) = (m' / Zpos my, m' mod Zpos my)).
  { unfold Z.div, Z.modulo. destruct (Z.div_eucl m' (Zpos my)); reflexivity. }
  rewrite Hqr in *.
  rewrite new_location_loc_of in * by lia.
  pose proof (@Zdigits2_pos (Zpos mx) ltac:(lia)) as Hd1.
  pose proof (@Zdigits2_pos (Zpos my) ltac:(lia)) as Hd2.
  fold d1 in Hd1. fold d2 in Hd2.
  assert (He'lo : -2148 <= e') by (subst e'; lia).
  rewrite (@binary_round_aux_rne (xorb sx sy) m' (Zpos my) e') by (try assumption; lia).
  f_equal.
  pose proof (@Zdigits2_div_ge m' (Zpos my) Hm'pos ltac:(lia)) as Hdq.
  fold d2 in Hdq. rewrite Hdm' in Hdq.
  rewrite (@rne_round_units m' (Zpos my) e' 1074)
    by (try lia; right; subst s e'; lia).
  rewrite <- (@round_units_cancel (m' * 2 ^ (e' + 1074 + 1074)) (Zpos my) 1074
                (2 ^ (ey + 1074))) by (try lia; apply pow2_pos; lia).
  f_equal. rewrite Hm'.
  rewrite <- !Z.mul_assoc, <- !Z.pow_add_r by lia.
  f_equal. f_equal. subst s. lia.
Qed.

Lemma SFdiv_units_pos (x : spec_float) (my : positive) (ey : Z) :
  valid_binary x = true -> valid_binary (S754_finite false my ey) = true ->
  sf_finite x = true ->
  sf_finite (SF64div x (S754_finite false my ey)) = true ->
  Zval (SF64div x (S754_finite false my ey))
  = round_signed (Zval (S754_finite false my ey)) 1074 (Zval x * 2 ^ 2148).
Proof.
  intros Vx Vy Fx Fz.
  pose proof (@valid_exponent _ _ _ Vy) as Hey.
  assert (HW : 0 < Zval (S754_finite false my ey)).
  { cbn [Zval cond_Zopp]. apply Z.mul_pos_pos; [lia | apply pow2_pos; lia]. }
  destruct x as [sx|sx| |sx mx ex]; try discriminate.
  - cbn [Zval SF64div SFdiv] in *. rewrite Z.mul_0_l.
    symmetry. apply round_signed_0; lia.
  - pose proof (@valid_exponent _ _ _ Vx) as Hex.
    rewrite SFdiv_units by assumption.
    rewrite xorb_false_r.
    assert (Hp : 0 < Zpos mx * 2 ^ (ex + 1074) * 2 ^ 2148).
    { apply Z.mul_pos_pos; [|apply pow2_pos; lia].
      apply Z.mul_pos_pos; [lia | apply pow2_pos; lia]. }
    change (Zval (S754_finite false my ey)) with (Zpos my * 2 ^ (ey + 1074)) in *.
    rewrite cond_Zopp_round_signed by lia.
    f_equal. cbn [Zval]. destruct sx; cbn [cond_Zopp]; ring.
Qed.

End Quotient.

(** ** Binary64: the operations are monotone *)

Section Monotone.

Local Open Scope Z_scope.

Lemma leb_finite (a b : float) :
  sf_finite (Prim2SF a) = true -> sf_finite (Prim2SF b) = true ->
  (PrimFloat.leb a b = true <-> Zval (Prim2SF a) <= Zval (Prim2SF b)).
Proof.
  intros Ha Hb. rewrite leb_spec. unfold SFleb.
  rewrite SFcompare_Zval by (try apply Prim2SF_valid; assumption).
  destruct (Z.compare_spec (Zval (Prim2SF a)) (Zval (Prim2SF b)));
    split; intros; try reflexivity; try discriminate; lia.
Qed.

Lemma leb_refl_finite (a : float) :
  sf_finite (Prim2SF a) = true -> PrimFloat.leb a a = true.
Proof. intros Ha. apply leb_finite; [assumption | assumption | lia]. Qed.

Lemma nonneg_Zval (c : float) : nonneg c -> 0 <= Zval (Prim2SF c).
Proof.
  unfold nonneg. destruct (Prim2SF c) as [s|s| |s m e]; cbn [sf_nonneg Zval];
    try discriminate; try lia.
  destruct s; [discriminate|]. intros _. cbn [cond_Zopp].
  apply Z.mul_nonneg_nonneg; [lia | apply Z.pow_nonneg; lia].
Qed.

Lemma add_mono (a a' b b' : float) :
  sf_finite (Prim2SF a) = true -> sf_finite (Prim2SF a') = true ->
  sf_finite (Prim2SF b) = true -> sf_finite (Prim2SF b') = true ->
  sf_finite (Prim2SF (a + b)) = true -> sf_finite (Prim2SF (a' + b')) = true ->
  PrimFloat.leb a a' = true -> PrimFloat.leb b b' = true ->
  PrimFloat.leb (a + b) (a' + b') = true.
Proof.
  intros Fa Fa' Fb Fb' Fs Fs' Ha Hb.
  apply leb_finite in Ha; [|assumption..]. apply leb_finite in Hb; [|assumption..].
  apply leb_finite; [assumption..|].
  rewrite add_spec in Fs, Fs'. rewrite !add_spec.
  rewrite !SFadd_units by (try apply Prim2SF_valid; assumption).
  apply round_signed_mono; lia.
Qed.

Lemma sub_mono (a a' b b' : float) :
  sf_finite (Prim2SF a) = true -> sf_finite (Prim2SF a') = true ->
  sf_finite (Prim2SF b) = true -> sf_finite (Prim2SF b') = true ->
  sf_finite (Prim2SF (a - b)) = true -> sf_finite (Prim2SF (a' - b')) = true ->
  PrimFloat.leb a a' = true -> PrimFloat.leb b' b = true ->
  PrimFloat.leb (a - b) (a' - b') = true.
Proof.
  intros Fa Fa' Fb Fb' Fs Fs' Ha Hb.
  apply leb_finite in Ha; [|assumption..]. apply leb_finite in Hb; [|assumption..].
  apply leb_finite; [assumption..|].
  rewrite sub_spec in Fs, Fs'. rewrite !sub_spec.
  rewrite !SFsub_units by (try apply Prim2SF_valid; assumption).
  apply round_signed_mono; lia.
Qed.

Lemma mul_mono_r (c a a' : float) :
  sf_finite (Prim2SF c) = true ->
  sf_finite (Prim2SF a) = true -> sf_finite (Prim2SF a') = true ->
  sf_finite (Prim2SF (c * a)) = true -> sf_finite (Prim2SF (c * a')) = true ->
  nonneg c -> PrimFloat.leb a a' = true ->
  PrimFloat.leb (c * a) (c * a') = true.
Proof.
  intros Fc Fa Fa' Fs Fs' Hc Ha.
  apply leb_finite in Ha; [|assumption..]. apply nonneg_Zval in Hc.
  apply leb_finite; [assumption..|].
  rewrite mul_spec in Fs, Fs'. rewrite !mul_spec.
  rewrite !SFmul_units by (try apply Prim2SF_valid; assumption).
  apply round_signed_mono; try lia.
  apply Z.mul_le_mono_nonneg_l; assumption.
Qed.

Lemma mul_mono_l (c a a' : float) :
  sf_finite (Prim2SF c) = true ->
  sf_finite (Prim2SF a) = true -> sf_finite (Prim2SF a') = true ->
  sf_finite (Prim2SF (a * c)) = true -> sf_finite (Prim2SF (a' * c)) = true ->
  nonneg c -> PrimFloat.leb a a' = true ->
  PrimFloat.leb (a * c) (a' * c) = true.
Proof.
  intros Fc Fa Fa' Fs Fs' Hc Ha.
  apply leb_finite in Ha; [|assumption..]. apply nonneg_Zval in Hc.
  apply leb_finite; [assumption..|].
  rewrite mul_spec in Fs, Fs'. rewrite !mul_spec.
  rewrite !SFmul_units by (try apply Prim2SF_valid; assumption).
  apply round_signed_mono; try lia.
  apply Z.mul_le_mono_nonneg_r; assumption.
Qed.

Lemma div_mono (a a' n : float) (L : Z) :
  sf_finite (Prim2SF a) = true -> sf_finite (Prim2SF a') = true ->
  sf_finite (Prim2SF (a / n)) = true -> sf_finite (Prim2SF (a' / n)) = true ->
  mag_ge L (Prim2SF n) -> nonneg n -> PrimFloat.leb a a' = true ->
  PrimFloat.leb (a / n) (a' / n) = true.
Proof.
  intros Fa Fa' Fs Fs' Hn Hnn Ha.
  apply leb_finite in Ha; [|assumption..].
  apply leb_finite; [assumption..|].
  rewrite div_spec in Fs, Fs'. rewrite !div_spec.
  pose proof (Prim2SF_valid n) as Vn. unfold nonneg in Hnn.
  destruct (Prim2SF n) as [s|s| |s my ey]; try contradiction.
  destruct s; [discriminate Hnn|].
  rewrite !SFdiv_units_pos by (try apply Prim2SF_valid; assumption).
  pose proof (@valid_exponent _ _ _ Vn) as Hey.
  apply round_signed_mono; [|lia|].
  - cbn [Zval cond_Zopp]. apply Z.mul_pos_pos; [lia | apply pow2_pos; lia].
  - apply Z.mul_le_mono_nonneg_r; [apply Z.pow_nonneg; lia | exact Ha].
Qed.

End Monotone.

Section Ordered.

Local Open Scope Z_scope.

Lemma ordered_leb (K : Z) (a a' : float) : ordered K a a' -> PrimFloat.leb a a' = true.
Proof. intros (_ & _ & Hle). exact Hle. Qed.

Lemma ordered_refl (K : Z) (a : float) : fin K a -> ordered K a a.
Proof.
  intros Ha. split; [exact Ha|]. split; [exact Ha|].
  apply leb_refl_finite. exact (@fin_sf_finite _ _ Ha).
Qed.

Lemma ordered_leaf (K K' : Z) (a a' : float) :
  fin K a -> fin K' a' -> PrimFloat.leb a a' = true -> ordered (Z.max K K') a a'.
Proof.
  intros Ha Ha' Hle. split; [eapply fin_weaken; [exact Ha | lia]|].
  split; [eapply fin_weaken; [exact Ha' | lia] | exact Hle].
Qed.

Lemma ordered_add (Ka Kb : Z) (a a' b b' : float) :
  ordered Ka a a' -> ordered Kb b b' -> -1074 <= Z.max Ka Kb + 1 <= 971 ->
  ordered (Z.max Ka Kb + 2) (a + b) (a' + b').
Proof.
  intros (Fa & Fa' & Ha) (Fb & Fb' & Hb) HK.
  assert (Fs : fin (Z.max Ka Kb + 2) (a + b)) by now apply fin_add.
  assert (Fs' : fin (Z.max Ka Kb + 2) (a' + b')) by now apply fin_add.
  split; [exact Fs|]. split; [exact Fs'|].
  apply add_mono; try assumption; eapply fin_sf_finite; eassumption.
Qed.

Lemma ordered_sub (Ka Kb : Z) (a a' b b' : float) :
  ordered Ka a a' -> ordered Kb b' b -> -1074 <= Z.max Ka Kb + 1 <= 971 ->
  ordered (Z.max Ka Kb + 2) (a - b) (a' - b').
Proof.
  intros (Fa & Fa' & Ha) (Fb' & Fb & Hb) HK.
  assert (Fs : fin (Z.max Ka Kb + 2) (a - b)) by now apply fin_sub.
  assert (Fs' : fin (Z.max Ka Kb + 2) (a' - b')) by now apply fin_sub.
  split; [exact Fs|]. split; [exact Fs'|].
  apply sub_mono; try assumption; eapply fin_sf_finite; eassumption.
Qed.

Lemma ordered_mul_r (Kc Ka : Z) (c a a' : float) :
  fin Kc c -> nonneg c -> ordered Ka a a' -> -1074 <= Kc + Ka <= 971 ->
  ordered (Kc + Ka + 1) (c * a) (c * a').
Proof.
  intros Fc Nc (Fa & Fa' & Ha) HK.
  assert (Fs : fin (Kc + Ka + 1) (c * a)) by now apply fin_mul.
  assert (Fs' : fin (Kc + Ka + 1) (c * a')) by now apply fin_mul.
  split; [exact Fs|]. split; [exact Fs'|].
  apply mul_mono_r; try assumption; eapply fin_sf_finite; eassumption.
Qed.

Lemma ordered_mul_l (Kc Ka : Z) (c a a' : float) :
  fin Kc c -> nonneg c -> ordered Ka a a' -> -1074 <= Ka + Kc <= 971 ->
  ordered (Ka + Kc + 1) (a * c) (a' * c).
Proof.
  intros Fc Nc (Fa & Fa' & Ha) HK.
  assert (Fs : fin (Ka + Kc + 1) (a * c)) by now apply fin_mul.
  assert (Fs' : fin (Ka + Kc + 1) (a' * c)) by now apply fin_mul.
  split; [exact Fs|]. split; [exact Fs'|].
  apply mul_mono_l; try assumption; eapply fin_sf_finite; eassumption.
Qed.

Lemma ordered_div (Ka L : Z) (a a' n : float) :
  ordered Ka a a' -> mag_ge L (Prim2SF n) -> nonneg n ->
  -1074 <= Ka - L + 1 <= 971 ->
  ordered (Ka - L + 2) (a / n) (a' / n).
Proof.
  intros (Fa & Fa' & Ha) Mn Nn HK.
  assert (Fs : fin (Ka - L + 2) (a / n)) by now apply fin_div.
  assert (Fs' : fin (Ka - L + 2) (a' / n)) by now apply fin_div.
  split; [exact Fs|]. split; [exact Fs'|].
  eapply div_mono; try eassumption; eapply fin_sf_finite; eassumption.
Qed.

End Ordered.

(** Orders two expressions of the same shape from the order of their
    leaves. *)
Ltac ordered_go :=
  first
    [ eapply ordered_refl; fin_go
    | eapply ordered_leaf; [eassumption | eassumption | eassumption]
    | lazymatch goal with
      | |- ordered _ (PrimFloat.add _ _) (PrimFloat.add _ _) =>
          eapply ordered_add; [ordered_go | ordered_go | lia]
      | |- ordered _ (PrimFloat.sub _ _) (PrimFloat.sub _ _) =>
          eapply ordered_sub; [ordered_go | ordered_go | lia]
      | |- ordered _ (PrimFloat.mul ?c _) (PrimFloat.mul ?c _) =>
          eapply ordered_mul_r; [fin_go | eassumption | ordered_go | lia]
      | |- ordered _ (PrimFloat.mul _ ?c) (PrimFloat.mul _ ?c) =>
          eapply ordered_mul_l; [fin_go | eassumption | ordered_go | lia]
      | |- ordered _ (PrimFloat.div _ ?n) (PrimFloat.div _ ?n) =>
          eapply ordered_div; [ordered_go | eassumption | eassumption | lia]
      end ].

Ltac mono_go := eapply ordered_leb; ordered_go.

(** ** Binary64: the curves move with the sliders *)

Lemma divisor_nonneg (n : Z) : (1 <= n <= 10000)%Z -> nonneg (float_of_int n).
Proof.
  intros Hn. unfold nonneg. rewrite float_of_int_spec by lia.
  apply binary_normalize_nonneg with (K := 14%Z); try lia.
  rewrite Zdigits2_log2 by lia.
  assert (Z.log2 n <= 13)%Z by (change 13%Z with (Z.log2 10000); apply Z.log2_le_mono; lia).
  lia.
Qed.

(** What the slider ranges give for the values the curves are built from. *)
Lemma slider_values (ps : ParameterSet float) :
  float_valid ps ->
  fin 1 (pi ps) /\ fin 1 (C_op ps) /\ fin 26 (H ps) /\ fin 16 (v ps)
  /\ fin 1 (delta ps)
  /\ fin 15 (float_of_int (N ps)) /\ mag_ge 1 (Prim2SF (float_of_int (N ps)))
  /\ nonneg (float_of_int (N ps)).
Proof.
  intros (Hpi & Hc & Hh & Hv & Hn & Ha & Hb & Hk & Hd).
  destruct (divisor_mag Hn) as [HN1 HN2].
  repeat split; try by_range; try assumption.
  now apply divisor_nonneg.
Qed.

Section Sliders.

Variable LT : Libm float.
Variable ps : ParameterSet float.
Hypothesis Hvalid : float_valid ps.
Hypothesis Hexp : between 0 2 (np_exp (mul (neg (beta ps)) (a_star ps))).
Hypothesis Hpow : between 0 128 (pow2 (a_star ps)).

(** The company-operated branch decides the order of lines 46 and 47. *)
Lemma order_by_cost (f : float) :
  In f F ->
  (PrimFloat.leb (C_op ps) (div (C_op_F ps f) (of_int (N ps))) = true ->
   PrimFloat.leb (P_endh_at ps f) (P_base_at ps f) = true)
  /\ (PrimFloat.leb (div (C_op_F ps f) (of_int (N ps))) (C_op ps) = true ->
      PrimFloat.leb (P_base_at ps f) (P_endh_at ps f) = true).
Proof.
  intros Hf. destruct (grid_fin Hf) as [Hf1 Hf2].
  destruct (grid_nonneg Hf) as [Nf1 Nf2].
  destruct (slider_values Hvalid) as (Fpi & Fc & Fh & Fv & Fd & FN & MN & NN).
  pose proof (fin_per_outlet Hvalid Hf) as Fcost.
  pose proof (@fin_franchised LT ps Hvalid Hexp Hpow) as Ffp.
  unfold franchised_profit in Ffp. unfold P_endh_at, P_base_at.
  set (cost := div (C_op_F ps f) (of_int (N ps))) in *.
  set (fp := sub (mul (p ps (a_star ps)) (pi ps)) (c ps (a_star ps))) in *.
  cbn [add sub mul div neg of_int float_arith] in *.
  clearbody cost fp.
  split; intros Hle; mono_go.
Qed.

(** Raising a cost lowers no entry. *)
Lemma costs_lower_float (c_op h w dl : float) (i : nat) :
  float_valid (with_delta (with_overheads ps c_op h w) dl) ->
  PrimFloat.leb (C_op ps) c_op = true -> PrimFloat.leb (H ps) h = true ->
  PrimFloat.leb (v ps) w = true -> PrimFloat.leb (delta ps) dl = true ->
  (i < 200)%nat ->
  PrimFloat.leb (nth i (P_base (with_overheads ps c_op h w)) 0%float)
                (nth i (P_base ps) 0%float) = true
  /\ PrimFloat.leb (nth i (P_endh (with_overheads ps c_op h w)) 0%float)
                   (nth i (P_endh ps) 0%float) = true
  /\ PrimFloat.leb
       (nth i (P_dup (with_delta (with_overheads ps c_op h w) dl)) 0%float)
       (nth i (P_dup ps) 0%float) = true.
Proof.
  intros Hvalid' Lc Lh Lv Ld Hi.
  assert (Hf : In (nth i F 0%float) F) by (apply nth_In; now rewrite F_length).
  destruct (grid_fin Hf) as [Hf1 Hf2].
  destruct (grid_nonneg Hf) as [Nf1 Nf2].
  destruct (slider_values Hvalid) as (Fpi & Fc & Fh & Fv & Fd & FN & MN & NN).
  destruct (slider_values Hvalid') as (_ & Fc' & Fh' & Fv' & Fd' & _).
  cbn [with_delta with_overheads pi C_op H v delta N] in Fc', Fh', Fv', Fd'.
  pose proof (@fin_franchised LT ps Hvalid Hexp Hpow) as Ffp.
  unfold franchised_profit in Ffp.
  rewrite !P_dup_nth, !P_endh_nth, !P_base_nth by assumption.
  unfold P_endh_at, P_base_at, C_op_F.
  cbn [with_delta with_overheads pi C_op H v delta N a_star].
  change (p (with_delta (with_overheads ps c_op h w) dl)) with (p ps).
  change (c (with_delta (with_overheads ps c_op h w) dl)) with (c ps).
  change (p (with_overheads ps c_op h w)) with (p ps).
  change (c (with_overheads ps c_op h w)) with (c ps).
  set (f := nth i F 0%float) in *.
  set (fp := sub (mul (p ps (a_star ps)) (pi ps)) (c ps (a_star ps))) in *.
  cbn [add sub mul div neg of_int float_arith] in *.
  clearbody f fp.
  split; [mono_go | split; mono_go].
Qed.

End Sliders.

Lemma between_0_1_2 (e : float) : between 0 1 e -> between 0 2 e.
Proof.
  intros He. pose proof He as [H0 H1]. split; [exact H0|].
  assert (Fe : fin 1 e) by (eapply fin_between; [| |exact He]; reflexivity).
  assert (F1 : fin 1 1%float) by (apply finb_spec; vm_compute; reflexivity).
  assert (F2 : fin 2 2%float) by (apply finb_spec; vm_compute; reflexivity).
  apply (proj1 (@leb_Zval _ _ _ _ Fe F1)) in H1.
  apply (proj2 (@leb_Zval _ _ _ _ Fe F2)).
  eapply Z.le_trans; [exact H1|]. vm_compute. discriminate.
Qed.

Section Profit.

Variable LT : Libm float.
Variable ps : ParameterSet float.
Hypothesis Hvalid : float_valid ps.
Hypothesis Hexp1 : between 0 1 (np_exp (mul (neg (beta ps)) (a_star ps))).
Hypothesis Hpow : between 0 128 (pow2 (a_star ps)).

Lemma p_nonneg : nonneg (p ps (a_star ps)).
Proof.
  assert (F1 : fin 1 (float_of_int 1)) by (apply finb_spec; vm_compute; reflexivity).
  assert (Fe : fin 1 (np_exp (mul (neg (beta ps)) (a_star ps)))) by by_range.
  destruct Hexp1 as [_ Hle].
  unfold p. cbn [add sub mul div neg of_int float_arith] in *.
  apply nonneg_sub with (Ka := 1%Z) (Kb := 1%Z); try assumption. lia.
Qed.

(** Raising the potential profit lowers no entry. *)
Lemma profit_raises_float (x : float) (i : nat) :
  between 0 1 x -> PrimFloat.leb (pi ps) x = true -> (i < 200)%nat ->
  PrimFloat.leb (nth i (P_base ps) 0%float)
                (nth i (P_base (with_pi ps x)) 0%float) = true
  /\ PrimFloat.leb (nth i (P_endh ps) 0%float)
                   (nth i (P_endh (with_pi ps x)) 0%float) = true
  /\ PrimFloat.leb (nth i (P_dup ps) 0%float)
                   (nth i (P_dup (with_pi ps x)) 0%float) = true.
Proof.
  intros Hx Lx Hi.
  assert (Hf : In (nth i F 0%float) F) by (apply nth_In; now rewrite F_length).
  destruct (grid_fin Hf) as [Hf1 Hf2].
  destruct (grid_nonneg Hf) as [Nf1 Nf2].
  destruct (slider_values Hvalid) as (Fpi & Fc & Fh & Fv & Fd & FN & MN & NN).
  assert (Fx : fin 1 x) by by_range.
  pose proof (@fin_c LT ps Hvalid Hpow) as Fcc.
  pose proof (between_0_1_2 Hexp1) as Hexp.
  pose proof (@fin_p LT ps Hexp) as Fp.
  pose proof p_nonneg as Np.
  pose proof (fin_per_outlet Hvalid Hf) as Fcost.
  rewrite !P_dup_nth, !P_endh_nth, !P_base_nth by assumption.
  unfold P_endh_at, P_base_at.
  cbn [with_pi pi C_op H v delta N a_star].
  change (p (with_pi ps x)) with (p ps).
  change (c (with_pi ps x)) with (c ps).
  change (C_op_F (with_pi ps x)) with (C_op_F ps).
  set (f := nth i F 0%float) in *.
  set (cost := div (C_op_F ps f) (of_int (N ps))) in *.
  set (pa := p ps (a_star ps)) in *. set (ca := c ps (a_star ps)) in *.
  cbn [add sub mul div neg of_int float_arith] in *.
  clearbody f cost pa ca.
  split; [mono_go | split; mono_go].
Qed.

End Profit.

(** The grid in binary64 is in order. *)
Lemma F_nth_leb (i j : nat) :
  (i <= j < 200)%nat ->
  PrimFloat.leb (nth i (F (T := float)) 0%float) (nth j F 0%float) = true.
Proof.
  intros Hij.
  assert (Hfi : In (nth i (F (T := float)) 0%float) F)
    by (apply nth_In; rewrite F_length; lia).
  assert (Hfj : In (nth j (F (T := float)) 0%float) F)
    by (apply nth_In; rewrite F_length; lia).
  destruct (grid_fin Hfi) as [Fi _]. destruct (grid_fin Hfj) as [Fj _].
  destruct (Nat.eq_dec i j) as [->|Hne].
  - apply leb_refl_finite. exact (@fin_sf_finite _ _ Fj).
  - assert (Hlt : PrimFloat.ltb (nth i (F (T := float)) 0%float) (nth j F 0%float) = true).
    { apply increasing_nth; [vm_compute; reflexivity | rewrite F_length; lia]. }
    apply (proj1 (@ltb_Zval _ _ _ _ Fi Fj)) in Hlt.
    apply (proj2 (@leb_Zval _ _ _ _ Fi Fj)). lia.
Qed.

Section TotalCost.

Variable ps : ParameterSet float.
Hypothesis Hvalid : float_valid ps.

Lemma v_nonneg : nonneg (v ps).
Proof.
  destruct Hvalid as (_ & _ & _ & Hv & _).
  assert (Fv : fin 16 (v ps)) by by_range.
  apply nonneg_above with (lo := 0%float) (K := 16%Z); [reflexivity | apply Hv | exact Fv].
Qed.

Lemma total_cost_falls (i j : nat) :
  (i <= j < 200)%nat ->
  PrimFloat.leb (C_op_F ps (nth j F 0%float)) (C_op_F ps (nth i F 0%float)) = true
  /\ PrimFloat.leb (div (C_op_F ps (nth j F 0%float)) (of_int (N ps)))
                   (div (C_op_F ps (nth i F 0%float)) (of_int (N ps))) = true.
Proof.
  intros Hij.
  pose proof (F_nth_leb Hij) as Hle.
  assert (Hfi : In (nth i (F (T := float)) 0%float) F)
    by (apply nth_In; rewrite F_length; lia).
  assert (Hfj : In (nth j (F (T := float)) 0%float) F)
    by (apply nth_In; rewrite F_length; lia).
  destruct (grid_fin Hfi) as [Fi _]. destruct (grid_fin Hfj) as [Fj _].
  destruct (slider_values Hvalid) as (Fpi & Fc & Fh & Fv & Fd & FN & MN & NN).
  pose proof v_nonneg as Nv.
  assert (F1 : fin 1 (float_of_int 1)) by (apply finb_spec; vm_compute; reflexivity).
  unfold C_op_F.
  set (fi := nth i F 0%float) in *. set (fj := nth j F 0%float) in *.
  cbn [add sub mul div neg of_int float_arith] in *.
  clearbody fi fj.
  split; mono_go.
Qed.

Lemma total_cost_ends :
  C_op_F ps (nth 0 F 0%float) = add (H ps) (mul (v ps) (of_int (N ps)))
  /\ PrimFloat.eqb (C_op_F ps (nth 199 F 0%float)) (H ps) = true.
Proof.
  destruct (slider_values Hvalid) as (Fpi & Fc & Fh & Fv & Fd & FN & MN & NN).
  rewrite F_first_float, F_last_float. unfold C_op_F.
  cbn [add sub mul div neg of_int float_arith] in *.
  split.
  - change (PrimFloat.sub (float_of_int 1) 0) with 1%float.
    now rewrite float_mul_1_r.
  - change (PrimFloat.sub (float_of_int 1) 1) with 0%float.
    apply eqb_add_zero_r with (K := 26%Z); [exact Fh|].
    apply zero_mul_l with (K := 15%Z); [exact FN|].
    apply zero_mul_r with (K := 16%Z); [exact Fv | exact I].
Qed.

End TotalCost.

(** ** The curves in exact arithmetic *)

Section ExactShape.

Local Open Scope R_scope.
Variable ps : ParameterSet R.

Lemma exp_le_1 (x : R) : x <= 0 -> exp x <= 1.
Proof.
  intros [Hx | ->]; [|rewrite exp_0; lra].
  pose proof (exp_increasing _ _ Hx) as Hlt. rewrite exp_0 in Hlt. lra.
Qed.

(** The per-outlet cost of line 47 when [N] is not 0. *)
Lemma per_outlet_cost (f : R) :
  N ps <> 0%Z ->
  C_op_F ps f / IZR (N ps) = H ps / IZR (N ps) + v ps * (1 - f).
Proof.
  intros Hn. unfold C_op_F. cbn [add sub mul of_int R_arith].
  change (IZR 1) with 1.
  assert (Hq1 : IZR (N ps) <> 0) by (apply not_0_IZR; exact Hn).
  field. assumption.
Qed.

Lemma P_endh_split (i : nat) :
  N ps <> 0%Z -> (i < 200)%nat ->
  nth i (P_endh ps) 0 =
  (1 - nth i F 0) * (pi ps - H ps / IZR (N ps) - v ps * (1 - nth i F 0))
  + nth i F 0 * franchised_profit ps.
Proof.
  intros Hn Hi. rewrite P_endh_nth by assumption.
  unfold P_endh_at. cbn [add sub mul div of_int R_arith].
  change (IZR 1) with 1. rewrite (per_outlet_cost _ Hn).
  unfold franchised_profit. cbn [sub mul R_arith]. ring.
Qed.

End ExactShape.

(** ** The sliders a curve reads *)

Section Frame.

Context {T : Type} {AT : Arith T} {LT : Libm T}.
Variables ps ps' : ParameterSet T.
Hypothesis Hpi : pi ps' = pi ps.
Hypothesis Ha : a_star ps' = a_star ps.
Hypothesis Hb : beta ps' = beta ps.
Hypothesis Hk : kappa ps' = kappa ps.

Lemma franchised_profit_frame : franchised_profit ps' = franchised_profit ps.
Proof. unfold franchised_profit, p, c. now rewrite Hpi, Ha, Hb, Hk. Qed.

Lemma P_base_frame : C_op ps' = C_op ps -> P_base ps' = P_base ps.
Proof.
  intros Hc. unfold P_base. apply map_ext. intros f.
  pose proof franchised_profit_frame as Hf. unfold franchised_profit in Hf.
  unfold P_base_at. now rewrite Hf, Hpi, Hc.
Qed.

Lemma P_endh_frame :
  H ps' = H ps -> v ps' = v ps -> N ps' = N ps -> P_endh ps' = P_endh ps.
Proof.
  intros Hh Hv Hn. unfold P_endh. apply map_ext. intros f.
  pose proof franchised_profit_frame as Hf. unfold franchised_profit in Hf.
  unfold P_endh_at, C_op_F. now rewrite Hf, Hpi, Hh, Hv, Hn.
Qed.

Lemma P_dup_frame :
  H ps' = H ps -> v ps' = v ps -> N ps' = N ps -> delta ps' = delta ps ->
  P_dup ps' = P_dup ps.
Proof.
  intros Hh Hv Hn Hd. unfold P_dup. now rewrite P_endh_frame, Hd.
Qed.

End Frame.

(** ** What the sliders do to the curves *)

(** X3.  The total cost of the company-operated outlets, [C_op_F(F) = H + v
    * (1 - F) * N] of line 39, never rises with the franchise ratio, and
    neither does the cost per outlet [C_op_F(F)/N] of line 47; it is [H + v *
    N] at [F = 0] and [H] at [F = 1]: in exact arithmetic for [v >= 0] and [N
    >= 0] ([N >= 1] for the cost per outlet), and in binary64 along the grid
    under the float comparisons for slider values in the declared ranges. *)
Theorem total_cost_never_rises :
  (forall (ps : ParameterSet R) (f g : R),
     (0 <= v ps)%R -> (0 <= N ps)%Z -> (f <= g)%R ->
     (C_op_F ps g <= C_op_F ps f)%R
     /\ ((1 <= N ps)%Z ->
         (C_op_F ps g / IZR (N ps) <= C_op_F ps f / IZR (N ps))%R)
     /\ C_op_F ps 0%R = (H ps + v ps * IZR (N ps))%R
     /\ C_op_F ps 1%R = H ps)
  /\ (forall ps : ParameterSet float,
        float_valid ps ->
        (forall i j : nat, (i <= j < 200)%nat ->
           PrimFloat.leb (C_op_F ps (nth j F 0%float)) (C_op_F ps (nth i F 0%float))
           = true
           /\ PrimFloat.leb (div (C_op_F ps (nth j F 0%float)) (of_int (N ps)))
                            (div (C_op_F ps (nth i F 0%float)) (of_int (N ps)))
              = true)
        /\ C_op_F ps (nth 0 F 0%float) = add (H ps) (mul (v ps) (of_int (N ps)))
        /\ PrimFloat.eqb (C_op_F ps (nth 199 F 0%float)) (H ps) = true).
Proof.
  split.
  - intros ps f g Hv Hn Hfg. unfold C_op_F. cbn [add sub mul of_int R_arith].
    change (IZR 1) with 1%R.
    assert (HN : (0 <= IZR (N ps))%R) by (apply IZR_le; exact Hn).
    assert (HvN : (0 <= v ps * IZR (N ps))%R) by (apply Rmult_le_pos; assumption).
    assert (Hle : (H ps + v ps * (1 - g) * IZR (N ps)
                   <= H ps + v ps * (1 - f) * IZR (N ps))%R) by nra.
    split; [exact Hle|]. split; [|split; ring].
    intros Hn1. assert (HN1 : (1 <= IZR (N ps))%R) by (apply IZR_le; exact Hn1).
    unfold Rdiv. apply Rmult_le_compat_r; [|exact Hle].
    left. apply Rinv_0_lt_compat. lra.
  - intros ps Hvalid. split; [intros i j Hij; now apply total_cost_falls|].
    now apply total_cost_ends.
Qed.

Lemma total_cost_never_rises_witness :
  PrimFloat.leb (C_op_F float_defaults (nth 150 F 0%float))
                (C_op_F float_defaults (nth 50 F 0%float)) = true.
Proof.
  assert (Hij : (50 <= 150 < 200)%nat) by lia.
  exact (proj1 (proj1 (proj2 total_cost_never_rises float_defaults
                         float_defaults_valid) 50%nat 150%nat Hij)).
Defined.

(** X5.  Lines 46 and 47 differ in the company-operated branch only, so the
    cost per company outlet decides which curve is on top.  At every grid
    index, if the per-outlet cost [C_op_F(F)/N] of line 47 is at least
    [C_op], the endogenous-overhead entry is at most the baseline entry, and
    the other way round: in exact arithmetic, and in binary64 under the float
    comparisons for slider values in the declared ranges and [libm] results
    as in C8. *)
Theorem P_endh_against_P_base :
  (forall (ps : ParameterSet R) (i : nat),
     (i < 200)%nat ->
     (C_op ps <= C_op_F ps (nth i F 0) / IZR (N ps) ->
      nth i (P_endh ps) 0 <= nth i (P_base ps) 0)%R
     /\ (C_op_F ps (nth i F 0) / IZR (N ps) <= C_op ps ->
         nth i (P_base ps) 0 <= nth i (P_endh ps) 0)%R)
  /\ (forall (LT : Libm float) (ps : ParameterSet float),
        float_valid ps ->
        between 0 2 (np_exp (mul (neg (beta ps)) (a_star ps))) ->
        between 0 128 (pow2 (a_star ps)) ->
        forall i : nat, (i < 200)%nat ->
          (PrimFloat.leb (C_op ps)
             (div (C_op_F ps (nth i F 0%float)) (of_int (N ps))) = true ->
           PrimFloat.leb (nth i (P_endh ps) 0%float) (nth i (P_base ps) 0%float)
           = true)
          /\ (PrimFloat.leb (div (C_op_F ps (nth i F 0%float)) (of_int (N ps)))
                (C_op ps) = true ->
              PrimFloat.leb (nth i (P_base ps) 0%float) (nth i (P_endh ps) 0%float)
              = true)).
Proof.
  split.
  - intros ps i Hi. rewrite P_endh_nth, P_base_nth by assumption.
    pose proof (F_nth_bounds Hi) as [H0 H1].
    unfold P_endh_at, P_base_at. cbn [add sub mul div of_int R_arith].
    change (IZR 1) with 1%R.
    set (cost := (C_op_F ps (nth i F 0) / IZR (N ps))%R).
    split; intros Hc; nra.
  - intros LT ps Hvalid Hexp Hpow i Hi.
    rewrite P_endh_nth, P_base_nth by assumption.
    apply order_by_cost; try assumption.
    apply nth_In. now rewrite F_length.
Qed.

Lemma P_endh_against_P_base_witness :
  PrimFloat.leb (nth 100 (P_endh (LT := libm_at_defaults) float_defaults) 0%float)
                (nth 100 (P_base (LT := libm_at_defaults) float_defaults) 0%float)
  = true.
Proof.
  assert (He : between 0 2 (np_exp (Libm := libm_at_defaults)
                              (mul (neg (beta float_defaults)) (a_star float_defaults))))
    by (split; vm_compute; reflexivity).
  assert (Hp : between 0 128 (pow2 (Libm := libm_at_defaults) (a_star float_defaults)))
    by (split; vm_compute; reflexivity).
  assert (Hi : (100 < 200)%nat) by lia.
  apply (proj2 P_endh_against_P_base libm_at_defaults float_defaults
           float_defaults_valid He Hp 100%nat Hi).
  vm_compute. reflexivity.
Defined.

(** X9.  Which sliders a curve reads.  In any arithmetic, the baseline curve
    of line 46 depends on [pi], [C_op], [a_star], [beta] and [kappa] only: two
    parameter sets that agree on these give the same array, whatever [H], [v],
    [N] and [delta] are.  The endogenous-overhead curve of line 47 does not
    read [C_op] and [delta], and the duplication curve of line 48 does not
    read [C_op]. *)
Theorem curves_ignore_other_sliders {T : Type} {AT : Arith T} {LT : Libm T}
        (ps ps' : ParameterSet T) :
  pi ps' = pi ps -> a_star ps' = a_star ps -> beta ps' = beta ps ->
  kappa ps' = kappa ps ->
  (C_op ps' = C_op ps -> P_base ps' = P_base ps)
  /\ (H ps' = H ps -> v ps' = v ps -> N ps' = N ps ->
      P_endh ps' = P_endh ps
      /\ (delta ps' = delta ps -> P_dup ps' = P_dup ps)).
Proof.
  intros Hpi Ha Hb Hk. split.
  - now apply P_base_frame.
  - intros Hh Hv Hn. split; [now apply P_endh_frame|].
    intros Hd. now apply P_dup_frame.
Qed.

Lemma curves_ignore_other_sliders_witness :
  P_base (with_delta (with_N (with_overheads defaults 0.20%R 0%R 0%R) 1) 1%R)
  = P_base defaults
  /\ P_endh (with_delta (with_overheads defaults 1%R 10000000%R 5000%R) 1%R)
     = P_endh defaults.
Proof.
  split.
  - apply (@curves_ignore_other_sliders R _ _ defaults
             (with_delta (with_N (with_overheads defaults 0.20%R 0%R 0%R) 1) 1%R));
      reflexivity.
  - apply (@curves_ignore_other_sliders R _ _ defaults
             (with_delta (with_overheads defaults 1%R 10000000%R 5000%R) 1%R));
      reflexivity.
Defined.

(** X11.  Raising a cost raises no entry of a curve.  Replacing [C_op], [H]
    and [v] by values at least as large leaves every entry of the baseline
    and of the endogenous-overhead curve where it was or lower, and so does a
    larger [delta] for the duplication curve: in exact arithmetic for [N >=
    1], and in binary64 under the float comparisons when the old and the new
    slider values are in the declared ranges and [libm] is as in C8. *)
Theorem costs_lower_the_curves :
  (forall (ps : ParameterSet R) (c_op h w dl : R) (i : nat),
     (1 <= N ps)%Z -> (i < 200)%nat ->
     (C_op ps <= c_op -> H ps <= h -> v ps <= w -> delta ps <= dl ->
      nth i (P_base (with_overheads ps c_op h w)) 0 <= nth i (P_base ps) 0
      /\ nth i (P_endh (with_overheads ps c_op h w)) 0 <= nth i (P_endh ps) 0
      /\ nth i (P_dup (with_delta (with_overheads ps c_op h w) dl)) 0
         <= nth i (P_dup ps) 0)%R)
  /\ (forall (LT : Libm float) (ps : ParameterSet float) (c_op h w dl : float)
             (i : nat),
        float_valid ps ->
        float_valid (with_delta (with_overheads ps c_op h w) dl) ->
        between 0 2 (np_exp (mul (neg (beta ps)) (a_star ps))) ->
        between 0 128 (pow2 (a_star ps)) ->
        (i < 200)%nat ->
        PrimFloat.leb (C_op ps) c_op = true -> PrimFloat.leb (H ps) h = true ->
        PrimFloat.leb (v ps) w = true -> PrimFloat.leb (delta ps) dl = true ->
        PrimFloat.leb (nth i (P_base (with_overheads ps c_op h w)) 0%float)
                      (nth i (P_base ps) 0%float) = true
        /\ PrimFloat.leb (nth i (P_endh (with_overheads ps c_op h w)) 0%float)
                         (nth i (P_endh ps) 0%float) = true
        /\ PrimFloat.leb
             (nth i (P_dup (with_delta (with_overheads ps c_op h w) dl)) 0%float)
             (nth i (P_dup ps) 0%float) = true).
Proof.
  split.
  - intros ps c_op h w dl i Hn Hi Hc Hh Hv Hd.
    assert (Hn0 : N ps <> 0%Z) by lia.
    assert (HN : (1 <= IZR (N ps))%R) by (apply IZR_le; lia).
    pose proof (F_nth_bounds Hi) as [H0 H1].
    assert (Hq : (H ps / IZR (N ps) <= h / IZR (N ps))%R).
    { unfold Rdiv. apply Rmult_le_compat_r; [|exact Hh].
      left. apply Rinv_0_lt_compat. lra. }
    assert (Hbase : (nth i (P_base (with_overheads ps c_op h w)) 0
                     <= nth i (P_base ps) 0)%R).
    { rewrite !P_base_closed by assumption.
      change (franchised_profit (with_overheads ps c_op h w))
        with (franchised_profit ps).
      cbn [with_overheads pi C_op]. nra. }
    assert (Hendh : (nth i (P_endh (with_overheads ps c_op h w)) 0
                     <= nth i (P_endh ps) 0)%R).
    { rewrite !P_endh_split by assumption.
      change (franchised_profit (with_overheads ps c_op h w))
        with (franchised_profit ps).
      cbn [with_overheads pi H v N].
      assert (Hw : (v ps * (1 - nth i F 0) <= w * (1 - nth i F 0))%R) by nra.
      nra. }
    split; [exact Hbase|]. split; [exact Hendh|].
    rewrite !P_dup_nth by assumption. cbn [sub mul of_int R_arith].
    change (IZR 1) with 1%R.
    change (P_endh (with_delta (with_overheads ps c_op h w) dl))
      with (P_endh (with_overheads ps c_op h w)).
    cbn [with_delta delta].
    assert (Hpen : (delta ps * nth i F 0 * (1 - nth i F 0)
                    <= dl * nth i F 0 * (1 - nth i F 0))%R).
    { assert (Hff : (0 <= nth i F 0 * (1 - nth i F 0))%R) by nra.
      rewrite !Rmult_assoc. nra. }
    lra.
  - intros LT ps c_op h w dl i Hvalid Hvalid' Hexp Hpow Hi Lc Lh Lv Ld.
    now apply costs_lower_float.
Qed.

Lemma costs_lower_the_curves_witness :
  PrimFloat.leb
    (nth 100 (P_endh (LT := libm_at_defaults)
                (with_overheads float_defaults 0.5%float 2e7%float 6e3%float)) 0%float)
    (nth 100 (P_endh (LT := libm_at_defaults) float_defaults) 0%float)
  = true.
Proof.
  assert (He : between 0 2 (np_exp (Libm := libm_at_defaults)
                              (mul (neg (beta float_defaults)) (a_star float_defaults))))
    by (split; vm_compute; reflexivity).
  assert (Hp : between 0 128 (pow2 (Libm := libm_at_defaults) (a_star float_defaults)))
    by (split; vm_compute; reflexivity).
  assert (Hv : float_valid (with_delta (with_overheads float_defaults 0.5%float 2e7%float 6e3%float) 1%float)).
  { unfold float_valid, between.
    cbn [with_delta with_overheads float_defaults pi C_op H v N a_star beta kappa delta].
    repeat split; try (vm_compute; reflexivity); lia. }
  assert (Hi : (100 < 200)%nat) by lia.
  refine (proj1 (proj2 (proj2 costs_lower_the_curves libm_at_defaults float_defaults
                          0.5%float 2e7%float 6e3%float 1%float 100%nat
                          float_defaults_valid Hv He Hp Hi _ _ _ _)));
    vm_compute; reflexivity.
Defined.

(** X13.  Raising the potential profit lowers no entry of a curve.  When the
    success probability is not negative, replacing [pi] by a larger value
    leaves every entry of the three curves where it was or higher: in exact
    arithmetic for [beta * a_star >= 0] and [N <> 0], and in binary64 under
    the float comparisons when the old and the new [pi] and the other sliders
    are in the declared ranges, [libm] is as in C8 and the one [np.exp] call
    returns at most [1.0]. *)
Theorem profit_raises_the_curves :
  (forall (ps : ParameterSet R) (x : R) (i : nat),
     (0 <= beta ps * a_star ps)%R -> N ps <> 0%Z -> (i < 200)%nat ->
     (pi ps <= x ->
      nth i (P_base ps) 0 <= nth i (P_base (with_pi ps x)) 0
      /\ nth i (P_endh ps) 0 <= nth i (P_endh (with_pi ps x)) 0
      /\ nth i (P_dup ps) 0 <= nth i (P_dup (with_pi ps x)) 0)%R)
  /\ (forall (LT : Libm float) (ps : ParameterSet float) (x : float) (i : nat),
        float_valid ps ->
        between 0 1 (np_exp (mul (neg (beta ps)) (a_star ps))) ->
        between 0 128 (pow2 (a_star ps)) ->
        between 0 1 x -> PrimFloat.leb (pi ps) x = true -> (i < 200)%nat ->
        PrimFloat.leb (nth i (P_base ps) 0%float)
                      (nth i (P_base (with_pi ps x)) 0%float) = true
        /\ PrimFloat.leb (nth i (P_endh ps) 0%float)
                         (nth i (P_endh (with_pi ps x)) 0%float) = true
        /\ PrimFloat.leb (nth i (P_dup ps) 0%float)
                         (nth i (P_dup (with_pi ps x)) 0%float) = true).
Proof.
  split.
  - intros ps x i Hba Hn Hi Hx.
    pose proof (F_nth_bounds Hi) as [H0 H1].
    assert (He : (exp (- beta ps * a_star ps) <= 1)%R) by (apply exp_le_1; lra).
    assert (Hp : (0 <= (1 - exp (- beta ps * a_star ps)) * (x - pi ps))%R)
      by (apply Rmult_le_pos; lra).
    assert (Hfp : (franchised_profit (with_pi ps x)
                   = franchised_profit ps
                     + (1 - exp (- beta ps * a_star ps)) * (x - pi ps))%R).
    { rewrite !franchised_profit_eq. cbn [with_pi pi beta a_star kappa]. ring. }
    assert (Hbase : (nth i (P_base ps) 0 <= nth i (P_base (with_pi ps x)) 0)%R).
    { rewrite !P_base_closed by assumption. rewrite Hfp.
      cbn [with_pi pi C_op]. nra. }
    assert (Hendh : (nth i (P_endh ps) 0 <= nth i (P_endh (with_pi ps x)) 0)%R).
    { rewrite !P_endh_split by assumption. rewrite Hfp.
      cbn [with_pi pi H v N]. nra. }
    split; [exact Hbase|]. split; [exact Hendh|].
    rewrite !P_dup_nth by assumption. cbn [sub mul of_int R_arith].
    cbn [with_pi delta]. lra.
  - intros LT ps x i Hvalid Hexp Hpow Hx Lx Hi.
    now apply profit_raises_float.
Qed.

Lemma profit_raises_the_curves_witness :
  PrimFloat.leb
    (nth 100 (P_dup (LT := libm_at_defaults) float_defaults) 0%float)
    (nth 100 (P_dup (LT := libm_at_defaults) (with_pi float_defaults 0.5%float)) 0%float)
  = true.
Proof.
  assert (He : between 0 1 (np_exp (Libm := libm_at_defaults)
                              (mul (neg (beta float_defaults)) (a_star float_defaults))))
    by (split; vm_compute; reflexivity).
  assert (Hp : between 0 128 (pow2 (Libm := libm_at_defaults) (a_star float_defaults)))
    by (split; vm_compute; reflexivity).
  assert (Hx : between 0 1 0.5%float) by (split; vm_compute; reflexivity).
  assert (Hl : PrimFloat.leb (pi float_defaults) 0.5%float = true) by (vm_compute; reflexivity).
  assert (Hi : (100 < 200)%nat) by lia.
  exact (proj2 (proj2 (proj2 profit_raises_the_curves libm_at_defaults float_defaults
                         0.5%float 100%nat float_defaults_valid He Hp Hx Hl Hi))).
Defined.

(** ** NaN and infinite values in a pass *)

(** X14.  Lines 75-78 in binary64: [ndarray.min] and [ndarray.max] hand a NaN
    on, so one NaN among the 600 curve values makes both limits that reach
    [ax.set_ylim] NaN, whatever the other values are. *)
Theorem nan_reaches_the_limits (LT : Libm float) (ps : ParameterSet float)
        (x : float) :
  In x (all_p_values ps) -> PrimFloat.is_nan x = true ->
  exists lo hi : float,
    set_ylim ps = Returned (lo, hi)
    /\ PrimFloat.is_nan lo = true /\ PrimFloat.is_nan hi = true.
Proof.
  intros Hin Hnan. apply nan_float_is_nan in Hnan.
  destruct (@nan_ylim LT ps x Hin Hnan) as (lo & hi & Hlim & Hlo & Hhi).
  exists lo, hi. split; [exact Hlim|].
  split; now apply nan_float_is_nan.
Qed.

Lemma nan_reaches_the_limits_witness :
  exists lo hi : float,
    set_ylim (LT := libm_at_defaults) (with_N float_defaults 0) = Returned (lo, hi)
    /\ PrimFloat.is_nan lo = true /\ PrimFloat.is_nan hi = true.
Proof.
  apply (@nan_reaches_the_limits libm_at_defaults (with_N float_defaults 0)
           (nth 199 (P_endh (LT := libm_at_defaults) (with_N float_defaults 0)) 0%float)).
  - assert (Hi : (199 < 200)%nat) by lia.
    exact (proj1 (proj2 (@curve_values_In float _ libm_at_defaults
                           (with_N float_defaults 0) 199%nat 0%float Hi))).
  - vm_compute. reflexivity.
Defined.

(** X15.  Line 47 with [N = 0] in binary64.  No statement of lines 37-78
    checks [N]: for slider values in the declared ranges otherwise, and
    [libm] results as in C8, the per-outlet cost [C_op_F(F)/N] is an
    infinity or a NaN at every grid entry, no entry of the
    endogenous-overhead and of the duplication curve is finite, their last
    entry is NaN ([0 * inf]), and both limits computed on lines 76-78, the
    arguments of [ax.set_ylim], are NaN.  What [matplotlib] does with NaN
    limits is outside the script. *)
Theorem no_outlets_no_finite_value (LT : Libm float) (ps : ParameterSet float) :
  float_valid ps ->
  between 0 2 (np_exp (mul (neg (beta ps)) (a_star ps))) ->
  between 0 128 (pow2 (a_star ps)) ->
  (forall f : float, In f F ->
     PrimFloat.is_finite
       (div (C_op_F (with_N ps 0) f) (of_int (N (with_N ps 0)))) = false)
  /\ (forall i : nat, (i < 200)%nat ->
        PrimFloat.is_finite (nth i (P_endh (with_N ps 0)) 0%float) = false
        /\ PrimFloat.is_finite (nth i (P_dup (with_N ps 0)) 0%float) = false)
  /\ PrimFloat.is_nan (nth 199 (P_endh (with_N ps 0)) 0%float) = true
  /\ PrimFloat.is_nan (nth 199 (P_dup (with_N ps 0)) 0%float) = true
  /\ exists lo hi : float,
       set_ylim (with_N ps 0) = Returned (lo, hi)
       /\ PrimFloat.is_nan lo = true /\ PrimFloat.is_nan hi = true.
Proof.
  intros Hvalid Hexp Hpow.
  assert (Hendh : forall i : nat, (i < 200)%nat ->
            not_finite (nth i (P_endh (with_N ps 0)) 0%float)).
  { intros i Hi. rewrite P_endh_nth by assumption.
    apply P_endh_at_not_finite; try assumption.
    apply nth_In. now rewrite F_length. }
  assert (Hlast : nan_float (nth 199 (P_endh (with_N ps 0)) 0%float)).
  { rewrite P_endh_nth by lia. rewrite F_last_float.
    now apply P_endh_at_nan. }
  split; [|split; [|split; [|split]]].
  - intros f Hf. apply not_finite_is_finite, per_outlet_not_finite.
  - intros i Hi. split; [now apply not_finite_is_finite, Hendh|].
    apply not_finite_is_finite. rewrite P_dup_nth by assumption.
    eapply sub_not_finite_l; [now apply Hendh|].
    apply penalty_fin; [assumption|]. apply nth_In. now rewrite F_length.
  - now apply nan_float_is_nan.
  - apply nan_float_is_nan. rewrite P_dup_nth by lia. now apply nan_sub_l.
  - destruct (@nan_ylim LT (with_N ps 0)
                (nth 199 (P_endh (with_N ps 0)) 0%float))
      as (lo & hi & Hlim & Hlo & Hhi).
    + assert (Hi : (199 < 200)%nat) by lia.
      exact (proj1 (proj2 (@curve_values_In float _ LT (with_N ps 0)
                             199%nat 0%float Hi))).
    + exact Hlast.
    + exists lo, hi. split; [exact Hlim|]. split; now apply nan_float_is_nan.
Qed.

Lemma no_outlets_no_finite_value_witness :
  PrimFloat.is_finite
    (nth 0 (P_endh (LT := libm_at_defaults) (with_N float_defaults 0)) 0%float) = false
  /\ PrimFloat.is_nan
       (nth 199 (P_endh (LT := libm_at_defaults) (with_N float_defaults 0)) 0%float)
     = true.
Proof.
  assert (He : between 0 2 (np_exp (Libm := libm_at_defaults)
                              (mul (neg (beta float_defaults)) (a_star float_defaults))))
    by (split; vm_compute; reflexivity).
  assert (Hp : between 0 128 (pow2 (Libm := libm_at_defaults) (a_star float_defaults)))
    by (split; vm_compute; reflexivity).
  destruct (@no_outlets_no_finite_value libm_at_defaults float_defaults
              float_defaults_valid He Hp) as (_ & Hcurves & Hnan & _).
  split; [apply (Hcurves 0%nat); lia | exact Hnan].
Defined.
